(** * Fonty: font glyph replacer -- shallow embedding of [Fonty.py]

    The script is a thin orchestration of calls into FontForge, the
    operating system and standard input.  The embedding keeps that
    shape:

    - [PyStr]  the [str] methods and [os.path] functions the script
               uses, over strings of code points below 256;
    - [PyNum]  Python's [int] and [float] values and the arithmetic
               the script applies to them (binary64 through
               [SpecFloat]);
    - [Fonty]  the script itself, written in a monad that threads the
               state of the outside world, consumes standard input and
               records every call and every printed line;
    - [Mock]   a small concrete outside world, used to run the script.

    The outside world (FontForge, the file system) is a parameter:
    every theorem about the script holds for every answer the world
    may give, exceptions included. *)

From Stdlib Require Import ZArith Ascii String List Bool Lia.
From Stdlib Require Import Floats.SpecFloat.
From stdpp Require Import gmap strings list sorting.

Local Open Scope string_scope.
Local Open Scope list_scope.
Local Open Scope Z_scope.

(* ================================================================== *)
(** * Python strings *)
(* ================================================================== *)

Module PyStr.

(** A Python [str] is modelled by a Rocq [string] whose characters are
    the code points U+0000..U+00FF. *)

Definition code (c : ascii) : Z := Z.of_N (N_of_ascii c).

Definition between (lo hi n : Z) : bool := (lo <=? n) && (n <=? hi).

(** [str.isspace] on one character. *)
Definition is_py_space (c : ascii) : bool :=
  let n := code c in
  between 9 13 n || between 28 32 n || (n =? 133) || (n =? 160).

(** [str.lower] on one character. *)
Definition lower_char (c : ascii) : ascii :=
  let n := code c in
  if between 65 90 n || (between 192 222 n && negb (n =? 215))
  then ascii_of_N (N_of_ascii c + 32)
  else c.

Fixpoint lower (s : string) : string :=
  match s with
  | EmptyString => EmptyString
  | String c r => String (lower_char c) (lower r)
  end.

Definition is_empty (s : string) : bool :=
  match s with EmptyString => true | String _ _ => false end.

(** Truth value of a string: [if s:]. *)
Definition truthy (s : string) : bool := negb (is_empty s).

Fixpoint lstrip (s : string) : string :=
  match s with
  | EmptyString => EmptyString
  | String c r => if is_py_space c then lstrip r else s
  end.

Fixpoint rstrip (s : string) : string :=
  match s with
  | EmptyString => EmptyString
  | String c r =>
      match rstrip r with
      | EmptyString => if is_py_space c then EmptyString else String c EmptyString
      | r' => String c r'
      end
  end.

(** [s.strip()] *)
Definition strip (s : string) : string := rstrip (lstrip s).

(** [s.startswith(p)] *)
Fixpoint startswith (p s : string) : bool :=
  match p, s with
  | EmptyString, _ => true
  | String _ _, EmptyString => false
  | String a p', String b s' => Ascii.eqb b a && startswith p' s'
  end.

(** [s[n:]] *)
Fixpoint skip (n : nat) (s : string) : string :=
  match n, s with
  | O, _ => s
  | S _, EmptyString => EmptyString
  | S n', String _ r => skip n' r
  end.

(** [s.endswith(suf)] *)
Fixpoint endswith (suf s : string) : bool :=
  String.eqb s suf ||
  match s with
  | EmptyString => false
  | String _ r => endswith suf r
  end.

(** [s.endswith((a, b, ...))] *)
Definition endswith_any (sufs : list string) (s : string) : bool :=
  existsb (fun suf => endswith suf s) sufs.

(** [s.split(sep)] for a one-character separator. *)
Fixpoint split (sep : ascii) (s : string) : list string :=
  match s with
  | EmptyString => [EmptyString]
  | String c r =>
      if Ascii.eqb c sep then EmptyString :: split sep r
      else match split sep r with
           | p :: ps => String c p :: ps
           | [] => [String c EmptyString]
           end
  end.

(** [s.replace(c, "")] for a one-character [c]. *)
Fixpoint remove_char (x : ascii) (s : string) : string :=
  match s with
  | EmptyString => EmptyString
  | String c r => if Ascii.eqb c x then remove_char x r else String c (remove_char x r)
  end.

(** ** [int(s, base)]

    CPython first maps the non-ASCII white space of the string to a
    blank (below 256 these are U+0085 and U+00A0) and every other
    non-ASCII character to a question mark, then reads: white space,
    an optional sign, for base 16 an optional [0x] or [0X] that may be
    followed by one underscore, digits separated by single
    underscores, white space, end of string.  (CPython 3.11 and later
    also refuse, in a base that is no power of two, a string of more
    than 4300 digits; the model reads a decimal string of any
    length.) *)

Definition is_int_space (c : ascii) : bool :=
  let n := code c in
  between 9 13 n || (n =? 32) || (n =? 133) || (n =? 160).

Definition digit_value (c : ascii) : option Z :=
  let n := code c in
  if between 48 57 n then Some (n - 48)
  else if between 97 122 n then Some (n - 87)
  else if between 65 90 n then Some (n - 55)
  else None.

Definition is_digit (base : Z) (c : ascii) : bool :=
  match digit_value c with
  | Some d => d <? base
  | None => false
  end.

Fixpoint skip_int_space (s : string) : string :=
  match s with
  | EmptyString => EmptyString
  | String c r => if is_int_space c then skip_int_space r else s
  end.

(** The digit loop: [prev_us] tells that the character before was an
    underscore, [seen] that a digit has been read, [acc] is the value
    so far.  The result is the value, whether a digit was seen, and the
    unread rest; [None] is a syntax error. *)
Fixpoint scan_digits (base : Z) (prev_us seen : bool) (acc : Z) (s : string)
  : option (Z * bool * string) :=
  let stop := if prev_us then None else Some (acc, seen, s) in
  match s with
  | EmptyString => stop
  | String c r =>
      if Ascii.eqb c "_" then
        if prev_us then None else scan_digits base true seen acc r
      else
        match digit_value c with
        | Some d =>
            if d <? base then scan_digits base false true (acc * base + d) r
            else stop
        | None => stop
        end
  end.

Definition read_sign (s : string) : bool * string :=
  match s with
  | String "+" r => (false, r)
  | String "-" r => (true, r)
  | _ => (false, s)
  end.

Definition skip_radix_prefix (base : Z) (s : string) : string :=
  match s with
  | String "0" (String x r) =>
      if (base =? 16) && (Ascii.eqb x "x" || Ascii.eqb x "X") then
        match r with
        | String "_" r' => r'
        | _ => r
        end
      else s
  | _ => s
  end.

(** [int(s, base)]: [None] stands for [ValueError]. *)
Definition py_int (base : Z) (s : string) : option Z :=
  let '(neg, s1) := read_sign (skip_int_space s) in
  let s2 := skip_radix_prefix base s1 in
  if startswith "_" s2 then None
  else
    match scan_digits base false false 0 s2 with
    | Some (v, true, rest) =>
        if is_empty (skip_int_space rest)
        then Some (if neg then - v else v)
        else None
    | _ => None
    end.

(** ** [os.path] (POSIX flavour) *)

(** [os.path.join(a, b)] *)
Definition path_join (a b : string) : string :=
  if startswith "/" b then b
  else if is_empty a || endswith "/" a then a +:+ b
  else a +:+ "/" +:+ b.

(** [s.rfind(c)], [-1] when [c] does not occur. *)
Fixpoint rfind_from (c : ascii) (i : Z) (s : string) : Z :=
  match s with
  | EmptyString => -1
  | String x r =>
      let j := rfind_from c (i + 1) r in
      if 0 <=? j then j else if Ascii.eqb x c then i else -1
  end.

Definition rfind (c : ascii) (s : string) : Z := rfind_from c 0 s.

(** [s[i:j]] for [0 <= i]. *)
Definition slice (i j : Z) (s : string) : string :=
  String.substring (Z.to_nat i) (Z.to_nat (j - i)) s.

Definition char_at (i : Z) (s : string) : option ascii :=
  String.get (Z.to_nat i) s.

(** The loop of [genericpath._splitext] that looks for a character
    other than a dot between the last separator and the last dot. *)
Fixpoint has_stem (p : string) (i : Z) (steps : nat) : bool :=
  match steps with
  | O => false
  | S k =>
      match char_at i p with
      | Some "."%char => has_stem p (i + 1) k
      | _ => true
      end
  end.

(** [os.path.splitext(p)] *)
Definition splitext (p : string) : string * string :=
  let sepIndex := rfind "/" p in
  let dotIndex := rfind "." p in
  if (sepIndex <? dotIndex) && has_stem p (sepIndex + 1) (Z.to_nat (dotIndex - (sepIndex + 1)))
  then (slice 0 dotIndex p, skip (Z.to_nat dotIndex) p)
  else (p, EmptyString).

End PyStr.

Import PyStr.

(* ================================================================== *)
(** * [parse_hex_int] *)
(* ================================================================== *)

(** The [try] of the source catches the [ValueError] of [int]; nothing
    else in the body can raise on a [str]. *)
Definition parse_hex_int (s : string) : option Z :=
  let s_clean := lower (strip s) in
  let s_clean := if startswith "0x" s_clean then skip 2 s_clean else s_clean in
  if negb (truthy s_clean) then None
  else
    match py_int 16 s_clean with
    | Some val => if (0 <=? val) && (val <=? 0x10FFFF) then Some val else None
    | None => None
    end.

Definition chr (n : Z) : string := String (ascii_of_N (Z.to_N n)) EmptyString.

Example parse_tests :
  map parse_hex_int
    [" 41"; "+41"; "-0"; "4_1"; "0x41"; "0x0x41"; "0x_41"; "_41"; "41_";
     "4__1"; "0x 41"; " 0x41"; ""; "0x"; "-1"; "110000"; "10ffff";
     "0X41"; "4 1"; "0x-1"; "+ 41"; "10FFFF"; "g"; "0xx1"]
  = [Some 65; Some 65; Some 0; Some 65; Some 65; Some 65; None; None; None;
     None; Some 65; Some 65; None; None; None; None; Some 1114111;
     Some 65; None; None; None; Some 1114111; None; None].
Proof. vm_compute. reflexivity. Qed.

Example int_tests :
  map (py_int 16)
    [chr 28 +:+ "41"; chr 160 +:+ "41"; "41" +:+ chr 160; "0x" +:+ chr 160 +:+ "41";
     "41" +:+ chr 0; chr 160 +:+ " 41 " +:+ chr 133; chr 11 +:+ "41" +:+ chr 12;
     "41" +:+ chr 31; chr 233 +:+ "41"; "+0x41"; "-0x_4_1"; "0x__41"; "0_x41";
     "0x4_"; "0xg"; "00x41"; "0"; "-"; "+"; "x41"; "0X_aF"; "0x0x41"; "0x 41"]
  = [None; Some 65; Some 65; None;
     None; Some 65; Some 65;
     None; None; Some 65; Some (-65); None; None;
     None; None; None; Some 0; None; None; None; Some 175; None; None].
Proof. vm_compute. reflexivity. Qed.

Example int10_tests :
  map (py_int 10) ["010"; " 1"; "-1"; "+2"; "1_0"; "0x1"; ""; "a"]
  = [Some 10; Some 1; Some (-1); Some 2; Some 10; None; None; None].
Proof. vm_compute. reflexivity. Qed.

Example splitext_tests :
  map splitext
    ["Destination/a.ttf"; "Destination/.ttf"; "Destination/..otf";
     "Destination/a.b.OTF"; "Destination/a."; "Destination/...a.otf";
     "D.x/abc"; "Destination/. .ttf"]
  = [("Destination/a", ".ttf"); ("Destination/.ttf", ""); ("Destination/..otf", "");
     ("Destination/a.b", ".OTF"); ("Destination/a", "."); ("Destination/...a", ".otf");
     ("D.x/abc", ""); ("Destination/. ", ".ttf")].
Proof. vm_compute. reflexivity. Qed.

Example str_tests :
  (strip "  a b  ", lower "aBc.TTF", split "," "a,b,,c", split "," ",",
   remove_char " " "  a b ", path_join "Output" "x.ttf", path_join "Output" "/x.ttf",
   endswith_any [".ttf"; ".otf"] "a.otf", endswith_any [".ttf"; ".otf"] "a.otf.bak")
  = ("a b", "abc.ttf", ["a"; "b"; ""; "c"], [""; ""],
     "ab", "Output/x.ttf", "/x.ttf", true, false).
Proof. vm_compute. reflexivity. Qed.

(* ================================================================== *)
(** * Python exceptions and numbers *)
(* ================================================================== *)

(** The exceptions the script can meet.  All of them derive from
    [Exception]; [Error] stands for whatever the operating system or
    FontForge raises.  [sys.exit] is not among them: it is an outcome
    of its own (see [outcome] below), as [SystemExit] is not caught by
    [except Exception]. *)
Inductive exn :=
| ImportError
| EOFError
| ZeroDivisionError
| OverflowError
| ValueError
| Error (name : string).

(** A computation that returns or raises. *)
Definition res (A : Type) : Type := exn + A.

Module PyNum.

(** A number handed over by FontForge or computed by the script: an
    unbounded [int] or a binary64 [float]. *)
Inductive pynum :=
| PyInt (z : Z)
| PyFloat (f : spec_float).

Definition prec : Z := 53.
Definition emax : Z := 1024.

Definition is_inf (f : spec_float) : bool :=
  match f with S754_infinity _ => true | _ => false end.

Definition is_zero (f : spec_float) : bool :=
  match f with S754_zero _ => true | _ => false end.

(** [float(z)]: the nearest float, [OverflowError] beyond the range. *)
Definition float_of_int (z : Z) : res spec_float :=
  let f := binary_normalize prec emax z 0 false in
  if is_inf f then inl OverflowError else inr f.

Definition to_float (x : pynum) : res spec_float :=
  match x with
  | PyInt z => float_of_int z
  | PyFloat f => inr f
  end.

(** An integer as an exact, not normalised, float operand. *)
Definition exact_of_int (z : Z) : spec_float :=
  match z with
  | Z0 => S754_zero false
  | Zpos p => S754_finite false p 0
  | Zneg p => S754_finite true p 0
  end.

(** [a / b].  On two [int]s the quotient is rounded once, from the
    exact operands; a zero divisor raises. *)
Definition py_truediv (a b : pynum) : res pynum :=
  match a, b with
  | PyInt x, PyInt y =>
      if y =? 0 then inl ZeroDivisionError
      else
        let q := SFdiv prec emax (exact_of_int x) (exact_of_int y) in
        if is_inf q then inl OverflowError else inr (PyFloat q)
  | _, _ =>
      match to_float a, to_float b with
      | inr x, inr y =>
          if is_zero y then inl ZeroDivisionError
          else inr (PyFloat (SFdiv prec emax x y))
      | inl e, _ => inl e
      | _, inl e => inl e
      end
  end.

Definition float_op (op : spec_float -> spec_float -> spec_float) (a b : pynum)
  : res pynum :=
  match to_float a, to_float b with
  | inr x, inr y => inr (PyFloat (op x y))
  | inl e, _ => inl e
  | _, inl e => inl e
  end.

(** [a * b] *)
Definition py_mul (a b : pynum) : res pynum :=
  match a, b with
  | PyInt x, PyInt y => inr (PyInt (x * y))
  | _, _ => float_op (SFmul prec emax) a b
  end.

(** [a - b] *)
Definition py_sub (a b : pynum) : res pynum :=
  match a, b with
  | PyInt x, PyInt y => inr (PyInt (x - y))
  | _, _ => float_op (SFsub prec emax) a b
  end.

(** The integer nearest to [m * 2^e], ties to the even one. *)
Definition round_half_even (m : positive) (e : Z) : Z :=
  if 0 <=? e then Z.pos m * 2 ^ e
  else
    let d := 2 ^ (- e) in
    let q := Z.pos m / d in
    let r := Z.pos m mod d in
    if 2 * r <? d then q
    else if d <? 2 * r then q + 1
    else if Z.even q then q else q + 1.

(** [round(x)] with one argument: an [int]. *)
Definition py_round (x : pynum) : res Z :=
  match x with
  | PyInt z => inr z
  | PyFloat (S754_zero _) => inr 0
  | PyFloat (S754_infinity _) => inl OverflowError
  | PyFloat S754_nan => inl ValueError
  | PyFloat (S754_finite s m e) =>
      let n := round_half_even m e in
      inr (if s then - n else n)
  end.

(** [int(round(v * scale))], the expression of the three bearing
    assignments. *)
Definition scaled (v scale : pynum) : res Z :=
  match py_mul v scale with
  | inr x => py_round x
  | inl e => inl e
  end.

(** The words "nearest integer", for the finite float [x]: twice the
    distance from [n] to [x] is at most one. *)
Definition nearest_integer (x : spec_float) (n : Z) : Prop :=
  match x with
  | S754_zero _ => n = 0
  | S754_finite s m e =>
      let v := if s then - Z.pos m else Z.pos m in
      if 0 <=? e then n = v * 2 ^ e
      else Z.abs (2 * v - 2 * n * 2 ^ (- e)) <= 2 ^ (- e)
  | _ => False
  end.

Definition float_of_ratio (a b : Z) : option spec_float :=
  match py_truediv (PyInt a) (PyInt b) with
  | inr (PyFloat f) => Some f
  | _ => None
  end.

Example truediv_tests :
  (float_of_ratio 1000 2048, float_of_ratio (2 ^ 60 + 1) 3,
   float_of_ratio (10 ^ 30) 7, float_of_ratio (2 ^ 70 + 12345) (2 ^ 10 + 1),
   float_of_ratio 0 (-5), float_of_ratio (-7) 2, float_of_ratio 1 (10 ^ 330),
   float_of_ratio (10 ^ 400) (10 ^ 399),
   py_truediv (PyInt (10 ^ 400)) (PyInt 3), py_truediv (PyInt 1) (PyInt 0),
   float_of_int (2 ^ 53 + 1), float_of_int (10 ^ 400))
  = (Some (S754_finite false 0x1f400000000000 (-54)),
     Some (S754_finite false 0x15555555555555 6),
     Some (S754_finite false 0x1cd98a8b00a10b 44),
     Some (S754_finite false 0x1ff801ff801ff8 7),
     Some (S754_zero true), Some (S754_finite true 0x1c000000000000 (-51)),
     Some (S754_zero false),
     Some (S754_finite false 0x14000000000000 (-49)),
     inl OverflowError, inl ZeroDivisionError,
     inr (S754_finite false 0x10000000000000 1), inl OverflowError).
Proof. vm_compute. reflexivity. Qed.

(** [round] on 0.5, 1.5, 2.5, -0.5, -1.5 and 292.96875. *)
Example round_tests :
  map (fun '(s, m, e) => py_round (PyFloat (S754_finite s m e)))
    [(false, 1%positive, -1); (false, 3%positive, -1); (false, 5%positive, -1);
     (true, 1%positive, -1); (true, 3%positive, -1);
     (false, 5153960755200000%positive, -44)]
  = [inr 0; inr 2; inr 2; inr 0; inr (-2); inr 293].
Proof. vm_compute. reflexivity. Qed.

Example scaled_test :
  match py_truediv (PyInt 1000) (PyInt 2048) with
  | inr scale => scaled (PyInt 600) scale
  | inl e => inl e
  end = inr 293.
Proof. vm_compute. reflexivity. Qed.

End PyNum.

Import PyNum.

(* ================================================================== *)
(** * The outside world: calls, printed lines, prompts *)
(* ================================================================== *)

(** A font opened by [fontforge.open]. *)
Definition font : Type := nat.

(** The tuple returned by [glyph.boundingBox()]. *)
Record box := Box { xmin : pynum; ymin : pynum; xmax : pynum; ymax : pynum }.

(** The two matrices the script builds with [psMat]. *)
Inductive matrix :=
| Scale (factor : pynum)          (* psMat.scale(factor) *)
| Translate (x y : pynum).        (* psMat.translate(x, y) *)

(** Every call the script makes into the operating system or FontForge,
    indexed by the type of its answer.  A glyph object [font[cp]] is
    written as the pair of the font and the code point it was fetched
    with; a failing [font[cp]] is a failing call on that pair. *)
Inductive call : Type -> Type :=
| ImportFontforge : call unit                         (* import fontforge, psMat *)
| Makedirs (path : string) : call unit                (* os.makedirs(path, exist_ok=True) *)
| IsDir (path : string) : call bool                   (* os.path.isdir(path) *)
| ListDir (path : string) : call (list string)        (* os.listdir(path) *)
| Copy2 (src dst : string) : call unit                (* shutil.copy2(src, dst) *)
| FFOpen (path : string) : call font                  (* fontforge.open(path) *)
| GetEm (f : font) : call pynum                       (* f.em *)
| Contains (f : font) (cp : Z) : call bool            (* cp in f *)
| IsWorthOutputting (f : font) (cp : Z) : call bool   (* f[cp].isWorthOutputting() *)
| BoundingBox (f : font) (cp : Z) : call box          (* f[cp].boundingBox() *)
| SelectionNone (f : font) : call unit                (* f.selection.none() *)
| SelectionSelect (f : font) (cp : Z) : call unit     (* f.selection.select(cp) *)
| Clear (f : font) : call unit                        (* f.clear() *)
| Copy (f : font) : call unit                         (* f.copy() *)
| Paste (f : font) : call unit                        (* f.paste() *)
| Transform (f : font) (cp : Z) (m : matrix) : call unit  (* f[cp].transform(m) *)
| GetWidth (f : font) (cp : Z) : call pynum           (* f[cp].width *)
| GetLsb (f : font) (cp : Z) : call pynum             (* f[cp].left_side_bearing *)
| GetRsb (f : font) (cp : Z) : call pynum             (* f[cp].right_side_bearing *)
| SetWidth (f : font) (cp : Z) (v : Z) : call unit    (* f[cp].width = v *)
| SetLsb (f : font) (cp : Z) (v : Z) : call unit      (* f[cp].left_side_bearing = v *)
| SetRsb (f : font) (cp : Z) (v : Z) : call unit      (* f[cp].right_side_bearing = v *)
| SetFontname (f : font) (s : string) : call unit     (* f.fontname = s *)
| SetFamilyname (f : font) (s : string) : call unit   (* f.familyname = s *)
| SetFullname (f : font) (s : string) : call unit     (* f.fullname = s *)
| SetCopyright (f : font) (s : string) : call unit    (* f.copyright = s *)
| AppendSFNTName (f : font) (lang strid value : string) : call unit
| Generate (f : font) (path : string) : call unit     (* f.generate(path) *)
| Close (f : font) : call unit.                       (* f.close() *)

(** The lines the script prints, one constructor per [print]. *)
Inductive msg :=
| MNoFontForge                       (* ERROR: FontForge modules not found. *)
| MRunWithFontForge                  (* Run with FontForge: ... *)
| MBanner                            (* === Fonty: Font Glyph Replacer === *)
| MStep1                             (* --- Step 1: Define Unicode Range --- *)
| MAddedRange (start_cp end_cp : Z)  (* Added range U+....-U+.... *)
| MStep2                             (* --- Step 2: Define Specific Unicodes --- *)
| MAdded (cp : Z)                    (* Added U+.... *)
| MNoCodepoints                      (* No codepoints provided. Exiting. *)
| MStep3                             (* --- Step 3: Metadata --- *)
| MFontNameEmpty                     (* Font name cannot be empty. *)
| MAuthorEmpty                       (* Author name cannot be empty. *)
| MNoFonts (folder : string)         (* Error: No fonts found in <folder> *)
| MFound (role file : string)        (* Found <role> font: <file> *)
| MMultiple (role : string)          (* Multiple fonts found for <role>: *)
| MListed (i : nat) (file : string)  (*   [i] <file> *)
| MErrorOpening (e : exn)            (* Error opening fonts: <e> *)
| MScale (scale_factor : pynum)      (* Scale factor = ... *)
| MStep6                             (* --- Step 6: Y-Alignment --- *)
| MKeepSourceTop                     (* 1 = keep source top *)
| MMatchDestTop                      (* 2 = match destination top *)
| MMatchDestBottom                   (* 3 = match destination bottom *)
| MAlignMode (align_mode : string)   (* Y-alignment mode = <mode> *)
| MMissing (cp : Z)                  (* U+.... missing in source. Skipped. *)
| MReplaced (cp : Z)                 (* U+.... replaced. *)
| MError (cp : Z) (e : exn)          (* U+.... error: <e> *)
| MTraceback (e : exn)               (* traceback.format_exc() *)
| MDone                              (* Done. *)
| MCounts (replaced skipped : nat)   (* Replaced <r>, skipped <s>. *)
| MSaved (path : string).            (* Output saved: <path> *)

(** The prompts of [input]. *)
Inductive prompt :=
| PStart                             (* Start Unicode (hex): *)
| PEnd                               (* End Unicode (hex): *)
| PSpecific                          (* Specific Unicodes (comma hex): *)
| PFontName                          (* Enter new font name: *)
| PAuthor                            (* Enter author name: *)
| PLicense                           (* Enter license text (optional): *)
| PChoose (role : string)            (* Choose <role> font number (default 0): *)
| PAlign.                            (* Choose (default 1): *)

(** What a run leaves behind, in order: calls with their answers,
    printed lines, and lines read ([None] at end of input). *)
Inductive event :=
| Called {T : Type} (c : call T) (r : res T)
| Printed (m : msg)
| Asked (p : prompt) (line : option string).

(** How a piece of the script ends: it returns, raises an exception,
    or leaves through [sys.exit(code)]. *)
Inductive outcome (A : Type) :=
| Ok (a : A)
| Raise (e : exn)
| Exit (code : Z).
Arguments Ok {A} a.
Arguments Raise {A} e.
Arguments Exit {A} code.

(** The exit status of the process. *)
Definition exit_code {A} (o : outcome A) : Z :=
  match o with
  | Ok _ => 0
  | Raise _ => 1        (* uncaught exception: traceback, status 1 *)
  | Exit c => c
  end.

(* ================================================================== *)
(** * The script *)
(* ================================================================== *)

Section Fonty.

(** The world: a state and its answer to every call. *)
Context {Env : Type}.
Variable handle : forall T, call T -> Env -> res T * Env.

Record result (A : Type) := Result {
  outcome_of : outcome A;
  env_of : Env;
  stdin_of : list string;
  trace_of : list event
}.
Arguments Result {A} _ _ _ _.
Arguments outcome_of {A} _.
Arguments env_of {A} _.
Arguments stdin_of {A} _.
Arguments trace_of {A} _.

(** A piece of script: from the world and the unread input lines to an
    outcome, the new world, the rest of the input and the events. *)
Definition M (A : Type) : Type := Env -> list string -> result A.

Definition after {A B} (r : result A) (r' : result B) : result B :=
  Result (outcome_of r') (env_of r') (stdin_of r') (trace_of r ++ trace_of r').

Definition stop {A B} (o : outcome B) (r : result A) : result B :=
  Result o (env_of r) (stdin_of r) (trace_of r).

#[local] Instance M_ret : MRet M := fun A a env inp => Result (Ok a) env inp [].

#[local] Instance M_bind : MBind M := fun A B k m env inp =>
  let r := m env inp in
  match outcome_of r with
  | Ok a => after r (k a (env_of r) (stdin_of r))
  | Raise e => stop (Raise e) r
  | Exit c => stop (Exit c) r
  end.

Definition raise {A} (e : exn) : M A := fun env inp => Result (Raise e) env inp [].

(** [sys.exit(code)] *)
Definition sys_exit {A} (code : Z) : M A := fun env inp => Result (Exit code) env inp [].

(** [try: m  except Exception as e: h e] *)
Definition try_except {A} (m : M A) (h : exn -> M A) : M A := fun env inp =>
  let r := m env inp in
  match outcome_of r with
  | Raise e => after r (h e (env_of r) (stdin_of r))
  | _ => r
  end.

(** A value computed by Python itself, which may raise. *)
Definition lift {A} (x : res A) : M A :=
  match x with
  | inr a => mret a
  | inl e => raise e
  end.

(** One call into the world. *)
Definition perform {T} (c : call T) : M T := fun env inp =>
  let '(r, env') := handle T c env in
  Result (match r with inr v => Ok v | inl e => Raise e end) env' inp [Called c r].

Definition print (m : msg) : M unit := fun env inp =>
  Result (Ok tt) env inp [Printed m].

(** [input(prompt)]: the next line, [EOFError] when there is none. *)
Definition input (p : prompt) : M string := fun env inp =>
  match inp with
  | line :: rest => Result (Ok line) env rest [Asked p (Some line)]
  | [] => Result (Raise EOFError) env [] [Asked p None]
  end.

Fixpoint for_each {A S} (l : list A) (body : A -> S -> M S) (s : S) : M S :=
  match l with
  | [] => mret s
  | x :: rest => s' ← body x s; for_each rest body s'
  end.

(** ** Steps 1 and 2: the code points (lines 80-106) *)

(** [for cp in range(start_cp, end_cp + 1): codepoints.add(cp)] *)
Definition add_range (start_cp end_cp : Z) (codepoints : gset Z) : gset Z :=
  foldl (fun s cp => {[cp]} ∪ s) codepoints (seqZ start_cp (end_cp + 1 - start_cp)).

(** The bounds of the range, when the two answers give one
    (lines 85-88). *)
Definition range_of (start_s end_s : string) : option (Z * Z) :=
  if truthy start_s && truthy end_s then
    match parse_hex_int start_s, parse_hex_int end_s with
    | Some start_cp, Some end_cp =>
        if end_cp >=? start_cp then Some (start_cp, end_cp) else None
    | _, _ => None
    end
  else None.

(** The set after lines 85-90. *)
Definition range_codepoints (start_s end_s : string) : gset Z :=
  match range_of start_s end_s with
  | Some (start_cp, end_cp) => add_range start_cp end_cp ∅
  | None => ∅
  end.

Definition read_range : M (gset Z) :=
  print MStep1;;
  start_line ← input PStart;
  end_line ← input PEnd;
  match range_of (strip start_line) (strip end_line) with
  | Some (start_cp, end_cp) =>
      print (MAddedRange start_cp end_cp);;
      mret (add_range start_cp end_cp ∅)
  | None => mret ∅
  end.

Definition add_specific (part : string) (codepoints : gset Z) : M (gset Z) :=
  match parse_hex_int part with
  | Some cp => print (MAdded cp);; mret ({[cp]} ∪ codepoints)
  | None => mret codepoints
  end.

Definition read_specific (codepoints : gset Z) : M (gset Z) :=
  print MStep2;;
  line ← input PSpecific;
  let specific_s := strip line in
  if truthy specific_s
  then for_each (split "," specific_s) add_specific codepoints
  else mret codepoints.

(** The set after lines 95-100, started from [codepoints]. *)
Definition specific_codepoints (specific_s : string) (codepoints : gset Z) : gset Z :=
  if truthy specific_s
  then codepoints ∪ list_to_set (omap parse_hex_int (split "," specific_s))
  else codepoints.

(** [sorted(codepoints)] *)
Definition sorted (codepoints : gset Z) : list Z :=
  merge_sort Z.le (elements codepoints).

(** The sequence of line 106, from the three answers. *)
Definition final_codepoints (start_s end_s specific_s : string) : list Z :=
  sorted (specific_codepoints specific_s (range_codepoints start_s end_s)).

Definition collect_codepoints : M (list Z) :=
  codepoints ← read_range;
  codepoints ← read_specific codepoints;
  if bool_decide (codepoints = ∅)
  then print MNoCodepoints;; sys_exit 0
  else mret (sorted codepoints).

(** ** Step 3: metadata (lines 108-123) *)

(** [while True: x = input(p).strip(); if x: break; print(complaint)] *)
Fixpoint ask_until_given (p : prompt) (complaint : msg) (env : Env) (inp : list string)
  : result string :=
  match inp with
  | [] => Result (Raise EOFError) env [] [Asked p None]
  | line :: rest =>
      let answer := strip line in
      if truthy answer then Result (Ok answer) env rest [Asked p (Some line)]
      else after (Result (Ok tt) env rest [Asked p (Some line); Printed complaint])
                 (ask_until_given p complaint env rest)
  end.

Definition copyright_sign : string := String (ascii_of_N 169) EmptyString.

Definition read_metadata : M (string * string * string) :=
  print MStep3;;
  new_font_name ← ask_until_given PFontName MFontNameEmpty;
  author_name ← ask_until_given PAuthor MAuthorEmpty;
  line ← input PLicense;
  let license_text := strip line in
  let license_text :=
    if negb (truthy license_text)
    then copyright_sign +:+ " " +:+ author_name +:+ " All rights reserved"
    else license_text in
  mret (new_font_name, author_name, license_text).

(** ** Step 4: font selection (lines 47-68 and 126-129) *)

Definition is_font_name (f : string) : bool :=
  endswith_any [".ttf"; ".otf"] (lower f).

Definition find_font_files (folder : string) : M (list string) :=
  is_dir ← perform (IsDir folder);
  if negb is_dir then mret []
  else
    names ← perform (ListDir folder);
    mret (List.filter is_font_name names).

(** [l[i]] with Python's negative indices; [None] is [IndexError]. *)
Definition py_index {A} (l : list A) (i : Z) : option A :=
  let n := Z.of_nat (length l) in
  if 0 <=? i then l !! Z.to_nat i
  else if - n <=? i then l !! Z.to_nat (n + i)
  else None.

(** The [try] of lines 64-68; [first] is [files[0]].  A literal that
    [int] rejects and an index out of range end in the same [except]. *)
Definition pick (files : list string) (first choice : string) : string :=
  match (if truthy choice then py_int 10 choice else Some 0) with
  | Some idx =>
      match py_index files idx with
      | Some f => f
      | None => first
      end
  | None => first
  end.

Definition enumerate {A} (l : list A) : list (nat * A) :=
  zip (seq 0 (length l)) l.

Definition choose_file (folder role : string) : M (option string) :=
  files ← find_font_files folder;
  match files with
  | [] => print (MNoFonts folder);; mret None
  | [file] => print (MFound role file);; mret (Some (path_join folder file))
  | first :: _ =>
      print (MMultiple role);;
      for_each (enumerate files) (fun entry _ => print (MListed (fst entry) (snd entry))) tt;;
      line ← input (PChoose role);
      mret (Some (path_join folder (pick files first (strip line))))
  end.

(** [not path]: [None] and the empty string are false. *)
Definition usable (path : option string) : bool :=
  match path with
  | Some p => truthy p
  | None => false
  end.

Definition select_fonts (source_folder dest_folder : string) : M (string * string) :=
  source_path ← choose_file source_folder "Source";
  dest_path ← choose_file dest_folder "Destination";
  match source_path, dest_path with
  | Some s, Some d => if usable source_path && usable dest_path then mret (s, d) else sys_exit 1
  | _, _ => sys_exit 1
  end.

(** ** Output path (lines 131-136) *)

Definition output_ext (dest_path : string) : string :=
  let ext := lower (snd (splitext dest_path)) in
  if existsb (String.eqb ext) [".ttf"; ".otf"] then ext else ".ttf".

Definition output_path_of (output_folder dest_path new_font_name : string) : string :=
  path_join output_folder (new_font_name +:+ output_ext dest_path).

(** ** Step 5: open the fonts (lines 140-146) *)

Definition open_fonts (source_path output_path : string) : M (font * font) :=
  try_except
    (src_font ← perform (FFOpen source_path);
     out_font ← perform (FFOpen output_path);
     mret (src_font, out_font))
    (fun e => print (MErrorOpening e);; sys_exit 1).

(** ** Metadata, scale factor, alignment (lines 148-167) *)

Definition set_metadata (out_font : font) (new_font_name author_name license_text : string)
  : M unit :=
  perform (SetFontname out_font (remove_char " " new_font_name));;
  perform (SetFamilyname out_font new_font_name);;
  perform (SetFullname out_font new_font_name);;
  perform (AppendSFNTName out_font "English (US)" "Designer" author_name);;
  perform (SetCopyright out_font ("Copyright 2025: " +:+ author_name));;
  perform (AppendSFNTName out_font "English (US)" "License" license_text).

Definition compute_scale (src_font out_font : font) : M pynum :=
  out_em ← perform (GetEm out_font);
  src_em ← perform (GetEm src_font);
  scale_factor ← lift (py_truediv out_em src_em);
  print (MScale scale_factor);;
  mret scale_factor.

Definition choose_alignment : M string :=
  print MStep6;;
  print MKeepSourceTop;;
  print MMatchDestTop;;
  print MMatchDestBottom;;
  line ← input PAlign;
  let choice := strip line in
  let align_mode := if existsb (String.eqb choice) ["1"; "2"; "3"] then choice else "1" in
  print (MAlignMode align_mode);;
  mret align_mode.

(** ** The transfer loop (lines 169-216) *)

(** [cp in f and f[cp].isWorthOutputting()] *)
Definition has_glyph (f : font) (cp : Z) : M bool :=
  present ← perform (Contains f cp);
  if (present : bool) then perform (IsWorthOutputting f cp) else mret false.

(** Lines 178-181: [(old_top_y, old_bot_y)]. *)
Definition old_bounds (out_font : font) (cp : Z) : M (option pynum * option pynum) :=
  existing ← has_glyph out_font cp;
  if (existing : bool) then
    b ← perform (BoundingBox out_font cp);
    mret (Some (ymax b), Some (ymin b))
  else mret (None, None).

(** Lines 184-191. *)
Definition clear_and_paste (src_font out_font : font) (cp : Z) : M unit :=
  perform (SelectionNone out_font);;
  perform (SelectionSelect out_font cp);;
  perform (Clear out_font);;
  perform (SelectionNone src_font);;
  perform (SelectionSelect src_font cp);;
  perform (Copy src_font);;
  perform (SelectionSelect out_font cp);;
  perform (Paste out_font).

(** Lines 199-203: [shift_y]. *)
Definition vertical_shift (align_mode : string) (old_top_y old_bot_y : option pynum)
    (new_top_y new_bot_y : pynum) : res pynum :=
  match String.eqb align_mode "2", old_top_y with
  | true, Some top => py_sub top new_top_y
  | _, _ =>
      match String.eqb align_mode "3", old_bot_y with
      | true, Some bot => py_sub bot new_bot_y
      | _, _ => inr (PyInt 0)
      end
  end.

(** One of the lines 207-209: [g.x = int(round(src_font[cp].x * scale_factor))]. *)
Definition assign_scaled (get : call pynum) (set : Z -> call unit) (scale_factor : pynum)
  : M unit :=
  value ← perform get;
  v ← lift (scaled value scale_factor);
  perform (set v).

Definition copy_bearings (src_font out_font : font) (scale_factor : pynum) (cp : Z) : M unit :=
  assign_scaled (GetWidth src_font cp) (SetWidth out_font cp) scale_factor;;
  assign_scaled (GetLsb src_font cp) (SetLsb out_font cp) scale_factor;;
  assign_scaled (GetRsb src_font cp) (SetRsb out_font cp) scale_factor.

(** Lines 196-204: measure the scaled glyph and move it. *)
Definition align_y (out_font : font) (align_mode : string)
    (old_top_y old_bot_y : option pynum) (cp : Z) : M unit :=
  new_box ← perform (BoundingBox out_font cp);
  shift_y ← lift (vertical_shift align_mode old_top_y old_bot_y (ymax new_box) (ymin new_box));
  perform (Transform out_font cp (Translate (PyInt 0) shift_y)).

(** Lines 178-209: everything after the check of the source glyph. *)
Definition replace_glyph (src_font out_font : font) (scale_factor : pynum)
    (align_mode : string) (cp : Z) : M unit :=
  '(old_top_y, old_bot_y) ← old_bounds out_font cp;
  clear_and_paste src_font out_font cp;;
  perform (Transform out_font cp (Scale scale_factor));;
  align_y out_font align_mode old_top_y old_bot_y cp;;
  copy_bearings src_font out_font scale_factor cp.

(** One turn of the loop; the state is [(replaced, skipped)]. *)
Definition transfer_glyph (src_font out_font : font) (scale_factor : pynum)
    (align_mode : string) (cp : Z) (counts : nat * nat) : M (nat * nat) :=
  let '(replaced, skipped) := counts in
  try_except
    (available ← has_glyph src_font cp;
     if negb available then
       print (MMissing cp);;
       mret (replaced, S skipped)
     else
       replace_glyph src_font out_font scale_factor align_mode cp;;
       print (MReplaced cp);;
       mret (S replaced, skipped))
    (fun e => print (MError cp e);; print (MTraceback e);; mret (replaced, skipped)).

Definition transfer_loop (src_font out_font : font) (scale_factor : pynum)
    (align_mode : string) (final_codepoints : list Z) : M (nat * nat) :=
  for_each final_codepoints (transfer_glyph src_font out_font scale_factor align_mode) (O, O).

(** ** Save (lines 218-225) *)

Definition save_and_close (src_font out_font : font) (output_path : string)
    (counts : nat * nat) : M unit :=
  perform (Generate out_font output_path);;
  print MDone;;
  print (MCounts (fst counts) (snd counts));;
  print (MSaved output_path);;
  perform (Close src_font);;
  perform (Close out_font).

(** Lines 169-225: the loop, then the save. *)
Definition transfer_and_save (src_font out_font : font) (scale_factor : pynum)
    (align_mode : string) (final_codepoints : list Z) (output_path : string) : M unit :=
  counts ← transfer_loop src_font out_font scale_factor align_mode final_codepoints;
  save_and_close src_font out_font output_path counts.

(** Lines 148-225: the work on the two open fonts. *)
Definition transplant (final_codepoints : list Z)
    (new_font_name author_name license_text output_path : string)
    (src_font out_font : font) : M unit :=
  set_metadata out_font new_font_name author_name license_text;;
  scale_factor ← compute_scale src_font out_font;
  align_mode ← choose_alignment;
  transfer_and_save src_font out_font scale_factor align_mode final_codepoints output_path.

(** ** [main] *)

Definition source_folder : string := "Source".
Definition dest_folder : string := "Destination".
Definition output_folder : string := "Output".

(** What the questions of lines 73-129 settle. *)
Record plan := Plan {
  plan_codepoints : list Z;
  plan_font_name : string;
  plan_author : string;
  plan_license : string;
  plan_source : string;
  plan_dest : string
}.

(** Lines 73-129: everything before the output file is touched. *)
Definition prepare : M plan :=
  print MBanner;;
  perform (Makedirs output_folder);;
  final_codepoints ← collect_codepoints;
  '(new_font_name, author_name, license_text) ← read_metadata;
  '(source_path, dest_path) ← select_fonts source_folder dest_folder;
  mret (Plan final_codepoints new_font_name author_name license_text source_path dest_path).

Definition main : M unit :=
  p ← prepare;
  let output_path := output_path_of output_folder (plan_dest p) (plan_font_name p) in
  perform (Copy2 (plan_dest p) output_path);;
  '(src_font, out_font) ← open_fonts (plan_source p) output_path;
  transplant (plan_codepoints p) (plan_font_name p) (plan_author p) (plan_license p)
    output_path src_font out_font.

(** The import guard of lines 23-29, then [main]. *)
Definition import_guard : M unit :=
  try_except (perform ImportFontforge)
    (fun e =>
       match e with
       | ImportError => print MNoFontForge;; print MRunWithFontForge;; sys_exit 1
       | _ => raise e
       end).

Definition script : M unit :=
  import_guard;;
  main.

End Fonty.

Arguments Result {Env A} _ _ _ _.
Arguments outcome_of {Env A} _.
Arguments env_of {Env A} _.
Arguments stdin_of {Env A} _.
Arguments trace_of {Env A} _.

(* ================================================================== *)
(** * A small world to run the script in *)
(* ================================================================== *)

Module Mock.

(** Two folders with their listings, a source font (handle 0, the first
    font opened) with a table of metrics, and an output font (handle 1)
    whose glyphs are known by their bounding boxes.  Pasting gives the
    selected slot of the output font the box [pasted_box]; a transform
    moves or scales the box. *)
Record world := World {
  importable : bool;
  source_files : list string;
  dest_files : list string;
  unopenable : list string;               (* paths [fontforge.open] refuses *)
  src_em : Z;
  out_em : Z;
  source_glyphs : list (Z * (pynum * pynum * pynum));  (* width, lsb, rsb *)
  pasted_box : box;
  broken : list Z;                        (* slots where [paste] raises *)
  opened : list string;
  selected : option Z;
  out_boxes : list (Z * box)
}.

Definition lookup {A} (cp : Z) (l : list (Z * A)) : option A :=
  snd <$> List.find (fun '(k, _) => k =? cp) l.

Definition has {A} (cp : Z) (l : list (Z * A)) : bool :=
  match lookup cp l with Some _ => true | None => false end.

Definition py_add (a b : pynum) : pynum :=
  match a, b with
  | PyInt x, PyInt y => PyInt (x + y)
  | _, _ =>
      match float_op (SFadd prec emax) a b with
      | inr r => r
      | inl _ => a
      end
  end.

Definition times (a b : pynum) : pynum :=
  match py_mul a b with inr r => r | inl _ => a end.

Definition move (m : matrix) (b : box) : box :=
  match m with
  | Scale s => Box (times (xmin b) s) (times (ymin b) s) (times (xmax b) s) (times (ymax b) s)
  | Translate x y => Box (py_add (xmin b) x) (py_add (ymin b) y) (py_add (xmax b) x) (py_add (ymax b) y)
  end.

Definition set_selected (w : world) (s : option Z) : world :=
  World (importable w) (source_files w) (dest_files w) (unopenable w) (src_em w) (out_em w)
    (source_glyphs w) (pasted_box w) (broken w) (opened w) s (out_boxes w).

Definition set_boxes (w : world) (l : list (Z * box)) : world :=
  World (importable w) (source_files w) (dest_files w) (unopenable w) (src_em w) (out_em w)
    (source_glyphs w) (pasted_box w) (broken w) (opened w) (selected w) l.

Definition set_opened (w : world) (l : list string) : world :=
  World (importable w) (source_files w) (dest_files w) (unopenable w) (src_em w) (out_em w)
    (source_glyphs w) (pasted_box w) (broken w) l (selected w) (out_boxes w).

Definition missing {A} : res A := inl (Error "KeyError").

Definition metric (pick : pynum * pynum * pynum -> pynum) (w : world) (f : font) (cp : Z)
  : res pynum :=
  match f, lookup cp (source_glyphs w) with
  | O, Some t => inr (pick t)
  | _, _ => missing
  end.

Definition in_list (s : string) (l : list string) : bool := existsb (String.eqb s) l.

Definition handle (T : Type) (c : call T) (w : world) : res T * world :=
  match c in call T return res T * world with
  | ImportFontforge => (if importable w then inr tt else inl ImportError, w)
  | Makedirs _ => (inr tt, w)
  | IsDir p => (inr (in_list p ["Source"; "Destination"; "Output"]), w)
  | ListDir p =>
      (inr (if String.eqb p "Source" then source_files w
            else if String.eqb p "Destination" then dest_files w else []), w)
  | Copy2 src dst => (if String.eqb src dst then inl (Error "SameFileError") else inr tt, w)
  | FFOpen p =>
      if in_list p (unopenable w) then (inl (Error "OSError"), w)
      else (inr (length (opened w)), set_opened w (opened w ++ [p]))
  | GetEm f => (inr (PyInt (match f with O => src_em w | _ => out_em w end)), w)
  | Contains f cp | IsWorthOutputting f cp =>
      (inr (match f with O => has cp (source_glyphs w) | _ => has cp (out_boxes w) end), w)
  | BoundingBox f cp =>
      (match f, lookup cp (out_boxes w) with
       | S _, Some b => inr b
       | _, _ => missing
       end, w)
  | SelectionNone f => (inr tt, match f with O => w | _ => set_selected w None end)
  | SelectionSelect f cp => (inr tt, match f with O => w | _ => set_selected w (Some cp) end)
  | Clear f =>
      (inr tt,
       match f, selected w with
       | S _, Some cp => set_boxes w (List.filter (fun '(k, _) => negb (k =? cp)) (out_boxes w))
       | _, _ => w
       end)
  | Copy _ => (inr tt, w)
  | Paste f =>
      match f, selected w with
      | S _, Some cp =>
          if existsb (Z.eqb cp) (broken w) then (inl (Error "paste failed"), w)
          else (inr tt, set_boxes w ((cp, pasted_box w) :: out_boxes w))
      | _, _ => (inr tt, w)
      end
  | Transform f cp m =>
      match f, lookup cp (out_boxes w) with
      | S _, Some b => (inr tt, set_boxes w ((cp, move m b) :: out_boxes w))
      | _, _ => (missing, w)
      end
  | GetWidth f cp => (metric (fun t => fst (fst t)) w f cp, w)
  | GetLsb f cp => (metric (fun t => snd (fst t)) w f cp, w)
  | GetRsb f cp => (metric snd w f cp, w)
  | SetWidth _ _ _ | SetLsb _ _ _ | SetRsb _ _ _ => (inr tt, w)
  | SetFontname _ _ | SetFamilyname _ _ | SetFullname _ _ | SetCopyright _ _ => (inr tt, w)
  | AppendSFNTName _ _ _ _ => (inr tt, w)
  | Generate _ _ => (inr tt, w)
  | Close _ => (inr tt, w)
  end.

(** The float of a small integer. *)
Definition num (z : Z) : pynum := PyFloat (binary_normalize prec emax z 0 false).

Definition flat (top bottom : Z) : box :=
  Box (num 0) (num bottom) (num 500) (num top).

(** Source font of 2000 units per em with A, B and C; destination font
    of 1000 units per em with an A whose top is at 700.  A pasted
    glyph reaches from 0 to 1300. *)
Definition demo : world :=
  World true ["src.ttf"] ["dest.otf"] [] 2000 1000
    [(0x41, (PyInt 1200, PyInt 100, PyInt 90));
     (0x42, (PyInt 1201, PyInt 101, PyInt 91));
     (0x43, (PyInt 1100, PyInt 3, PyInt 5))]
    (flat 1300 0) [] [] None [(0x41, flat 700 (-10))].

Definition with_broken (l : list Z) (w : world) : world :=
  World (importable w) (source_files w) (dest_files w) (unopenable w) (src_em w) (out_em w)
    (source_glyphs w) (pasted_box w) l (opened w) (selected w) (out_boxes w).

Definition with_unopenable (l : list string) (w : world) : world :=
  World (importable w) (source_files w) (dest_files w) l (src_em w) (out_em w)
    (source_glyphs w) (pasted_box w) (broken w) (opened w) (selected w) (out_boxes w).

Definition with_dest_files (l : list string) (w : world) : world :=
  World (importable w) (source_files w) l (unopenable w) (src_em w) (out_em w)
    (source_glyphs w) (pasted_box w) (broken w) (opened w) (selected w) (out_boxes w).

Definition not_importable (w : world) : world :=
  World false (source_files w) (dest_files w) (unopenable w) (src_em w) (out_em w)
    (source_glyphs w) (pasted_box w) (broken w) (opened w) (selected w) (out_boxes w).

(** Answers: range 0041-0044, no list, name MyFont, author Ann, no
    license text, alignment as given. *)
Definition answers (align : string) : list string :=
  ["0041"; "0044"; ""; "MyFont"; "Ann"; ""; align].

Definition run (w : world) (inp : list string) : result unit := script handle w inp.

(** The top of a glyph of the output font. *)
Definition top_of (cp : Z) (w : world) : option pynum := ymax <$> lookup cp (out_boxes w).

(** Two paths name the same file when they are the same path: this
    world has no links and resolves no [..]. *)
Definition same_file (a b : string) : bool := String.eqb a b.

End Mock.

(* ================================================================== *)
(** * The words of the specification *)
(* ================================================================== *)

(** ** Hexadecimal input *)

Fixpoint every (p : ascii -> bool) (s : string) : bool :=
  match s with
  | EmptyString => true
  | String c r => p c && every p r
  end.

Definition is_hex_digit (c : ascii) : bool := is_digit 16 c.

(** The value of a digit string, left to right. *)
Fixpoint horner (base acc : Z) (s : string) : Z :=
  match s with
  | EmptyString => acc
  | String c r => horner base (acc * base + default 0 (digit_value c)) r
  end.

Definition hex_value (s : string) : Z := horner 16 0 s.

(** What is left of [s] without its optional [0x] or [0X]. *)
Definition hex_body (s : string) : string :=
  if startswith "0x" s || startswith "0X" s then skip 2 s else s.

(** A plain hexadecimal string: at least one digit, only digits. *)
Definition plain_hex (s : string) : bool :=
  truthy (hex_body s) && every is_hex_digit (hex_body s).

(** [parse_hex_int] as the specification words it: the base-16 value
    when it lies in the Unicode range, no value for anything else. *)
Definition spec_parse_hex_int (s : string) : option Z :=
  if plain_hex s then
    let v := hex_value (hex_body s) in
    if v <=? 0x10FFFF then Some v else None
  else None.



(** ** Output path *)

(** The path as the specification words it: the extension of the
    destination file when it is [.ttf] or [.otf], [.ttf] otherwise,
    under [Output/]. *)
Definition spec_output_path (dest_path new_font_name : string) : string :=
  let ext := snd (splitext dest_path) in
  "Output/" +:+ new_font_name +:+
  (if existsb (String.eqb ext) [".ttf"; ".otf"] then ext else ".ttf").

(** ** Reading a trace *)

(** The font whose content a call changes. *)
Definition font_written (ev : event) : option font :=
  match ev with
  | Called c _ =>
      match c with
      | Clear f | Paste f | Transform f _ _
      | SetWidth f _ _ | SetLsb f _ _ | SetRsb f _ _
      | SetFontname f _ | SetFamilyname f _ | SetFullname f _ | SetCopyright f _
      | AppendSFNTName f _ _ _ => Some f
      | _ => None
      end
  | _ => None
  end.

(** A copy that went through: source and target. *)
Definition copied (ev : event) : option (string * string) :=
  match ev with
  | Called c r =>
      match c in call T return res T -> option (string * string) with
      | Copy2 src dst => fun r => match r with inr _ => Some (src, dst) | inl _ => None end
      | _ => fun _ => None
      end r
  | _ => None
  end.

(** A font that was opened: path and handle. *)
Definition opened_as (ev : event) : option (string * font) :=
  match ev with
  | Called c r =>
      match c in call T return res T -> option (string * font) with
      | FFOpen path => fun r => match r with inr f => Some (path, f) | inl _ => None end
      | _ => fun _ => None
      end r
  | _ => None
  end.

(** A save: font and target. *)
Definition saved (ev : event) : option (font * string) :=
  match ev with
  | Called c _ =>
      match c with
      | Generate f path => Some (f, path)
      | _ => None
      end
  | _ => None
  end.

(** The file a call writes. *)
Definition file_written (ev : event) : option string :=
  match copied ev, saved ev with
  | Some (_, dst), _ => Some dst
  | _, Some (_, path) => Some path
  | _, _ => None
  end.

(** A call to [shutil.copy2] or [fontforge.open], whatever its answer. *)
Definition reaches_output (ev : event) : bool :=
  match ev with
  | Called c _ =>
      match c with
      | Copy2 _ _ | FFOpen _ => true
      | _ => false
      end
  | _ => false
  end.

(** An event of the questions and answers before the output file
    exists: no copy, no font opened, changed or saved. *)
Definition quiet (ev : event) : bool :=
  negb (reaches_output ev) &&
  match font_written ev, saved ev with
  | None, None => true
  | _, _ => false
  end.

(** The code point a call names. *)
Definition slot_of (ev : event) : option Z :=
  match ev with
  | Called c _ =>
      match c with
      | Contains _ cp | IsWorthOutputting _ cp | BoundingBox _ cp
      | SelectionSelect _ cp | Transform _ cp _
      | GetWidth _ cp | GetLsb _ cp | GetRsb _ cp
      | SetWidth _ cp _ | SetLsb _ cp _ | SetRsb _ cp _ => Some cp
      | _ => None
      end
  | _ => None
  end.

(** The check of line 173 on [(src_font, cp)]. *)
Definition is_source_check (src_font : font) (cp : Z) (ev : event) : bool :=
  match ev with
  | Called c _ =>
      match c with
      | Contains f cp' | IsWorthOutputting f cp' => Nat.eqb f src_font && (cp' =? cp)
      | _ => false
      end
  | _ => false
  end.

(** An event of the work on the open fonts that stays with the output
    font and the output path: what it changes is [out_font], what it
    saves is [out_font] to [output_path], and it neither copies nor
    opens. *)
Definition confined (out_font : font) (output_path : string) (ev : event) : bool :=
  negb (reaches_output ev) &&
  match font_written ev with
  | Some f => Nat.eqb f out_font
  | None => true
  end &&
  match saved ev with
  | Some (f, path) => Nat.eqb f out_font && String.eqb path output_path
  | None => true
  end.

(** An event that changes no font and saves none. *)
Definition harmless (ev : event) : bool :=
  match font_written ev, saved ev with
  | None, None => true
  | _, _ => false
  end.

(** An event that changes no font, saves none and copies no file. *)
Definition idle (ev : event) : bool :=
  harmless ev &&
  match copied ev with
  | None => true
  | Some _ => false
  end.

(** An event that names no code point but [cp]. *)
Definition names_only (cp : Z) (ev : event) : bool :=
  match slot_of ev with
  | Some c => c =? cp
  | None => true
  end.

(** An event that leaves slot [cp] alone: if it names [cp] at all, it is
    the check of line 173 on the source font. *)
Definition untouched (src_font : font) (cp : Z) (ev : event) : bool :=
  match slot_of ev with
  | Some c => if c =? cp then is_source_check src_font cp ev else true
  | None => true
  end.

(** An event that reports no code point missing but [cp]. *)
Definition missing_only (cp : Z) (ev : event) : bool :=
  match ev with
  | Printed (MMissing c) => c =? cp
  | _ => true
  end.

(** The lines that announce a fatal end. *)
Definition reports_no_fonts (ev : event) : bool :=
  match ev with
  | Printed (MNoFonts _) => true
  | _ => false
  end.

Definition reports_open_error (ev : event) : bool :=
  match ev with
  | Printed (MErrorOpening _) => true
  | _ => false
  end.

Definition printed (ev : event) : option msg :=
  match ev with
  | Printed m => Some m
  | _ => None
  end.

(** An event that prints nothing. *)
Definition silent (ev : event) : bool :=
  match printed ev with
  | None => true
  | Some _ => false
  end.

(** The printed lines of a trace. *)
Definition logs (tr : list event) : list msg := omap printed tr.

(** The lines of the loop, counted. *)
Definition is_missing (m : msg) : bool := match m with MMissing _ => true | _ => false end.
Definition is_replaced (m : msg) : bool := match m with MReplaced _ => true | _ => false end.
Definition is_error (m : msg) : bool := match m with MError _ _ => true | _ => false end.

Definition count (p : msg -> bool) (tr : list event) : nat :=
  length (List.filter p (logs tr)).

(** The three metrics of lines 207-209. *)
Inductive metric := Width | Lsb | Rsb.

(** A metric read with its answer, and a metric written. *)
Definition bearing_read (ev : event) : option (metric * font * Z * pynum) :=
  match ev with
  | Called c r =>
      match c in call T return res T -> option (metric * font * Z * pynum) with
      | GetWidth f cp => fun r => match r with inr w => Some (Width, f, cp, w) | inl _ => None end
      | GetLsb f cp => fun r => match r with inr w => Some (Lsb, f, cp, w) | inl _ => None end
      | GetRsb f cp => fun r => match r with inr w => Some (Rsb, f, cp, w) | inl _ => None end
      | _ => fun _ => None
      end r
  | _ => None
  end.

Definition bearing_write (ev : event) : option (metric * font * Z * Z) :=
  match ev with
  | Called c _ =>
      match c with
      | SetWidth f cp v => Some (Width, f, cp, v)
      | SetLsb f cp v => Some (Lsb, f, cp, v)
      | SetRsb f cp v => Some (Rsb, f, cp, v)
      | _ => None
      end
  | _ => None
  end.

(** An event that writes no metric. *)
Definition keeps_bearings (ev : event) : bool :=
  match bearing_write ev with
  | None => true
  | Some _ => false
  end.

(** A translation of a glyph: font, slot, and the two arguments of
    [psMat.translate]. *)
Definition translation_of (ev : event) : option (font * Z * pynum * pynum) :=
  match ev with
  | Called c _ =>
      match c with
      | Transform f cp (Translate x y) => Some (f, cp, x, y)
      | _ => None
      end
  | _ => None
  end.

(** An event that translates nothing. *)
Definition stays_put (ev : event) : bool :=
  match translation_of ev with
  | None => true
  | Some _ => false
  end.

Definition reads_em (ev : event) : bool :=
  match ev with
  | Called c _ => match c with GetEm _ => true | _ => false end
  | _ => false
  end.

(** Every metric written in [tr] goes to [out_font] and is the scaled,
    rounded value of the same metric of the same slot of [src_font],
    read by the call just before. *)
Definition bearings_scaled (src_font out_font : font) (scale_factor : pynum)
    (tr : list event) : Prop :=
  forall pre ev post m f cp v,
    tr = pre ++ ev :: post ->
    bearing_write ev = Some (m, f, cp, v) ->
    f = out_font /\
    exists pre' rd w,
      pre = pre' ++ [rd] /\
      bearing_read rd = Some (m, src_font, cp, w) /\
      scaled w scale_factor = inr v.

(** A property of traces that holds of the empty trace and of the
    concatenation of two traces that have it. *)
Definition closed (P : list event -> Prop) : Prop :=
  P [] /\ forall a b, P a -> P b -> P (a ++ b).

(** [P] holds of every trace the piece of script [m] can leave. *)
Definition traces {Env A} (P : list event -> Prop) (m : @M Env A) : Prop :=
  forall env inp, P (trace_of (m env inp)).

(** The piece of script [m] never leaves through [sys.exit]. *)
Definition no_exit {Env A} (m : @M Env A) : Prop :=
  forall env inp c, outcome_of (m env inp) <> Exit c.

(** ** Picking events out of a trace *)

(** The position of the first event that [p] accepts. *)
Fixpoint position (p : event -> bool) (tr : list event) : nat :=
  match tr with
  | [] => O
  | ev :: rest => if p ev then O else S (position p rest)
  end.

Definition writes_width (ev : event) : bool :=
  match bearing_write ev with
  | Some (Width, _, _, _) => true
  | _ => false
  end.

Definition translates (ev : event) : bool := negb (stays_put ev).

Definition changes_font (ev : event) : bool := negb (harmless ev).

(** The trace up to the first event that [p] accepts, that event, and
    the trace after it. *)
Definition upto (p : event -> bool) (tr : list event) : list event :=
  firstn (position p tr) tr.

Definition beyond (p : event -> bool) (tr : list event) : list event :=
  skipn (S (position p tr)) tr.

Definition hit (p : event -> bool) (tr : list event) : event :=
  nth (position p tr) tr (Printed MDone).

(* ================================================================== *)
(** * The code point in a printed line *)
(* ================================================================== *)

(** The lines of the script show a code point as [U+{cp:04X}]: its
    hexadecimal digits in upper case, filled with zeros to four
    characters. *)

Definition hex_digit_upper (d : Z) : ascii :=
  ascii_of_N (Z.to_N (if d <? 10 then 48 + d else 55 + d)).

(** The digits of [n], most significant first, put before [acc]; one
    turn per digit. *)
Fixpoint hex_digits (fuel : nat) (n : Z) (acc : string) : string :=
  match fuel with
  | O => acc
  | S k =>
      if n =? 0 then acc
      else hex_digits k (n / 16) (String (hex_digit_upper (n mod 16)) acc)
  end.

(** [format(n, "X")] for [0 <= n]. *)
Definition to_hex_upper (n : Z) : string :=
  if n =? 0 then "0" else hex_digits (S (Z.to_nat (Z.log2 n))) n EmptyString.

Fixpoint zeros (k : nat) : string :=
  match k with
  | O => EmptyString
  | S k' => String "0" (zeros k')
  end.

Definition zero_pad (width : nat) (s : string) : string :=
  zeros (width - String.length s) +:+ s.

(** [format(cp, "04X")]; the sign counts in the width. *)
Definition format_04X (cp : Z) : string :=
  if cp <? 0 then "-" +:+ zero_pad 3 (to_hex_upper (- cp))
  else zero_pad 4 (to_hex_upper cp).

Example format_tests :
  map format_04X [0; 10; 0x41; 0xABC; 0xFFFF; 0x1F600; 0x10FFFF; -65; -0x12345]
  = ["0000"; "000A"; "0041"; "0ABC"; "FFFF"; "1F600"; "10FFFF"; "-041"; "-12345"].
Proof. vm_compute. reflexivity. Qed.

(** ** The number of a listed font *)

(** The list of fonts shows each index as [{i}]: Python's [str(i)]. *)

Definition dec_digit (d : Z) : ascii := ascii_of_N (Z.to_N (48 + d)).

Fixpoint dec_digits (fuel : nat) (n : Z) (acc : string) : string :=
  match fuel with
  | O => acc
  | S k =>
      if n =? 0 then acc
      else dec_digits k (n / 10) (String (dec_digit (n mod 10)) acc)
  end.

(** [str(n)] for [0 <= n]. *)
Definition to_decimal (n : Z) : string :=
  if n =? 0 then "0" else dec_digits (S (Z.to_nat (Z.log2 n))) n EmptyString.

(** [str(n)] *)
Definition format_decimal (n : Z) : string :=
  if n <? 0 then "-" +:+ to_decimal (- n) else to_decimal n.

Example decimal_tests :
  map format_decimal [0; 7; 10; 255; 1000; -12]
  = ["0"; "7"; "10"; "255"; "1000"; "-12"].
Proof. vm_compute. reflexivity. Qed.

(* ================================================================== *)
(** * The comma list, part by part *)
(* ================================================================== *)

(** The code points of the comma list (lines 95-100), in the order of
    the parts: one for every part that [parse_hex_int] reads. *)
Definition listed (specific_s : string) : list Z :=
  if truthy specific_s then omap parse_hex_int (split "," specific_s) else [].

(** The lines of line 100 for these code points. *)
Definition added_lines (cps : list Z) : list event :=
  map (fun cp => Printed (MAdded cp)) cps.

(* ================================================================== *)
(** * The lines of a question that is asked again *)
(* ================================================================== *)

(** What the loops of lines 110-119 leave behind for the answers they
    do not accept: the question, the answer, the complaint. *)
Definition refused (p : prompt) (complaint : msg) (lines : list string) : list event :=
  flat_map (fun line => [Asked p (Some line); Printed complaint]) lines.

(** A line that is empty once stripped. *)
Definition blank (line : string) : bool := is_empty (strip line).

(* ================================================================== *)
(** * More ways to read a trace *)
(* ================================================================== *)

(** A string without the blank that [replace(" ", "")] removes. *)
Definition spaceless (s : string) : bool :=
  every (fun c => negb (Ascii.eqb c " ")) s.

(** An event that gives the font no PostScript name with a blank. *)
Definition fontname_spaceless (ev : event) : bool :=
  match ev with
  | Called c _ =>
      match c with
      | SetFontname _ s => spaceless s
      | _ => true
      end
  | _ => true
  end.

(** An event that reports no alignment mode but 1, 2 or 3. *)
Definition mode_known (ev : event) : bool :=
  match ev with
  | Printed (MAlignMode m) => existsb (String.eqb m) ["1"; "2"; "3"]
  | _ => true
  end.

(** A number that is zero: [0], [0.0] or [-0.0]. *)
Definition is_zero_num (x : pynum) : bool :=
  match x with
  | PyInt z => z =? 0
  | PyFloat f => is_zero f
  end.

(** A closing line of lines 220-222, or the closing of a font. *)
Definition closes_run (ev : event) : bool :=
  match ev with
  | Printed MDone | Printed (MCounts _ _) | Printed (MSaved _) => true
  | Called c _ =>
      match c with
      | Close _ => true
      | _ => false
      end
  | _ => false
  end.

(** In [tr], every closing line and every closing of a font comes
    after a save that went through, and a line [Output saved: p]
    names the path of that save. *)
Definition closing_after_save (tr : list event) : Prop :=
  forall pre ev post,
    tr = pre ++ ev :: post ->
    closes_run ev = true ->
    exists out path,
      Called (Generate out path) (inr tt) ∈ pre /\
      forall p, ev = Printed (MSaved p) -> p = path.

(** The exception of an answer. *)
Definition failure {T} (r : res T) : option exn :=
  match r with
  | inl e => Some e
  | inr _ => None
  end.

(** The calls the script makes outside of its three [try] blocks. *)
Definition outside_try {T} (c : call T) : bool :=
  match c with
  | Makedirs _ | IsDir _ | ListDir _ | Copy2 _ _ | GetEm _
  | SetFontname _ _ | SetFamilyname _ _ | SetFullname _ _ | SetCopyright _ _
  | AppendSFNTName _ _ _ _ | Generate _ _ | Close _ => true
  | _ => false
  end.

(** What nothing in the script catches: the end of the input at a
    question, and the failure of a call outside of the [try] blocks. *)
Definition uncaught (ev : event) : option exn :=
  match ev with
  | Asked _ None => Some EOFError
  | Called c r => if outside_try c then failure r else None
  | _ => None
  end.

(** An event that is no such failure. *)
Definition caught (ev : event) : bool :=
  match uncaught ev with
  | None => true
  | Some _ => false
  end.

(** The run [r] ends with its first uncaught failure: the event is the
    last one and its exception is the outcome. *)
Definition stops_at_failure {Env A} (r : @result Env A) : Prop :=
  forall pre ev post e,
    trace_of r = pre ++ ev :: post ->
    uncaught ev = Some e ->
    post = [] /\ outcome_of r = Raise e.

Definition halts {Env A} (m : @M Env A) : Prop :=
  forall env inp, stops_at_failure (m env inp).

(** The lines that come with [sys.exit(1)]. *)
Definition fatal_line (ev : event) : bool :=
  match ev with
  | Printed MNoFontForge | Printed (MNoFonts _) | Printed (MErrorOpening _) => true
  | _ => false
  end.

(** The exit status [c] has its reason in [tr]: 0 with the line that
    no code point was given, 1 with one of the fatal lines. *)
Definition explained (c : Z) (tr : list event) : Prop :=
  (c = 0 /\ Printed MNoCodepoints ∈ tr) \/
  (c = 1 /\ exists ev, ev ∈ tr /\ fatal_line ev = true).

(** Whenever [m] leaves through [sys.exit], the status is explained. *)
Definition accounts {Env A} (m : @M Env A) : Prop :=
  forall env inp c, outcome_of (m env inp) = Exit c -> explained c (trace_of (m env inp)).

(** The code point a line of the loop gives its verdict on. *)
Definition verdict (m : msg) : option Z :=
  match m with
  | MMissing cp | MReplaced cp | MError cp _ => Some cp
  | _ => None
  end.

(** The code points of the verdicts of a trace, in order. *)
Definition verdicts (tr : list event) : list Z := omap verdict (logs tr).

(** The last six events of a run that saved: the save, the three
    closing lines, the closing of the two fonts. *)
Definition finale (src out : font) (output_path : string) (counts : nat * nat) : list event :=
  [Called (Generate out output_path) (inr tt); Printed MDone;
   Printed (MCounts (fst counts) (snd counts)); Printed (MSaved output_path);
   Called (Close src) (inr tt); Called (Close out) (inr tt)].

(** What a run that ends in the exception [e] died of: its last
    event is a failure that nothing catches, or the import of
    FontForge that failed with [e], or the reading of the source
    font's units per em when the quotient of line 157 raises. *)
Definition died_of (e : exn) (tr : list event) : Prop :=
  exists pre ev,
    tr = pre ++ [ev] /\
    (uncaught ev = Some e \/
     ev = Called ImportFontforge (inl e) \/
     exists f em,
       ev = Called (GetEm f) (inr em) /\ (e = ZeroDivisionError \/ e = OverflowError)).

(** Whenever [m] ends in an exception, the trace tells of what. *)
Definition mourned {Env A} (m : @M Env A) : Prop :=
  forall env inp e, outcome_of (m env inp) = Raise e -> died_of e (trace_of (m env inp)).

(** [m] never ends in an exception. *)
Definition no_raise {Env A} (m : @M Env A) : Prop :=
  forall env inp e, outcome_of (m env inp) <> Raise e.

(** A world in which the look-up of a glyph fails: [cp in font]
    raises, everything else is as in [Mock]. *)
Definition failing_lookup (T : Type) (c : call T) (w : Mock.world) : res T * Mock.world :=
  match c in call T return res T * Mock.world with
  | Contains _ _ => (inl (Error "lookup failed"), w)
  | other => Mock.handle _ other w
  end.

(** A call on a glyph object [f[cp]]: font and code point. *)
Definition glyph_access (ev : event) : option (font * Z) :=
  match ev with
  | Called c _ =>
      match c with
      | IsWorthOutputting f cp | BoundingBox f cp | Transform f cp _
      | GetWidth f cp | GetLsb f cp | GetRsb f cp
      | SetWidth f cp _ | SetLsb f cp _ | SetRsb f cp _ => Some (f, cp)
      | _ => None
      end
  | _ => None
  end.

(** In [tr], a glyph object is only asked for after some font
    answered that it contains the code point. *)
Definition looked_up_first (tr : list event) : Prop :=
  forall pre ev post f cp,
    tr = pre ++ ev :: post ->
    glyph_access ev = Some (f, cp) ->
    exists src, Called (Contains src cp) (inr true) ∈ pre.

(** The font a call clears, and the font a call pastes into. *)
Definition cleared (ev : event) : option font :=
  match ev with
  | Called c _ =>
      match c with
      | Clear f => Some f
      | _ => None
      end
  | _ => None
  end.

Definition pasted (ev : event) : option font :=
  match ev with
  | Called c _ =>
      match c with
      | Paste f => Some f
      | _ => None
      end
  | _ => None
  end.

(** The two calls that leave [cp] alone in the selection of [f]. *)
Definition selects_only (f : font) (cp : Z) : list event :=
  [Called (SelectionNone f) (inr tt); Called (SelectionSelect f cp) (inr tt)].

(** The seven calls of lines 184-190, all gone through: the slot [cp]
    of the output font selected alone and cleared, the slot [cp] of
    the source font selected alone and copied, the slot [cp] of the
    output font selected again. *)
Definition paste_steps (src out : font) (cp : Z) : list event :=
  selects_only out cp ++ [Called (Clear out) (inr tt)] ++
  selects_only src cp ++ [Called (Copy src) (inr tt)] ++
  [Called (SelectionSelect out cp) (inr tt)].

(** In [tr], a font is cleared only right after the slot was selected
    alone in it, and pasted into only right after the seven calls
    before the paste went through. *)
Definition selection_kept (tr : list event) : Prop :=
  forall pre ev post,
    tr = pre ++ ev :: post ->
    (forall f, cleared ev = Some f ->
       exists cp pre', pre = pre' ++ selects_only f cp) /\
    (forall f, pasted ev = Some f ->
       exists src cp pre', pre = pre' ++ paste_steps src f cp).

(** ** The literals of [int]

    What [int(_, 16)] reads, in the words of the language reference:
    white space, a sign, a prefix [0x], hexadecimal digits with single
    underscores between them (one more may follow the prefix), white
    space; everything but the digits may be missing. *)




(** ** The bearings of a replaced glyph *)

(** Lines 207-209 gone through for the slot [cp]: the advance width,
    the left and the right side bearing of the source glyph are read
    and written to the output glyph, one after the other. *)
Definition bearing_steps (src out : font) (cp : Z) (w l r : pynum) (w' l' r' : Z)
  : list event :=
  [Called (GetWidth src cp) (inr w); Called (SetWidth out cp w') (inr tt);
   Called (GetLsb src cp) (inr l); Called (SetLsb out cp l') (inr tt);
   Called (GetRsb src cp) (inr r); Called (SetRsb out cp r') (inr tt)].

(** A line [U+.... replaced.] *)
Definition reports_replaced (ev : event) : bool :=
  match ev with
  | Printed (MReplaced _) => true
  | _ => false
  end.

(** In [tr], a line [U+.... replaced.] comes right after the three
    metrics of that slot were written, each the scaled and rounded
    value of the source glyph. *)
Definition replaced_scaled (src out : font) (scale : pynum) (tr : list event) : Prop :=
  forall pre post cp,
    tr = pre ++ Printed (MReplaced cp) :: post ->
    exists pre' w l r w' l' r',
      pre = pre' ++ bearing_steps src out cp w l r w' l' r' /\
      scaled w scale = inr w' /\ scaled l scale = inr l' /\ scaled r scale = inr r'.

(** ** What a translation does to a measured glyph *)

(** The box of a glyph after [transform(psMat.translate(x, y))]: every
    coordinate is moved by the vector, in float arithmetic. *)
Definition translated (x y : pynum) (b : box) : box := Mock.move (Translate x y) b.

(** A world in which a glyph that was measured and then translated
    measures as the translated box. *)
Definition moves_boxes {Env} (handle : forall T, call T -> Env -> res T * Env) : Prop :=
  forall env f cp b x y,
    fst (handle box (BoundingBox f cp) env) = inr b ->
    let env1 := snd (handle box (BoundingBox f cp) env) in
    fst (handle unit (Transform f cp (Translate x y)) env1) = inr tt ->
    fst (handle box (BoundingBox f cp)
           (snd (handle unit (Transform f cp (Translate x y)) env1)))
    = inr (translated x y b).

(** The floats 12.3 and 650.1, and a world whose output font has at
    U+0041 a glyph with its top at 12.3, and where a pasted glyph has
    its top at 650.1; the two fonts have the same units per em. *)
Definition f_12_3 : spec_float := S754_finite false 6924284427082138 (-49).
Definition f_650_1 : spec_float := S754_finite false 5718340073737421 (-43).

Definition fractional : Mock.world :=
  Mock.World true ["src.ttf"] ["dest.otf"] [] 1000 1000
    [(0x41, (PyInt 1200, PyInt 100, PyInt 90))]
    (Box (Mock.num 0) (Mock.num 0) (Mock.num 500) (PyFloat f_650_1)) [] [] None
    [(0x41, Box (Mock.num 0) (Mock.num 0) (Mock.num 500) (PyFloat f_12_3))].

(** The value of a number in units of [2^e0]; exact for a float whose
    exponent is at least [e0]. *)
Definition in_units (e0 : Z) (x : pynum) : Z :=
  match x with
  | PyInt z => z * 2 ^ (- e0)
  | PyFloat (S754_finite s m e) => (if s then - Z.pos m else Z.pos m) * 2 ^ (e - e0)
  | PyFloat _ => 0
  end.

(** ** Differences without rounding *)

(** A float that can be a coordinate: zero or a finite float in the
    format. *)
Definition coordinate (f : spec_float) : bool :=
  match f with
  | S754_zero _ => true
  | S754_finite _ m e => bounded prec emax m e
  | _ => false
  end.

Definition exponent_of (f : spec_float) : Z :=
  match f with
  | S754_finite _ _ e => e
  | _ => 0
  end.

(** [y] is the difference of [a] and [b] with no rounding: in units
    of the smallest of the three exponents, the three values are whole
    numbers and [y = a - b]. *)
Definition exact_difference (a b y : spec_float) : Prop :=
  let e0 := Z.min (exponent_of a) (Z.min (exponent_of b) (exponent_of y)) in
  coordinate y = true /\
  in_units e0 (PyFloat y) = in_units e0 (PyFloat a) - in_units e0 (PyFloat b).

(** The difference [y] of the tops [a] and [b] was not rounded: the
    tops are two [int]s, or two floats, [a] not zero, that have [y] as
    their difference. *)
Definition unrounded (a b y : pynum) : Prop :=
  match a, b, y with
  | PyInt _, PyInt _, _ => True
  | PyFloat fa, PyFloat fb, PyFloat fy =>
      coordinate fa = true /\ coordinate fb = true /\ is_zero fa = false /\
      exact_difference fa fb fy
  | _, _, _ => False
  end.

(** ** The files of a run *)

(** The output path of line 136, from what the questions settled. *)
Definition plan_output (p : plan) : string :=
  output_path_of output_folder (plan_dest p) (plan_font_name p).

(** [path] is a font file of [folder]: the folder was listed in [tr],
    and the path joins the folder and a listed name that ends in
    [.ttf] or [.otf]. *)
Definition font_of (folder path : string) (tr : list event) : Prop :=
  exists names f,
    Called (ListDir folder) (inr names) ∈ tr /\
    f ∈ names /\ is_font_name f = true /\ path = path_join folder f.

(** [answer] is what was typed at the prompt [p] in [tr], stripped. *)
Definition answered (p : prompt) (answer : string) (tr : list event) : Prop :=
  exists line, Asked p (Some line) ∈ tr /\ answer = strip line.

(** The copy of the destination font and the opening of the two
    fonts, all gone through (lines 137-143). *)
Definition copy_and_open (p : plan) (src out : font) : list event :=
  [Called (Copy2 (plan_dest p) (plan_output p)) (inr tt);
   Called (FFOpen (plan_source p)) (inr src);
   Called (FFOpen (plan_output p)) (inr out)].

(** What is left of a run after the copy when a font does not open:
    the source font fails, or it opens and the output font fails;
    then the line of line 145. *)
Definition open_failure (p : plan) (tr : list event) : Prop :=
  exists e,
    tr = [Called (FFOpen (plan_source p)) (inl e); Printed (MErrorOpening e)] \/
    exists src,
      tr = [Called (FFOpen (plan_source p)) (inr src);
            Called (FFOpen (plan_output p)) (inl e); Printed (MErrorOpening e)].

(* ================================================================== *)
(** * Properties of the string functions *)
(* ================================================================== *)

Section Characters.

(** Facts about single characters are settled by running through the
    256 of them. *)
Ltac each_char c :=
  destruct c as [[] [] [] [] [] [] [] []]; vm_compute; intuition congruence.

Lemma hex_digit_facts c :
  is_hex_digit c = true ->
  is_py_space c = false /\ is_int_space c = false /\
  Ascii.eqb c "_" = false /\ Ascii.eqb c "x" = false /\ Ascii.eqb c "X" = false /\
  c <> "+"%char /\ c <> "-"%char /\
  exists d, digit_value c = Some d /\ (d <? 16) = true.
Proof.
  destruct c as [[] [] [] [] [] [] [] []]; vm_compute; intros H;
    try discriminate H; repeat split; try congruence; eexists; split; reflexivity.
Qed.

Lemma lower_hex_digit c :
  is_hex_digit c = true ->
  is_hex_digit (lower_char c) = true /\ digit_value (lower_char c) = digit_value c.
Proof. each_char c. Qed.

Lemma int_space_is_py_space c : is_int_space c = true -> is_py_space c = true.
Proof. each_char c. Qed.





End Characters.

Section Strings.

Lemma every_impl (p q : ascii -> bool) s :
  (forall c, p c = true -> q c = true) -> every p s = true -> every q s = true.
Proof.
  intros Hpq. induction s as [|c r IH]; simpl; [reflexivity|].
  rewrite !andb_true_iff. intros [Hc Hr]. auto.
Qed.

Lemma every_skip p n s : every p s = true -> every p (skip n s) = true.
Proof.
  revert s. induction n as [|n IH]; intros [|c r]; simpl; auto.
  rewrite andb_true_iff. intros [_ Hr]. auto.
Qed.

Lemma rstrip_id s : every (fun c => negb (is_py_space c)) s = true -> rstrip s = s.
Proof.
  induction s as [|c r IH]; simpl; [reflexivity|].
  rewrite andb_true_iff, negb_true_iff. intros [Hc Hr].
  rewrite (IH Hr). destruct r; [rewrite Hc|]; reflexivity.
Qed.

Lemma lstrip_id s : every (fun c => negb (is_py_space c)) s = true -> lstrip s = s.
Proof.
  destruct s as [|c r]; simpl; [reflexivity|].
  rewrite andb_true_iff, negb_true_iff. intros [-> _]. reflexivity.
Qed.

Lemma strip_id s : every (fun c => negb (is_py_space c)) s = true -> strip s = s.
Proof. intros H. unfold strip. rewrite (lstrip_id _ H). apply rstrip_id, H. Qed.





Lemma lower_hex s :
  every is_hex_digit s = true ->
  every is_hex_digit (lower s) = true /\ forall acc, horner 16 acc (lower s) = horner 16 acc s.
Proof.
  induction s as [|c r IH]; simpl; [auto|].
  rewrite andb_true_iff. intros [Hc Hr].
  destruct (lower_hex_digit c Hc) as [Hl Hv]. destruct (IH Hr) as [IH1 IH2].
  rewrite Hl, IH1, Hv. auto.
Qed.

Lemma truthy_lower s : truthy (lower s) = truthy s.
Proof. destruct s; reflexivity. Qed.

Lemma hex_not_space s :
  every is_hex_digit s = true -> every (fun c => negb (is_py_space c)) s = true.
Proof.
  apply every_impl. intros c Hc. destruct (hex_digit_facts c Hc) as [-> _]. reflexivity.
Qed.

(** ** [int(_, 16)] on digits *)

Lemma scan_hex s : forall seen acc,
  every is_hex_digit s = true ->
  scan_digits 16 false seen acc s = Some (horner 16 acc s, seen || truthy s, EmptyString).
Proof.
  induction s as [|c r IH]; intros seen acc; simpl.
  - intros _. rewrite orb_false_r. reflexivity.
  - rewrite andb_true_iff. intros [Hc Hr].
    destruct (hex_digit_facts c Hc) as (_ & _ & -> & _ & _ & _ & _ & d & -> & ->).
    rewrite (IH true _ Hr). simpl. rewrite orb_true_r. reflexivity.
Qed.

Lemma py_int_hex s :
  every is_hex_digit s = true -> truthy s = true -> py_int 16 s = Some (hex_value s).
Proof.
  intros Hs Hne. destruct s as [|c r]; [discriminate|].
  pose proof Hs as Hs'. simpl in Hs'. rewrite andb_true_iff in Hs'. destruct Hs' as [Hc Hr].
  destruct (hex_digit_facts c Hc) as (_ & Hsp & Hus & _ & _ & Hplus & Hminus & _).
  unfold py_int. simpl skip_int_space. rewrite Hsp.
  assert (Hsign : read_sign (String c r) = (false, String c r)).
  { unfold read_sign. destruct c as [[] [] [] [] [] [] [] []]; try reflexivity; congruence. }
  rewrite Hsign.
  assert (Hpre : skip_radix_prefix 16 (String c r) = String c r).
  { unfold skip_radix_prefix. destruct r as [|x r']; [destruct c as [[] [] [] [] [] [] [] []]; reflexivity|].
    simpl in Hr. rewrite andb_true_iff in Hr. destruct Hr as [Hx _].
    destruct (hex_digit_facts x Hx) as (_ & _ & _ & -> & -> & _).
    destruct c as [[] [] [] [] [] [] [] []]; reflexivity. }
  rewrite Hpre.
  assert (Hst : startswith "_" (String c r) = false).
  { simpl. rewrite Hus. reflexivity. }
  rewrite Hst, (scan_hex _ false 0 Hs). reflexivity.
Qed.

End Strings.

Section ParseHexInt.

Lemma digit_value_nonneg c d : digit_value c = Some d -> 0 <= d.
Proof.
  unfold digit_value, between.
  repeat match goal with
         | |- context [?a <=? ?b] => destruct (Z.leb_spec a b)
         end; simpl; intros Heq; inversion Heq; lia.
Qed.

Lemma horner_nonneg s : forall acc, 0 <= acc -> 0 <= horner 16 acc s.
Proof.
  induction s as [|c r IH]; intros acc Hacc; simpl; [exact Hacc|].
  apply IH. destruct (digit_value c) as [d|] eqn:Hd; simpl; [|lia].
  apply digit_value_nonneg in Hd. lia.
Qed.

Lemma hex_no_prefix t : every is_hex_digit t = true -> startswith "0x" t = false.
Proof.
  destruct t as [|c0 [|c1 r]]; simpl; try reflexivity.
  - intros _. apply andb_false_r.
  - rewrite !andb_true_iff. intros (_ & H1 & _).
    destruct (hex_digit_facts c1 H1) as (_ & _ & _ & -> & _). apply andb_false_r.
Qed.

(** On a plain hexadecimal body, the three steps before [int] change
    nothing but the case. *)
Lemma clean_plain_hex body :
  every is_hex_digit body = true -> truthy body = true ->
  match py_int 16 (lower body) with
  | Some val => if (0 <=? val) && (val <=? 0x10FFFF) then Some val else None
  | None => None
  end = (if hex_value body <=? 0x10FFFF then Some (hex_value body) else None).
Proof.
  intros Hb Hne. destruct (lower_hex body Hb) as [Hl Hv].
  rewrite (py_int_hex _ Hl) by (rewrite truthy_lower; exact Hne).
  unfold hex_value. rewrite Hv.
  pose proof (horner_nonneg body 0 (Z.le_refl 0)) as Hpos.
  destruct (Z.leb_spec 0 (horner 16 0 body)); [reflexivity|lia].
Qed.

Lemma parse_plain_hex s : plain_hex s = true -> parse_hex_int s = spec_parse_hex_int s.
Proof.
  intros H. unfold spec_parse_hex_int. rewrite H.
  unfold plain_hex, hex_body in H. rewrite andb_true_iff in H. destruct H as [Hne Hb].
  unfold hex_body, parse_hex_int.
  destruct (startswith "0x" s || startswith "0X" s) eqn:Hpre.
  - (* a prefix, in either case *)
    destruct s as [|c0 [|c1 body]]; simpl in Hpre; rewrite ?andb_false_r in Hpre;
      try discriminate Hpre.
    simpl in Hne, Hb.
    assert (Hc0 : c0 = "0"%char).
    { destruct (Ascii.eqb_spec c0 "0"); [assumption|discriminate Hpre]. }
    assert (Hc1 : lower_char c1 = "x"%char /\ is_py_space c1 = false).
    { subst c0. rewrite !andb_true_r in Hpre. simpl in Hpre.
      destruct (Ascii.eqb_spec c1 "x"); [subst; split; reflexivity|].
      destruct (Ascii.eqb_spec c1 "X"); [subst; split; reflexivity|discriminate Hpre]. }
    destruct Hc1 as [Hlow Hsp]. subst c0.
    rewrite (strip_id (String "0" (String c1 body))).
    2:{ simpl. rewrite Hsp. simpl. apply hex_not_space, Hb. }
    change (lower (String "0" (String c1 body)))
      with (String "0" (String (lower_char c1) (lower body))).
    rewrite Hlow.
    change (startswith "0x" (String "0" (String "x" (lower body)))) with true.
    cbv iota.
    change (skip 2 (String "0" (String "x" (lower body)))) with (lower body).
    change (skip 2 (String "0" (String c1 body))) with body.
    rewrite truthy_lower, Hne. simpl negb. cbv iota.
    apply clean_plain_hex; assumption.
  - rewrite (strip_id s) by (apply hex_not_space, Hb).
    rewrite (hex_no_prefix (lower s)) by (apply lower_hex, Hb).
    rewrite truthy_lower, Hne. simpl negb. cbv iota.
    apply clean_plain_hex; assumption.
Qed.

Lemma parse_hex_int_range s v : parse_hex_int s = Some v -> 0 <= v <= 0x10FFFF.
Proof.
  unfold parse_hex_int.
  destruct (negb _); [discriminate|].
  destruct (py_int 16 _) as [val|]; [|discriminate].
  destruct (Z.leb_spec 0 val), (Z.leb_spec val 0x10FFFF); simpl; intros Heq; inversion Heq;
    subst; lia.
Qed.

(** ** Only readable characters get through [int] *)









End ParseHexInt.

(* ================================================================== *)
(** * Properties of the code point collection *)
(* ================================================================== *)

Section Codepoints.

Context {Env : Type} (handle : forall T, call T -> Env -> res T * Env).

Lemma elem_of_foldl_add (l : list Z) : forall (X : gset Z) cp,
  cp ∈ foldl (fun s c => {[c]} ∪ s) X l <-> cp ∈ X \/ cp ∈ l.
Proof.
  induction l as [|c l IH]; intros X cp; simpl.
  - set_solver.
  - rewrite IH. set_solver.
Qed.

Lemma elem_of_add_range a b (X : gset Z) cp :
  cp ∈ add_range a b X <-> cp ∈ X \/ a <= cp <= b.
Proof.
  unfold add_range. rewrite elem_of_foldl_add, elem_of_seqZ.
  split; (intros [H|H]; [left; exact H|right; lia]).
Qed.

Lemma elem_of_range_codepoints start_s end_s cp :
  cp ∈ range_codepoints start_s end_s <->
  truthy start_s = true /\ truthy end_s = true /\
  exists start_cp end_cp,
    parse_hex_int start_s = Some start_cp /\ parse_hex_int end_s = Some end_cp /\
    start_cp <= cp <= end_cp.
Proof.
  unfold range_codepoints, range_of.
  destruct (truthy start_s); simpl; [|rewrite elem_of_empty; intuition discriminate].
  destruct (truthy end_s); simpl; [|rewrite elem_of_empty; intuition discriminate].
  destruct (parse_hex_int start_s) as [a|];
    [|rewrite elem_of_empty; split; [tauto|intros (_ & _ & ? & ? & ? & _); discriminate]].
  destruct (parse_hex_int end_s) as [b|];
    [|rewrite elem_of_empty; split; [tauto|intros (_ & _ & ? & ? & _ & ? & _); discriminate]].
  destruct (Z.geb_spec b a) as [Hge|Hlt].
  - rewrite elem_of_add_range, elem_of_empty. split.
    + intros [[]|H]. repeat split; auto. exists a, b. auto.
    + intros (_ & _ & a' & b' & Ha & Hb & H). inversion Ha; inversion Hb; subst. auto.
  - rewrite elem_of_empty. split; [tauto|].
    intros (_ & _ & a' & b' & Ha & Hb & H). inversion Ha; inversion Hb; subst. lia.
Qed.

(** ** [sorted] *)

Lemma sorted_perm (X : gset Z) : sorted X ≡ₚ elements X.
Proof. apply merge_sort_Permutation. Qed.

Lemma elem_of_sorted (X : gset Z) cp : cp ∈ sorted X <-> cp ∈ X.
Proof. rewrite sorted_perm. apply elem_of_elements. Qed.

Lemma NoDup_sorted (X : gset Z) : NoDup (sorted X).
Proof. rewrite sorted_perm. apply NoDup_elements. Qed.

Lemma strictly_ascending (l : list Z) :
  StronglySorted Z.le l -> NoDup l -> StronglySorted Z.lt l.
Proof.
  induction 1 as [|x l Hl IH Hx]; intros Hnd; constructor.
  - apply IH. eapply NoDup_cons_1_2, Hnd.
  - apply NoDup_cons in Hnd. destruct Hnd as [Hnotin _].
    rewrite Forall_forall in Hx |- *. intros y Hy.
    assert (x <> y) by (intros ->; apply Hnotin, Hy).
    specialize (Hx y Hy). lia.
Qed.

Lemma sorted_ascending (X : gset Z) : StronglySorted Z.lt (sorted X).
Proof.
  apply strictly_ascending; [|apply NoDup_sorted].
  apply Sorted_StronglySorted; [intros x y z; apply Z.le_trans|].
  apply (Sorted_merge_sort Z.le).
Qed.

End Codepoints.

(* ================================================================== *)
(** * Runs of the script: general facts *)
(* ================================================================== *)

Create HintDb fonty.

#[local] Hint Unfold read_range add_specific read_specific collect_codepoints
  read_metadata find_font_files choose_file select_fonts open_fonts set_metadata
  compute_scale choose_alignment has_glyph old_bounds clear_and_paste align_y
  copy_bearings replace_glyph transfer_glyph transfer_loop
  save_and_close transfer_and_save transplant prepare main import_guard script
  : fonty.

Section Runs.

Context {Env : Type} (handle : forall T, call T -> Env -> res T * Env).

#[local] Existing Instance M_ret.
#[local] Existing Instance M_bind.

Local Abbreviation M := (@M Env).

Lemma bind_run {A B} (m : M A) (k : A -> M B) env inp :
  (m ≫= k) env inp =
  match outcome_of (m env inp) with
  | Ok a => after (m env inp) (k a (env_of (m env inp)) (stdin_of (m env inp)))
  | Raise e => stop (Raise e) (m env inp)
  | Exit c => stop (Exit c) (m env inp)
  end.
Proof. reflexivity. Qed.

Lemma trace_bind {A B} (m : M A) (k : A -> M B) env inp :
  trace_of ((m ≫= k) env inp) =
  trace_of (m env inp) ++
  match outcome_of (m env inp) with
  | Ok a => trace_of (k a (env_of (m env inp)) (stdin_of (m env inp)))
  | _ => []
  end.
Proof.
  rewrite bind_run. destruct (outcome_of (m env inp)); simpl; rewrite ?app_nil_r; reflexivity.
Qed.

Lemma outcome_bind {A B} (m : M A) (k : A -> M B) env inp :
  outcome_of ((m ≫= k) env inp) =
  match outcome_of (m env inp) with
  | Ok a => outcome_of (k a (env_of (m env inp)) (stdin_of (m env inp)))
  | Raise e => Raise e
  | Exit c => Exit c
  end.
Proof. rewrite bind_run. destruct (outcome_of (m env inp)); reflexivity. Qed.

Lemma try_run {A} (m : M A) (h : exn -> M A) env inp :
  try_except m h env inp =
  match outcome_of (m env inp) with
  | Raise e => after (m env inp) (h e (env_of (m env inp)) (stdin_of (m env inp)))
  | _ => m env inp
  end.
Proof. reflexivity. Qed.

Lemma perform_run {T} (c : call T) env inp :
  perform handle c env inp =
  Result (match fst (handle T c env) with inr v => Ok v | inl e => Raise e end)
         (snd (handle T c env)) inp [Called c (fst (handle T c env))].
Proof. unfold perform. destruct (handle T c env). reflexivity. Qed.

(** ** Properties of all traces *)

Lemma closed_Forall (Q : event -> Prop) : closed (Forall Q).
Proof. split; [constructor|]. intros a b Ha Hb. apply Forall_app. auto. Qed.

Section Closed.

Variable P : list event -> Prop.
Hypothesis HP : closed P.

Lemma traces_ret {A} (a : A) : traces P (mret a : M A).
Proof. intros env inp. apply HP. Qed.

Lemma traces_raise {A} e : traces P (raise e : M A).
Proof. intros env inp. apply HP. Qed.

Lemma traces_exit {A} c : traces P (sys_exit c : M A).
Proof. intros env inp. apply HP. Qed.

Lemma traces_lift {A} (x : res A) : traces P (lift x : M A).
Proof. destruct x; [apply traces_raise|apply traces_ret]. Qed.

Lemma traces_bind {A B} (m : M A) (k : A -> M B) :
  traces P m -> (forall a, traces P (k a)) -> traces P (m ≫= k).
Proof.
  intros Hm Hk env inp. rewrite trace_bind. apply HP; [apply Hm|].
  destruct (outcome_of (m env inp)); [apply Hk|apply HP|apply HP].
Qed.

Lemma traces_try {A} (m : M A) (h : exn -> M A) :
  traces P m -> (forall e, traces P (h e)) -> traces P (try_except m h).
Proof.
  intros Hm Hh env inp. rewrite try_run.
  destruct (outcome_of (m env inp)); [apply Hm| |apply Hm].
  simpl. apply HP; [apply Hm|apply Hh].
Qed.

Lemma traces_perform {T} (c : call T) :
  (forall r, P [Called c r]) -> traces P (perform handle c).
Proof. intros H env inp. rewrite perform_run. apply H. Qed.

Lemma traces_print m : P [Printed m] -> traces P (print m : M unit).
Proof. intros H env inp. exact H. Qed.

Lemma traces_input p : (forall l, P [Asked p l]) -> traces P (input p : M string).
Proof. intros H env [|line rest]; apply H. Qed.

Lemma traces_for_each {A S} (l : list A) (body : A -> S -> M S) :
  (forall x s, traces P (body x s)) -> forall s, traces P (for_each l body s).
Proof.
  intros Hb. induction l as [|x l IH]; intros s; simpl.
  - apply traces_ret.
  - apply traces_bind; [apply Hb|apply IH].
Qed.

Lemma traces_ask p complaint :
  (forall l, P [Asked p l]) -> P [Printed complaint] ->
  traces P (ask_until_given p complaint : M string).
Proof.
  intros Ha Hc env inp. induction inp as [|line rest IH]; simpl.
  - apply Ha.
  - destruct (truthy (strip line)); simpl; [apply Ha|].
    change (P (([Asked p (Some line)] ++ [Printed complaint]) ++
               trace_of (ask_until_given p complaint env rest))).
    apply HP; [apply HP; [apply Ha|apply Hc]|apply IH].
Qed.

End Closed.

(** ** Pieces that never call [sys.exit] *)

Lemma no_exit_ret {A} (a : A) : no_exit (mret a : M A).
Proof. intros env inp c. discriminate. Qed.

Lemma no_exit_raise {A} e : no_exit (raise e : M A).
Proof. intros env inp c. discriminate. Qed.

Lemma no_exit_lift {A} (x : res A) : no_exit (lift x : M A).
Proof. destruct x; [apply no_exit_raise|apply no_exit_ret]. Qed.

Lemma no_exit_perform {T} (c : call T) : no_exit (perform handle c).
Proof. intros env inp x. rewrite perform_run. simpl. destruct (fst _); discriminate. Qed.

Lemma no_exit_print m : no_exit (print m : M unit).
Proof. intros env inp c. discriminate. Qed.

Lemma no_exit_input p : no_exit (input p : M string).
Proof. intros env [|line rest] c; discriminate. Qed.

Lemma no_exit_bind {A B} (m : M A) (k : A -> M B) :
  no_exit m -> (forall a, no_exit (k a)) -> no_exit (m ≫= k).
Proof.
  intros Hm Hk env inp c. rewrite outcome_bind.
  destruct (outcome_of (m env inp)) eqn:Ho; [apply Hk|discriminate|].
  exfalso. eapply Hm, Ho.
Qed.

Lemma no_exit_for_each {A S} (l : list A) (body : A -> S -> M S) :
  (forall x s, no_exit (body x s)) -> forall s, no_exit (for_each l body s).
Proof.
  intros Hb. induction l as [|x l IH]; intros s; simpl.
  - apply no_exit_ret.
  - apply no_exit_bind; [apply Hb|apply IH].
Qed.

Lemma no_exit_try {A} (m : M A) (h : exn -> M A) :
  no_exit m -> (forall e, no_exit (h e)) -> no_exit (try_except m h).
Proof.
  intros Hm Hh env inp c. rewrite try_run.
  destruct (outcome_of (m env inp)) eqn:Ho; [rewrite Ho; discriminate|apply Hh|].
  exfalso. eapply Hm, Ho.
Qed.

End Runs.

(** Going through a piece of script, one rule per construct. *)
(** A place for rules about pieces that are taken as a whole. *)
Ltac walk_whole := fail.

Ltac walk_step :=
  match goal with
  | |- _ => walk_whole
  | |- traces _ (mret _) => apply traces_ret; [assumption]
  | |- traces _ (raise _) => apply traces_raise; [assumption]
  | |- traces _ (sys_exit _) => apply traces_exit; [assumption]
  | |- traces _ (lift _) => apply traces_lift; [assumption]
  | |- traces _ (_ ≫= _) => apply traces_bind; [assumption| |intros ?]
  | |- traces _ (try_except _ _) => apply traces_try; [assumption| |intros ?]
  | |- traces _ (perform _ _) => apply traces_perform; intros ?
  | |- traces _ (print _) => apply traces_print
  | |- traces _ (input _) => apply traces_input; intros ?
  | |- traces _ (for_each _ _ _) => apply traces_for_each; [assumption|intros ? ?; cbv beta]
  | |- traces _ (ask_until_given _ _) => apply traces_ask; [assumption|intros ?|]
  | |- traces _ (match ?x with _ => _ end) => destruct x
  | |- traces _ (let _ := _ in _) => cbv zeta
  | |- traces _ (assign_scaled _ _ _ _) => unfold assign_scaled
  | |- no_exit (mret _) => apply no_exit_ret
  | |- no_exit (lift _) => apply no_exit_lift
  | |- no_exit (perform _ _) => apply no_exit_perform
  | |- no_exit (print _) => apply no_exit_print
  | |- no_exit (input _) => apply no_exit_input
  | |- no_exit (for_each _ _ _) => apply no_exit_for_each; intros ? ?; cbv beta
  | |- no_exit (_ ≫= _) => apply no_exit_bind; [|intros ?]
  | |- no_exit (try_except _ _) => apply no_exit_try; [|intros ?]
  | |- no_exit (match ?x with _ => _ end) => destruct x
  | |- no_exit (assign_scaled _ _ _ _) => unfold assign_scaled
  end.

Ltac walk := autounfold with fonty; repeat walk_step.

(* ================================================================== *)
(** * Runs of the script: the pieces *)
(* ================================================================== *)

Section Pieces.

Context {Env : Type} (handle : forall T, call T -> Env -> res T * Env).

#[local] Existing Instance M_ret.
#[local] Existing Instance M_bind.

Ltac leaf :=
  repeat constructor;
  cbv [confined quiet harmless names_only is_source_check font_written saved copied
       opened_as reaches_output slot_of printed silent bearing_write keeps_bearings
       reads_em untouched missing_only translation_of stays_put reports_no_fonts
       reports_open_error idle negb andb];
  rewrite ?Nat.eqb_refl, ?String.eqb_refl, ?Z.eqb_refl; reflexivity.

Ltac all_events Q :=
  let HP := fresh "HP" in
  pose proof (closed_Forall (fun ev => Q ev = true)) as HP; walk; leaf.

(** The answer of the world to the next call, by cases. *)
Ltac answer :=
  match goal with
  | |- context [handle ?T ?c ?env] =>
      let env' := fresh "env" in
      destruct (handle T c env) as [[?|?] env']; simpl
  end.

(** ** Before the copy: nothing reaches the output *)

Lemma import_guard_quiet : traces (Forall (fun ev => quiet ev = true)) (import_guard handle).
Proof. all_events quiet. Qed.

Lemma prepare_quiet : traces (Forall (fun ev => quiet ev = true)) (prepare handle).
Proof. all_events quiet. Qed.

Lemma open_fonts_harmless source_path output_path :
  traces (Forall (fun ev => harmless ev = true)) (open_fonts handle source_path output_path).
Proof. all_events harmless. Qed.

(** ** After the fonts are open: everything stays with the output font *)

Lemma transplant_confined cps name author license output_path src_font out_font :
  traces (Forall (fun ev => confined out_font output_path ev = true))
    (transplant handle cps name author license output_path src_font out_font).
Proof. all_events (confined out_font output_path). Qed.

(** ** The check of a glyph *)

Lemma has_glyph_cases f cp env inp :
  let r := has_glyph handle f cp env inp in
  stdin_of r = inp /\
  ((outcome_of r = Ok false /\
    (trace_of r = [Called (Contains f cp) (inr false)] \/
     trace_of r = [Called (Contains f cp) (inr true);
                   Called (IsWorthOutputting f cp) (inr false)])) \/
   (outcome_of r = Ok true /\
    trace_of r = [Called (Contains f cp) (inr true);
                  Called (IsWorthOutputting f cp) (inr true)]) \/
   (exists e, outcome_of r = Raise e)).
Proof.
  unfold has_glyph. rewrite bind_run, perform_run.
  destruct (handle bool (Contains f cp) env) as [[e|[]] env1]; simpl; eauto 6.
  rewrite perform_run.
  destruct (handle bool (IsWorthOutputting f cp) env1) as [[e|[]] env2]; simpl; eauto 8.
Qed.

Lemma has_glyph_checks f cp :
  traces (Forall (fun ev => is_source_check f cp ev = true)) (has_glyph handle f cp).
Proof. all_events (is_source_check f cp). Qed.

Lemma has_glyph_silent f cp :
  traces (Forall (fun ev => silent ev = true)) (has_glyph handle f cp).
Proof. all_events silent. Qed.

Lemma replace_glyph_silent src out scale align cp :
  traces (Forall (fun ev => silent ev = true)) (replace_glyph handle src out scale align cp).
Proof. all_events silent. Qed.

Lemma replace_glyph_names src out scale align cp :
  traces (Forall (fun ev => names_only cp ev = true)) (replace_glyph handle src out scale align cp).
Proof. all_events (names_only cp). Qed.

Lemma has_glyph_no_exit f cp : no_exit (has_glyph handle f cp).
Proof. walk. Qed.

Lemma replace_glyph_no_exit src out scale align cp :
  no_exit (replace_glyph handle src out scale align cp).
Proof. walk. Qed.

(** ** One turn of the loop *)

(** The four ways a turn can go: the glyph is missing, it is replaced,
    the check itself raises, or something raises after the check. *)
Lemma transfer_glyph_cases src out scale align cp r s env inp :
  let chk := has_glyph handle src cp env inp in
  let body := replace_glyph handle src out scale align cp (env_of chk) (stdin_of chk) in
  let turn := transfer_glyph handle src out scale align cp (r, s) env inp in
  (outcome_of chk = Ok false /\
   turn = Result (Ok (r, S s)) (env_of chk) (stdin_of chk)
            (trace_of chk ++ [Printed (MMissing cp)])) \/
  (outcome_of chk = Ok true /\ outcome_of body = Ok tt /\
   turn = Result (Ok (S r, s)) (env_of body) (stdin_of body)
            (trace_of chk ++ trace_of body ++ [Printed (MReplaced cp)])) \/
  (exists e, outcome_of chk = Raise e /\
   turn = Result (Ok (r, s)) (env_of chk) (stdin_of chk)
            (trace_of chk ++ [Printed (MError cp e); Printed (MTraceback e)])) \/
  (exists e, outcome_of chk = Ok true /\ outcome_of body = Raise e /\
   turn = Result (Ok (r, s)) (env_of body) (stdin_of body)
            (trace_of chk ++ trace_of body ++ [Printed (MError cp e); Printed (MTraceback e)])).
Proof.
  intros chk body turn. subst turn. unfold transfer_glyph.
  rewrite try_run, bind_run. fold chk.
  destruct (outcome_of chk) as [[]|e|c] eqn:Hchk.
  - (* the glyph is there *)
    cbn [negb]. rewrite bind_run. fold body.
    destruct (outcome_of body) as [[]|e|c] eqn:Hbody.
    + right; left. repeat split; unfold after; simpl; rewrite <- ?app_assoc; reflexivity.
    + right; right; right. exists e.
      repeat split; unfold after, stop; simpl; rewrite <- ?app_assoc; reflexivity.
    + exfalso. eapply replace_glyph_no_exit, Hbody.
  - left. split; reflexivity.
  - right; right; left. exists e. split; reflexivity.
  - exfalso. eapply has_glyph_no_exit, Hchk.
Qed.

Lemma transfer_glyph_names src out scale align cp counts :
  traces (Forall (fun ev => names_only cp ev = true))
    (transfer_glyph handle src out scale align cp counts).
Proof. destruct counts. all_events (names_only cp). Qed.


(** ** The loop *)

Lemma logs_app a b : logs (a ++ b) = logs a ++ logs b.
Proof. apply omap_app. Qed.

Lemma logs_silent tr : Forall (fun ev => silent ev = true) tr -> logs tr = [].
Proof.
  induction 1 as [|ev tr Hev _ IH]; [reflexivity|].
  unfold logs in *. simpl. unfold silent in Hev. destruct (printed ev); [discriminate|exact IH].
Qed.

Lemma count_app p a b : (count p (a ++ b) = count p a + count p b)%nat.
Proof. unfold count. rewrite logs_app, List.filter_app, length_app. reflexivity. Qed.

Lemma count_silent p tr : Forall (fun ev => silent ev = true) tr -> count p tr = O.
Proof. intros H. unfold count. rewrite (logs_silent _ H). reflexivity. Qed.

Lemma count_print p m tr :
  count p (Printed m :: tr) = ((if p m then 1 else 0) + count p tr)%nat.
Proof. unfold count, logs. simpl. destruct (p m); reflexivity. Qed.

Lemma count_nil p : count p [] = O.
Proof. reflexivity. Qed.

(** The loop always comes to its end, and its two counters are the
    numbers of lines it printed. *)
Lemma loop_counts src out scale align cps : forall r s env inp,
  let res := for_each cps (transfer_glyph handle src out scale align) (r, s) env inp in
  exists r' s',
    outcome_of res = Ok (r', s') /\
    (r' = r + count is_replaced (trace_of res))%nat /\
    (s' = s + count is_missing (trace_of res))%nat /\
    (r' + s' + count is_error (trace_of res) = r + s + length cps)%nat.
Proof.
  induction cps as [|cp cps IH]; intros r s env inp; cbv zeta; cbn [for_each].
  - exists r, s. cbv [mret M_ret trace_of outcome_of]. rewrite !count_nil.
    repeat split; lia.
  - rewrite bind_run.
    pose proof (has_glyph_silent src cp env inp) as Hchk.
    set (chk := has_glyph handle src cp env inp) in *.
    pose proof (replace_glyph_silent src out scale align cp (env_of chk) (stdin_of chk))
      as Hbody.
    destruct (transfer_glyph_cases src out scale align cp r s env inp)
      as [(_ & ->)|[(_ & _ & ->)|[(e & _ & ->)|(e & _ & _ & ->)]]];
      fold chk in Hbody |- *;
      set (body := replace_glyph handle src out scale align cp (env_of chk) (stdin_of chk)) in *;
      cbn [outcome_of env_of stdin_of];
      match goal with
      | |- context [for_each cps ?b (?r1, ?s1) ?env1 ?inp1] =>
          destruct (IH r1 s1 env1 inp1) as (r' & s' & Ho & Hr & Hs & Hsum)
      end;
      exists r', s'; unfold after; cbn [outcome_of trace_of];
      rewrite !count_app, ?(count_silent _ _ Hchk), ?(count_silent _ _ Hbody);
      (split; [exact Ho|]); rewrite ?count_print, ?count_nil; simpl; lia.
Qed.



Lemma loop_names src out scale align cps : forall counts env inp,
  Forall (fun ev => forall x, slot_of ev = Some x -> x ∈ cps)
    (trace_of (for_each cps (transfer_glyph handle src out scale align) counts env inp)).
Proof.
  induction cps as [|c cps IH]; intros counts env inp; cbn [for_each].
  - constructor.
  - rewrite trace_bind. apply Forall_app. split.
    + eapply Forall_impl; [apply transfer_glyph_names|].
      intros ev Hev x Hx. unfold names_only in Hev. rewrite Hx in Hev.
      apply Z.eqb_eq in Hev. subst. left.
    + destruct (outcome_of _); [|constructor|constructor].
      eapply Forall_impl; [apply IH|]. intros ev Hev x Hx. right. auto.
Qed.





(** ** The scaled metrics *)

Lemma split_skip {X} (Q : X -> Prop) (a b pre : list X) ev post :
  a ++ b = pre ++ ev :: post -> Forall Q a -> ~ Q ev ->
  exists pre', pre = a ++ pre' /\ b = pre' ++ ev :: post.
Proof.
  revert pre. induction a as [|x a IH]; intros pre Heq Ha Hev.
  - exists pre. auto.
  - apply Forall_cons in Ha. destruct Ha as [Hx Ha].
    destruct pre as [|y pre]; simpl in Heq; inversion Heq; subst.
    + contradiction.
    + destruct (IH pre H1 Ha Hev) as (pre' & -> & ->). exists pre'. auto.
Qed.

Lemma bearings_scaled_closed src out scale : closed (bearings_scaled src out scale).
Proof.
  split.
  - intros [|? ?] ev post m f cp v H; discriminate H.
  - intros a b Ha Hb pre ev post m f cp v Heq Hw.
    destruct (app_eq_app _ _ _ _ Heq) as (l & [(Hl & Hr)|(Hl & Hr)]).
    + destruct l as [|x l].
      * simpl in Hr. destruct (Hb [] ev post m f cp v (eq_sym Hr) Hw) as (_ & [|? ?] & ? & ? & H & _);
          discriminate H.
      * simpl in Hr. inversion Hr; subst. eapply Ha; [|exact Hw]. reflexivity.
    + destruct (Hb l ev post m f cp v Hr Hw) as (Hf & pre' & rd & w & -> & Hrd & Hv).
      split; [exact Hf|]. exists (a ++ pre'), rd, w. subst pre. rewrite app_assoc. auto.
Qed.

Lemma bearings_scaled_kept src out scale tr :
  Forall (fun ev => keeps_bearings ev = true) tr -> bearings_scaled src out scale tr.
Proof.
  intros H pre ev post m f cp v -> Hw. rewrite Forall_forall in H.
  assert (ev ∈ pre ++ ev :: post) as Hin by (rewrite elem_of_app, elem_of_cons; auto).
  apply H in Hin. unfold keeps_bearings in Hin. rewrite Hw in Hin. discriminate.
Qed.

Lemma assign_scaled_scaled src out scale cp m (get : call pynum) (set : Z -> call unit) :
  (forall r, bearing_write (Called get r) = None) ->
  (forall w, bearing_read (Called get (inr w)) = Some (m, src, cp, w)) ->
  (forall v r, bearing_write (Called (set v) r) = Some (m, out, cp, v)) ->
  traces (bearings_scaled src out scale) (assign_scaled handle get set scale).
Proof.
  intros Hget Hread Hset env inp. unfold assign_scaled.
  rewrite bind_run, perform_run.
  destruct (handle pynum get env) as [[e|w] env1]; cbn [fst snd outcome_of].
  - apply bearings_scaled_kept. repeat constructor. unfold keeps_bearings.
    rewrite Hget. reflexivity.
  - unfold after. cbn [trace_of]. rewrite bind_run.
    destruct (scaled w scale) as [e|v] eqn:Hv; cbn [lift outcome_of].
    + cbn. apply bearings_scaled_kept. repeat constructor. unfold keeps_bearings.
      rewrite Hget. reflexivity.
    + cbn [mret M_ret outcome_of after trace_of env_of stdin_of]. rewrite perform_run.
      cbn [trace_of app].
      intros pre ev post m' f cp' v' Heq Hw.
      destruct pre as [|x [|y pre]]; simpl in Heq; inversion Heq; subst.
      * rewrite Hget in Hw. discriminate.
      * rewrite Hset in Hw. inversion Hw; subst. split; [reflexivity|].
        exists [], (Called get (inr w)), w. auto.
      * destruct pre; discriminate.
Qed.

Ltac walk_whole ::=
  match goal with
  | |- traces (bearings_scaled _ _ _) (assign_scaled _ _ _ _) =>
      eapply assign_scaled_scaled; intros; reflexivity
  end.

Lemma transfer_and_save_scaled src out scale align cps output_path :
  traces (bearings_scaled src out scale)
    (transfer_and_save handle src out scale align cps output_path).
Proof.
  pose proof (bearings_scaled_closed src out scale) as HP.
  walk; try (destruct s); walk; (apply bearings_scaled_kept; repeat constructor).
Qed.

Ltac walk_whole ::= fail.


(** ** The scale factor *)

Lemma compute_scale_ok src out env inp scale :
  outcome_of (compute_scale handle src out env inp) = Ok scale ->
  exists a b,
    py_truediv a b = inr scale /\
    trace_of (compute_scale handle src out env inp) =
      [Called (GetEm out) (inr a); Called (GetEm src) (inr b); Printed (MScale scale)].
Proof.
  unfold compute_scale. rewrite bind_run, perform_run.
  destruct (handle pynum (GetEm out) env) as [[e|a] env1]; simpl; [discriminate|].
  rewrite bind_run, perform_run.
  destruct (handle pynum (GetEm src) env1) as [[e|b] env2]; simpl; [discriminate|].
  rewrite bind_run.
  destruct (py_truediv a b) as [e|s] eqn:Hdiv; simpl; [discriminate|].
  intros H. inversion H; subst. exists a, b. auto.
Qed.

Lemma compute_scale_reads src out env inp :
  (length (List.filter reads_em (trace_of (compute_scale handle src out env inp))) <= 2)%nat.
Proof.
  unfold compute_scale. rewrite bind_run, perform_run.
  destruct (handle pynum (GetEm out) env) as [[e|a] env1]; simpl; [lia|].
  rewrite bind_run, perform_run.
  destruct (handle pynum (GetEm src) env1) as [[e|b] env2]; simpl; [lia|].
  rewrite bind_run.
  destruct (py_truediv a b) as [e|s]; simpl; lia.
Qed.

Lemma no_reads tr :
  Forall (fun ev => reads_em ev = false) tr -> List.filter reads_em tr = [].
Proof.
  induction 1 as [|ev tr Hev _ IH]; [reflexivity|]. simpl. rewrite Hev. exact IH.
Qed.

Ltac all_without Q :=
  let HP := fresh "HP" in
  pose proof (closed_Forall (fun ev => Q ev = false)) as HP; walk; leaf.

Lemma set_metadata_no_reads out name author license :
  traces (Forall (fun ev => reads_em ev = false)) (set_metadata handle out name author license).
Proof. all_without reads_em. Qed.

Lemma after_scale_no_reads src out scale cps output_path :
  traces (Forall (fun ev => reads_em ev = false))
    (choose_alignment ≫= fun align =>
       transfer_and_save handle src out scale align cps output_path).
Proof. all_without reads_em. Qed.

Lemma set_metadata_keeps out name author license :
  traces (Forall (fun ev => keeps_bearings ev = true))
    (set_metadata handle out name author license).
Proof. all_events keeps_bearings. Qed.

Lemma compute_scale_keeps src out :
  traces (Forall (fun ev => keeps_bearings ev = true)) (compute_scale handle src out).
Proof. all_events keeps_bearings. Qed.

Lemma choose_alignment_keeps :
  traces (Forall (fun ev => keeps_bearings ev = true)) (@choose_alignment Env).
Proof. all_events keeps_bearings. Qed.

(** ** Rounding *)

Lemma round_half_even_nearest m e :
  let n := round_half_even m e in
  if 0 <=? e then n = Z.pos m * 2 ^ e
  else Z.abs (2 * Z.pos m - 2 * n * 2 ^ (- e)) <= 2 ^ (- e).
Proof.
  unfold round_half_even. destruct (Z.leb_spec 0 e) as [He|He]; [reflexivity|].
  assert (Hd : 0 < 2 ^ (- e)) by (apply Z.pow_pos_nonneg; lia).
  set (d := 2 ^ (- e)) in *.
  pose proof (Z.div_mod (Z.pos m) d ltac:(lia)) as Hdm.
  pose proof (Z.mod_pos_bound (Z.pos m) d Hd) as Hr.
  set (q := Z.pos m / d) in *. set (r := Z.pos m mod d) in *.
  destruct (Z.ltb_spec (2 * r) d); [rewrite Hdm; nia|].
  destruct (Z.ltb_spec d (2 * r)); [rewrite Hdm; nia|].
  destruct (Z.even q); rewrite Hdm; nia.
Qed.

Lemma py_round_nearest x n : py_round (PyFloat x) = inr n -> nearest_integer x n.
Proof.
  destruct x as [s|s| |s m e]; simpl; intros H; inversion H; subst; clear H; try reflexivity.
  pose proof (round_half_even_nearest m e) as Hn. cbv zeta in Hn.
  destruct (0 <=? e); destruct s; rewrite ?Hn; lia.
Qed.

Lemma scaled_nearest w scale v x :
  scaled w scale = inr v -> py_mul w scale = inr (PyFloat x) -> nearest_integer x v.
Proof. unfold scaled. intros H Hx. rewrite Hx in H. apply py_round_nearest, H. Qed.


(** ** Finding an event behind a piece that cannot contain it *)

Lemma bind_split {A B} (m : @M Env A) (k : A -> @M Env B) env inp (Q : event -> Prop)
    pre ev post :
  trace_of ((m ≫= k) env inp) = pre ++ ev :: post ->
  Forall Q (trace_of (m env inp)) -> ~ Q ev ->
  exists a pre',
    outcome_of (m env inp) = Ok a /\
    pre = trace_of (m env inp) ++ pre' /\
    trace_of (k a (env_of (m env inp)) (stdin_of (m env inp))) = pre' ++ ev :: post.
Proof.
  rewrite trace_bind. intros Heq HQ Hev.
  destruct (split_skip Q _ _ _ _ _ Heq HQ Hev) as (pre' & -> & Hk).
  destruct (outcome_of (m env inp)) as [a|e|c]; [eauto|destruct pre'; discriminate..].
Qed.

Lemma write_not_kept ev x : bearing_write ev = Some x -> ~ keeps_bearings ev = true.
Proof. unfold keeps_bearings. intros ->. discriminate. Qed.

(** ** The work on the open fonts: scale factor and metrics *)

Lemma transplant_bearings cps name author license output_path src out env inp :
  forall pre ev post m f cp v,
    trace_of (transplant handle cps name author license output_path src out env inp)
      = pre ++ ev :: post ->
    bearing_write ev = Some (m, f, cp, v) ->
    f = out /\
    exists pre' rd w a b scale,
      pre = pre' ++ [rd] /\
      bearing_read rd = Some (m, src, cp, w) /\
      Called (GetEm out) (inr a) ∈ pre /\
      Called (GetEm src) (inr b) ∈ pre /\
      py_truediv a b = inr scale /\
      scaled w scale = inr v.
Proof.
  intros pre ev post m f cp v Heq Hw. unfold transplant in Heq.
  pose proof (write_not_kept _ _ Hw) as Hnot.
  destruct (bind_split _ _ _ _ (fun e => keeps_bearings e = true) _ _ _ Heq
              (set_metadata_keeps _ _ _ _ _ _) Hnot) as (u & pre1 & _ & -> & Heq1).
  destruct (bind_split _ _ _ _ (fun e => keeps_bearings e = true) _ _ _ Heq1
              (compute_scale_keeps _ _ _ _) Hnot) as (scale & pre2 & Hscale & -> & Heq2).
  destruct (bind_split _ _ _ _ (fun e => keeps_bearings e = true) _ _ _ Heq2
              (choose_alignment_keeps _ _) Hnot) as (align & pre3 & _ & -> & Heq3).
  destruct (compute_scale_ok _ _ _ _ _ Hscale) as (a & b & Hdiv & Htr).
  destruct (transfer_and_save_scaled src out scale align cps output_path _ _
              pre3 ev post m f cp v Heq3 Hw) as (Hf & pre' & rd & w & -> & Hrd & Hv).
  split; [exact Hf|].
  rewrite Htr, !app_assoc.
  eexists _, rd, w, a, b, scale.
  split; [reflexivity|]. repeat split; auto.
  - rewrite !elem_of_app, !elem_of_cons. auto 10.
  - rewrite !elem_of_app, !elem_of_cons. auto 10.
Qed.

Lemma transplant_reads cps name author license output_path src out env inp :
  (length (List.filter reads_em
     (trace_of (transplant handle cps name author license output_path src out env inp)))
   <= 2)%nat.
Proof.
  unfold transplant. rewrite trace_bind, List.filter_app, length_app.
  rewrite (no_reads _ (set_metadata_no_reads _ _ _ _ _ _)).
  destruct (outcome_of _); [|simpl; lia..].
  rewrite trace_bind, List.filter_app, length_app.
  pose proof (compute_scale_reads src out (env_of (set_metadata handle out name author license env inp))
                (stdin_of (set_metadata handle out name author license env inp))) as Hs.
  destruct (outcome_of (compute_scale _ _ _ _ _)); [|simpl in *; lia..].
  rewrite (no_reads _ (after_scale_no_reads _ _ _ _ _ _ _)). simpl in *. lia.
Qed.


(** ** The vertical shift *)

Lemma old_bounds_cases out cp env inp top bot :
  outcome_of (old_bounds handle out cp env inp) = Ok (top, bot) ->
  let chk := has_glyph handle out cp env inp in
  (outcome_of chk = Ok true /\
   exists b,
     top = Some (ymax b) /\ bot = Some (ymin b) /\
     trace_of (old_bounds handle out cp env inp)
       = trace_of chk ++ [Called (BoundingBox out cp) (inr b)]) \/
  (outcome_of chk = Ok false /\ top = None /\ bot = None /\
   trace_of (old_bounds handle out cp env inp) = trace_of chk).
Proof.
  intros H chk. revert H. unfold old_bounds. rewrite bind_run. fold chk.
  destruct (outcome_of chk) as [[]|e|c]; [| |discriminate..].
  - cbv beta iota. rewrite bind_run, perform_run.
    destruct (handle box (BoundingBox out cp) (env_of chk)) as [[e|b] env1]; simpl;
      [discriminate|].
    intros H. inversion H; subst. left. split; [reflexivity|]. exists b. auto.
  - simpl. intros H. inversion H; subst. right. rewrite app_nil_r. auto.
Qed.

Lemma align_y_translation out align old_top old_bot cp env inp :
  forall pre ev post f c x y,
    trace_of (align_y handle out align old_top old_bot cp env inp) = pre ++ ev :: post ->
    translation_of ev = Some (f, c, x, y) ->
    f = out /\ c = cp /\ x = PyInt 0 /\ post = [] /\
    exists new_box,
      pre = [Called (BoundingBox out cp) (inr new_box)] /\
      vertical_shift align old_top old_bot (ymax new_box) (ymin new_box) = inr y.
Proof.
  intros pre ev post f c x y. unfold align_y. rewrite bind_run, perform_run.
  destruct (handle box (BoundingBox out cp) env) as [[e|nb] env1]; simpl.
  - intros Heq Ht. destruct pre as [|? [|? ?]]; inversion Heq; subst. discriminate Ht.
  - rewrite bind_run.
    destruct (vertical_shift align old_top old_bot (ymax nb) (ymin nb)) as [e|shift] eqn:Hs;
      simpl.
    + intros Heq Ht. destruct pre as [|? [|? ?]]; inversion Heq; subst. discriminate Ht.
    + rewrite perform_run. simpl. intros Heq Ht.
      destruct pre as [|? [|? [|? ?]]]; inversion Heq; subst; try discriminate Ht.
      simpl in Ht. inversion Ht; subst. repeat split; auto. exists nb. auto.
Qed.

Lemma old_bounds_stays_put out cp :
  traces (Forall (fun ev => stays_put ev = true)) (old_bounds handle out cp).
Proof. all_events stays_put. Qed.

Lemma clear_and_paste_stays_put src out cp :
  traces (Forall (fun ev => stays_put ev = true)) (clear_and_paste handle src out cp).
Proof. all_events stays_put. Qed.

Lemma copy_bearings_stays_put src out scale cp :
  traces (Forall (fun ev => stays_put ev = true)) (copy_bearings handle src out scale cp).
Proof. all_events stays_put. Qed.

Lemma bind_find {A B} (m : @M Env A) (k : A -> @M Env B) env inp (Q : event -> Prop)
    pre ev post :
  trace_of ((m ≫= k) env inp) = pre ++ ev :: post ->
  (forall a, traces (Forall Q) (k a)) -> ~ Q ev ->
  exists post', trace_of (m env inp) = pre ++ ev :: post'.
Proof.
  rewrite trace_bind. intros Heq Hk Hev.
  destruct (app_eq_app _ _ _ _ Heq) as (l & [(Hl & Hr)|(Hl & Hr)]).
  - destruct l as [|e0 l].
    + exfalso. simpl in Hr.
      destruct (outcome_of (m env inp)) as [a|e|c]; [|discriminate..].
      pose proof (Hk a (env_of (m env inp)) (stdin_of (m env inp))) as Hb.
      rewrite <- Hr in Hb. apply Forall_cons in Hb. destruct Hb as [Hb _]. contradiction.
    + inversion Hr; subst. exists l. exact Hl.
  - exfalso.
    destruct (outcome_of (m env inp)) as [a|e|c]; [|destruct l; discriminate..].
    pose proof (Hk a (env_of (m env inp)) (stdin_of (m env inp))) as Hb.
    rewrite Hr in Hb. apply Forall_app in Hb. destruct Hb as [_ Hb].
    apply Forall_cons in Hb. destruct Hb as [Hb _]. contradiction.
Qed.

Lemma moved_not_put ev x : translation_of ev = Some x -> ~ stays_put ev = true.
Proof. unfold stays_put. intros ->. discriminate. Qed.

(** In one replacement, the only translation is the one of line 204,
    right after the measure of the scaled glyph, and its vertical part
    is [shift_y]. *)
Lemma replace_glyph_translation src out scale align cp env inp :
  forall pre ev post f c x y,
    trace_of (replace_glyph handle src out scale align cp env inp) = pre ++ ev :: post ->
    translation_of ev = Some (f, c, x, y) ->
    f = out /\ c = cp /\ x = PyInt 0 /\
    exists top bot before new_box,
      outcome_of (old_bounds handle out cp env inp) = Ok (top, bot) /\
      pre = trace_of (old_bounds handle out cp env inp) ++ before ++
            [Called (BoundingBox out cp) (inr new_box)] /\
      vertical_shift align top bot (ymax new_box) (ymin new_box) = inr y.
Proof.
  intros pre ev post f c x y Heq Ht. unfold replace_glyph in Heq.
  pose proof (moved_not_put _ _ Ht) as Hnot.
  destruct (bind_split _ _ _ _ (fun e => stays_put e = true) _ _ _ Heq
              (old_bounds_stays_put _ _ _ _) Hnot) as ([top bot] & pre1 & Hold & -> & Heq1).
  destruct (bind_split _ _ _ _ (fun e => stays_put e = true) _ _ _ Heq1
              (clear_and_paste_stays_put _ _ _ _ _) Hnot) as (u1 & pre2 & _ & -> & Heq2).
  destruct (bind_split _ _ _ _ (fun e => stays_put e = true) _ _ _ Heq2) as
    (u2 & pre3 & _ & -> & Heq3); [rewrite perform_run; repeat constructor|exact Hnot|].
  destruct (bind_find _ _ _ _ (fun e => stays_put e = true) _ _ _ Heq3) as (post' & Hal);
    [intros _; apply copy_bearings_stays_put|exact Hnot|].
  destruct (align_y_translation out align top bot cp _ _ _ _ _ _ _ _ _ Hal Ht)
    as (-> & -> & -> & _ & nb & -> & Hs).
  repeat split; auto. exists top, bot. eexists (_ ++ _), nb.
  split; [exact Hold|]. split; [|exact Hs].
  f_equal. apply app_assoc.
Qed.


(** ** The code points, as read *)

Lemma read_range_run (env : Env) l1 l2 rest :
  exists tr,
    read_range env (l1 :: l2 :: rest)
    = Result (Ok (range_codepoints (strip l1) (strip l2))) env rest tr.
Proof.
  unfold read_range, range_codepoints.
  repeat (rewrite bind_run; cbn [print input outcome_of env_of stdin_of]).
  destruct (range_of (strip l1) (strip l2)) as [[a b]|]; eexists; reflexivity.
Qed.

Lemma add_specific_step part (X : gset Z) (env : Env) inp :
  add_specific part X env inp =
  match parse_hex_int part with
  | Some cp => Result (Ok ({[cp]} ∪ X)) env inp [Printed (MAdded cp)]
  | None => Result (Ok X) env inp []
  end.
Proof. unfold add_specific. destruct (parse_hex_int part); reflexivity. Qed.

Lemma omap_parse_cons part parts :
  omap parse_hex_int (part :: parts) =
  match parse_hex_int part with
  | Some cp => cp :: omap parse_hex_int parts
  | None => omap parse_hex_int parts
  end.
Proof. reflexivity. Qed.

Lemma add_specific_run parts : forall (X : gset Z) (env : Env) inp,
  exists tr,
    for_each parts add_specific X env inp
    = Result (Ok (X ∪ list_to_set (omap parse_hex_int parts))) env inp tr.
Proof.
  induction parts as [|part parts IH]; intros X env inp; cbn [for_each].
  - exists []. replace (X ∪ list_to_set (omap parse_hex_int [])) with X by set_solver.
    reflexivity.
  - rewrite bind_run, add_specific_step, omap_parse_cons.
    destruct (parse_hex_int part) as [cp|]; cbn [outcome_of env_of stdin_of].
    + replace (X ∪ list_to_set (cp :: omap parse_hex_int parts))
        with (({[cp]} ∪ X) ∪ list_to_set (omap parse_hex_int parts) : gset Z) by set_solver.
      destruct (IH ({[cp]} ∪ X) env inp) as (tr & ->). eexists. reflexivity.
    + destruct (IH X env inp) as (tr & ->). eexists. reflexivity.
Qed.

Lemma read_specific_run (X : gset Z) (env : Env) l3 rest :
  exists tr,
    read_specific X env (l3 :: rest)
    = Result (Ok (specific_codepoints (strip l3) X)) env rest tr.
Proof.
  unfold read_specific, specific_codepoints.
  repeat (rewrite bind_run; cbn [print input outcome_of env_of stdin_of]).
  destruct (truthy (strip l3)); [|eexists; reflexivity].
  destruct (add_specific_run (split "," (strip l3)) X env rest) as (tr & ->).
  eexists. reflexivity.
Qed.

(** With three lines to read, the collection ends: it leaves with
    status 0 on an empty set and returns the sorted set otherwise. *)
Lemma collect_codepoints_run (env : Env) l1 l2 l3 rest :
  let X := specific_codepoints (strip l3) (range_codepoints (strip l1) (strip l2)) in
  outcome_of (collect_codepoints env (l1 :: l2 :: l3 :: rest))
  = (if bool_decide (X = ∅) then Exit 0 else Ok (sorted X)) /\
  stdin_of (collect_codepoints env (l1 :: l2 :: l3 :: rest)) = rest.
Proof.
  intros X. unfold collect_codepoints. rewrite bind_run.
  destruct (read_range_run env l1 l2 (l3 :: rest)) as (tr1 & ->). cbn [outcome_of env_of stdin_of].
  rewrite bind_run.
  destruct (read_specific_run (range_codepoints (strip l1) (strip l2)) env l3 rest) as (tr2 & ->).
  cbn [outcome_of env_of stdin_of]. fold X.
  destruct (bool_decide (X = ∅)); split; reflexivity.
Qed.


Lemma collect_codepoints_short (env : Env) inp :
  (length inp < 3)%nat -> outcome_of (collect_codepoints env inp) = Raise EOFError.
Proof.
  intros Hlen. unfold collect_codepoints. rewrite outcome_bind.
  destruct inp as [|l1 [|l2 [|l3 rest]]]; [reflexivity|reflexivity| |simpl in Hlen; lia].
  destruct (read_range_run env l1 l2 []) as (tr & ->). cbn [outcome_of env_of stdin_of].
  rewrite outcome_bind. reflexivity.
Qed.


(** ** Opening the fonts *)

Lemma open_fonts_cases source_path output_path env inp :
  let r := open_fonts handle source_path output_path env inp in
  (exists src out,
     outcome_of r = Ok (src, out) /\
     trace_of r = [Called (FFOpen source_path) (inr src);
                   Called (FFOpen output_path) (inr out)]) \/
  (outcome_of r = Exit 1 /\ exists e, Printed (MErrorOpening e) ∈ trace_of r).
Proof.
  unfold open_fonts. rewrite try_run, bind_run, perform_run.
  destruct (handle font (FFOpen source_path) env) as [[e|src] env1]; simpl.
  - right. split; [reflexivity|]. exists e. rewrite !elem_of_cons. auto.
  - rewrite bind_run, perform_run.
    destruct (handle font (FFOpen output_path) env1) as [[e|out] env2]; simpl.
    + right. split; [reflexivity|]. exists e. rewrite !elem_of_cons. auto.
    + left. exists src, out. auto.
Qed.

(** ** Where an event of a sequence comes from *)

Lemma bind_in {A B} (m : @M Env A) (k : A -> @M Env B) env inp ev :
  ev ∈ trace_of ((m ≫= k) env inp) ->
  ev ∈ trace_of (m env inp) \/
  exists a, outcome_of (m env inp) = Ok a /\
            ev ∈ trace_of (k a (env_of (m env inp)) (stdin_of (m env inp))).
Proof.
  rewrite trace_bind, elem_of_app. intros [H|H]; [left; exact H|right].
  destruct (outcome_of (m env inp)) as [a|e|c]; [eauto|inversion H..].
Qed.

Lemma not_in_without (Q : event -> bool) tr ev :
  Forall (fun e => Q e = false) tr -> Q ev = true -> ev ∈ tr -> False.
Proof. intros H Hq Hin. rewrite Forall_forall in H. apply H in Hin. congruence. Qed.

(** ** No fonts found *)

Lemma find_font_files_reports folder :
  traces (Forall (fun ev => reports_no_fonts ev = false)) (find_font_files handle folder).
Proof. all_without reports_no_fonts. Qed.

Lemma choose_file_no_exit folder role : no_exit (choose_file handle folder role).
Proof. walk. Qed.

(** A folder that gave a font gave no complaint. *)
Lemma choose_file_found folder role env inp path :
  outcome_of (choose_file handle folder role env inp) = Ok (Some path) ->
  Forall (fun ev => reports_no_fonts ev = false)
    (trace_of (choose_file handle folder role env inp)).
Proof.
  unfold choose_file. rewrite outcome_bind, trace_bind.
  pose proof (find_font_files_reports folder env inp) as Hf.
  destruct (outcome_of (find_font_files handle folder env inp)) as [files|e|c];
    [|discriminate..].
  intros H. apply Forall_app. split; [exact Hf|]. revert H.
  destruct files as [|f [|g files]].
  - rewrite outcome_bind. simpl. discriminate.
  - intros _. repeat constructor.
  - intros _.
    pose proof (closed_Forall (fun ev => reports_no_fonts ev = false)) as HP.
    match goal with |- Forall _ (trace_of (?m _ _)) => assert (traces (Forall (fun ev => reports_no_fonts ev = false)) m) as Hm end.
    { walk; leaf. }
    apply Hm.
Qed.

Lemma select_fonts_no_fonts s d env inp ev :
  reports_no_fonts ev = true ->
  ev ∈ trace_of (select_fonts handle s d env inp) ->
  (exists e, outcome_of (select_fonts handle s d env inp) = Raise e) \/
  outcome_of (select_fonts handle s d env inp) = Exit 1.
Proof.
  intros Hev Hin. unfold select_fonts in *.
  rewrite outcome_bind.
  destruct (outcome_of (choose_file handle s "Source" env inp)) as [sp|e|c] eqn:Hs;
    [|eauto|exfalso; eapply choose_file_no_exit, Hs].
  rewrite outcome_bind.
  destruct (outcome_of (choose_file handle d "Destination"
                         (env_of (choose_file handle s "Source" env inp))
                         (stdin_of (choose_file handle s "Source" env inp))))
    as [dp|e|c] eqn:Hd; [|eauto|exfalso; eapply choose_file_no_exit, Hd].
  destruct sp as [sp|]; [|right; reflexivity].
  destruct dp as [dp|]; [|right; reflexivity].
  destruct (usable (Some sp) && usable (Some dp)); [|right; reflexivity].
  exfalso.
  apply bind_in in Hin. destruct Hin as [Hin|(a & Ha & Hin)].
  - eapply not_in_without; [eapply choose_file_found, Hs|exact Hev|exact Hin].
  - rewrite Hs in Ha. inversion Ha; subst a.
    apply bind_in in Hin. destruct Hin as [Hin|(a & Ha' & Hin)].
    + eapply not_in_without; [eapply choose_file_found, Hd|exact Hev|exact Hin].
    + rewrite Hd in Ha'. inversion Ha'; subst a. simpl in Hin.
      destruct (truthy sp && truthy dp); simpl in Hin; inversion Hin.
Qed.


(** One step into a sequence whose first piece cannot hold the event. *)
Ltac behind Q Hev Hin :=
  match type of Hin with
  | _ ∈ trace_of ((?m ≫= ?k) ?env ?inp) =>
      let Hm := fresh "Hm" in
      let a := fresh "a" in
      let Ha := fresh "Ha" in
      assert (traces (Forall (fun e => Q e = false)) m) as Hm
        by (let HP := fresh "HP" in
            pose proof (closed_Forall (fun ev => Q ev = false)) as HP; walk; leaf);
      apply bind_in in Hin; destruct Hin as [Hin|(a & Ha & Hin)];
      [exfalso; eapply (not_in_without Q); [apply Hm|exact Hev|exact Hin]|];
      clear Hm
  end.

Lemma prepare_no_fonts env inp ev :
  reports_no_fonts ev = true ->
  ev ∈ trace_of (prepare handle env inp) ->
  (exists e, outcome_of (prepare handle env inp) = Raise e) \/
  outcome_of (prepare handle env inp) = Exit 1.
Proof.
  intros Hev Hin. unfold prepare in *.
  behind reports_no_fonts Hev Hin. rewrite outcome_bind, Ha.
  behind reports_no_fonts Hev Hin. rewrite outcome_bind, Ha0.
  behind reports_no_fonts Hev Hin. rewrite outcome_bind, Ha1.
  behind reports_no_fonts Hev Hin. rewrite outcome_bind, Ha2.
  destruct a2 as [[name author] license]. rewrite outcome_bind.
  apply bind_in in Hin. destruct Hin as [Hin|(paths & Hp & Hin)].
  - destruct (select_fonts_no_fonts _ _ _ _ _ Hev Hin) as [(e & ->)| ->]; eauto.
  - destruct paths. inversion Hin.
Qed.

Lemma after_prepare_reports p :
  traces (Forall (fun ev => reports_no_fonts ev = false))
    (perform handle (Copy2 (plan_dest p)
                      (output_path_of output_folder (plan_dest p) (plan_font_name p))) ≫= fun _ =>
     open_fonts handle (plan_source p)
       (output_path_of output_folder (plan_dest p) (plan_font_name p)) ≫= fun '(src, out) =>
     transplant handle (plan_codepoints p) (plan_font_name p) (plan_author p) (plan_license p)
       (output_path_of output_folder (plan_dest p) (plan_font_name p)) src out).
Proof. all_without reports_no_fonts. Qed.

(** When a folder holds no font, the run ends with status 1 and has
    done nothing but ask and look. *)
Lemma script_no_fonts env inp ev :
  reports_no_fonts ev = true ->
  ev ∈ trace_of (script handle env inp) ->
  exit_code (outcome_of (script handle env inp)) = 1 /\
  Forall (fun e => quiet e = true) (trace_of (script handle env inp)).
Proof.
  intros Hev Hin. unfold script in *.
  behind reports_no_fonts Hev Hin.
  rewrite outcome_bind, trace_bind, Ha.
  pose proof (import_guard_quiet env inp) as Hg.
  set (g := import_guard handle env inp) in *.
  pose proof (prepare_quiet (env_of g) (stdin_of g)) as Hq.
  unfold main in *. rewrite outcome_bind, trace_bind.
  apply bind_in in Hin. destruct Hin as [Hin|(p & Hp & Hin)].
  - destruct (prepare_no_fonts _ _ _ Hev Hin) as [(e & ->)| ->]; simpl;
      (split; [reflexivity|]); rewrite app_nil_r; apply Forall_app; auto.
  - exfalso. eapply (not_in_without reports_no_fonts);
      [apply (after_prepare_reports p)|exact Hev|exact Hin].
Qed.


(** ** The fonts cannot be opened *)

Lemma perform_ok {T} (c : call T) env inp v :
  outcome_of (perform handle c env inp) = Ok v ->
  fst (handle T c env) = inr v /\
  trace_of (perform handle c env inp) = [Called c (inr v)].
Proof.
  rewrite perform_run. simpl. destruct (fst (handle T c env)); [discriminate|].
  intros H. inversion H; subst. auto.
Qed.

Lemma open_fonts_idle source_path output_path :
  traces (Forall (fun ev => idle ev = true)) (open_fonts handle source_path output_path).
Proof. all_events idle. Qed.

Lemma idle_harmless ev : idle ev = true -> harmless ev = true.
Proof. unfold idle. rewrite andb_true_iff. tauto. Qed.

Lemma transplant_reports cps name author license output_path src out :
  traces (Forall (fun ev => reports_open_error ev = false))
    (transplant handle cps name author license output_path src out).
Proof. all_without reports_open_error. Qed.

(** When a font cannot be opened, the run ends with status 1; the
    destination has been copied by then, and no font has been changed
    or saved. *)
Lemma script_open_error env inp ev :
  reports_open_error ev = true ->
  ev ∈ trace_of (script handle env inp) ->
  outcome_of (script handle env inp) = Exit 1 /\
  exists pre d o rest,
    trace_of (script handle env inp) = pre ++ Called (Copy2 d o) (inr tt) :: rest /\
    Forall (fun e => quiet e = true) pre /\
    Forall (fun e => harmless e = true) rest.
Proof.
  intros Hev Hin. unfold script in *.
  behind reports_open_error Hev Hin.
  rewrite outcome_bind, trace_bind, Ha.
  pose proof (import_guard_quiet env inp) as Hg.
  set (g := import_guard handle env inp) in *.
  pose proof (prepare_quiet (env_of g) (stdin_of g)) as Hq.
  unfold main in *.
  behind reports_open_error Hev Hin.
  rewrite outcome_bind, trace_bind, Ha0.
  set (rp := prepare handle (env_of g) (stdin_of g)) in *.
  cbv zeta in Hin |- *.
  set (d := plan_dest a0) in *.
  set (o := output_path_of output_folder d (plan_font_name a0)) in *.
  behind reports_open_error Hev Hin.
  rewrite outcome_bind, trace_bind, Ha1.
  destruct a1. destruct (perform_ok _ _ _ _ Ha1) as [_ ->].
  set (rc := perform handle (Copy2 d o) (env_of rp) (stdin_of rp)) in *.
  rewrite outcome_bind, trace_bind.
  pose proof (open_fonts_idle (plan_source a0) o (env_of rc) (stdin_of rc)) as Hidle.
  apply bind_in in Hin. destruct Hin as [Hin|((src & out) & Ho & Hin)].
  - destruct (open_fonts_cases (plan_source a0) o (env_of rc) (stdin_of rc))
      as [(src & out & Ho & Htr)|(Ho & _)].
    + exfalso. rewrite Htr in Hin. rewrite !elem_of_cons, elem_of_nil in Hin.
      destruct Hin as [->|[->|[]]]; discriminate Hev.
    + rewrite Ho. split; [reflexivity|].
      exists (trace_of g ++ trace_of rp), d, o,
        (trace_of (open_fonts handle (plan_source a0) o (env_of rc) (stdin_of rc))).
      rewrite app_nil_r, <- app_assoc. split; [reflexivity|].
      split; [apply Forall_app; auto|].
      eapply Forall_impl; [exact Hidle|]. apply idle_harmless.
  - exfalso. eapply (not_in_without reports_open_error);
      [apply transplant_reports|exact Hev|exact Hin].
Qed.


(** ** The anatomy of a run *)

(** Either the run never got to the copy, or its trace is: questions
    and looks, the copy, and then either nothing that changes a font,
    or the two fonts opened and the work on the output font. *)
Lemma script_anatomy env inp :
  let g := import_guard handle env inp in
  let rp := prepare handle (env_of g) (stdin_of g) in
  Forall (fun e => quiet e = true) (trace_of (script handle env inp)) \/
  exists p,
    outcome_of rp = Ok p /\
    let d := plan_dest p in
    let o := output_path_of output_folder d (plan_font_name p) in
    let cr := fst (handle unit (Copy2 d o) (env_of rp)) in
    exists rest,
      trace_of (script handle env inp)
        = (trace_of g ++ trace_of rp) ++ Called (Copy2 d o) cr :: rest /\
      Forall (fun e => quiet e = true) (trace_of g ++ trace_of rp) /\
      (Forall (fun e => idle e = true) rest \/
       (cr = inr tt /\
        exists src out body,
          rest = [Called (FFOpen (plan_source p)) (inr src); Called (FFOpen o) (inr out)]
                 ++ body /\
          Forall (fun e => confined out o e = true) body)).
Proof.
  intros g rp. unfold script. rewrite trace_bind. fold g.
  pose proof (import_guard_quiet env inp) as Hg. fold g in Hg.
  pose proof (prepare_quiet (env_of g) (stdin_of g)) as Hq. fold rp in Hq.
  destruct (outcome_of g) as [[]|e|c]; [|left; rewrite app_nil_r; exact Hg..].
  unfold main. rewrite trace_bind. fold rp.
  destruct (outcome_of rp) as [p|e|c];
    [|left; rewrite app_nil_r; apply Forall_app; auto..].
  right. exists p. split; [reflexivity|]. cbv zeta.
  set (d := plan_dest p). set (o := output_path_of output_folder d (plan_font_name p)).
  rewrite trace_bind, perform_run. cbn [outcome_of env_of stdin_of trace_of].
  destruct (fst (handle unit (Copy2 d o) (env_of rp))) as [e|[]] eqn:Hc.
  - exists []. rewrite app_assoc. repeat split; [apply Forall_app; auto|]. left. constructor.
  - rewrite trace_bind.
    set (env1 := snd (handle unit (Copy2 d o) (env_of rp))).
    pose proof (open_fonts_idle (plan_source p) o env1 (stdin_of rp)) as Hidle.
    destruct (open_fonts_cases (plan_source p) o env1 (stdin_of rp))
      as [(src & out & Ho & Htr)|(Ho & _)]; rewrite Ho.
    + eexists. rewrite app_assoc. split; [reflexivity|].
      split; [apply Forall_app; auto|]. right. split; [reflexivity|].
      exists src, out. eexists. rewrite Htr. split; [reflexivity|].
      apply transplant_confined.
    + eexists. rewrite app_assoc. split; [reflexivity|].
      split; [apply Forall_app; auto|]. left. rewrite app_nil_r. exact Hidle.
Qed.

Lemma quiet_idle ev : quiet ev = true -> idle ev = true.
Proof.
  unfold quiet, idle, harmless, copied, reaches_output.
  destruct ev as [T c r|m|p l]; [|reflexivity..].
  destruct c; simpl; try reflexivity; discriminate.
Qed.

Lemma idle_no_write ev : idle ev = true -> file_written ev = None.
Proof.
  unfold idle, harmless, file_written. rewrite andb_true_iff. intros [H1 H2].
  destruct (copied ev); [discriminate|].
  destruct (font_written ev); [discriminate|]. destruct (saved ev); [discriminate|reflexivity].
Qed.

Lemma confined_no_copy out o ev : confined out o ev = true -> copied ev = None.
Proof.
  unfold confined, copied, reaches_output.
  destruct ev as [T c r|m|p l]; [|reflexivity..].
  destruct c; simpl; try reflexivity; discriminate.
Qed.

Lemma confined_write out o ev path :
  confined out o ev = true -> file_written ev = Some path -> path = o.
Proof.
  intros Hc. unfold file_written. rewrite (confined_no_copy _ _ _ Hc).
  unfold confined in Hc. rewrite !andb_true_iff in Hc. destruct Hc as [_ Hs].
  destruct (saved ev) as [[f p]|]; [|discriminate].
  rewrite andb_true_iff in Hs. destruct Hs as [_ Hs]. apply String.eqb_eq in Hs.
  intros H. inversion H; subst. reflexivity.
Qed.

Lemma confined_font out o ev f :
  confined out o ev = true -> font_written ev = Some f -> f = out.
Proof.
  unfold confined. rewrite !andb_true_iff. intros [[_ Hf] _] H. rewrite H in Hf.
  apply Nat.eqb_eq, Hf.
Qed.

Lemma confined_saved out o ev f path :
  confined out o ev = true -> saved ev = Some (f, path) -> f = out /\ path = o.
Proof.
  unfold confined. rewrite !andb_true_iff. intros [_ Hs] H. rewrite H in Hs.
  rewrite andb_true_iff in Hs. destruct Hs as [Hf Hp].
  apply Nat.eqb_eq in Hf. apply String.eqb_eq in Hp. auto.
Qed.


Lemma idle_no_copy ev : idle ev = true -> copied ev = None.
Proof.
  unfold idle. rewrite andb_true_iff. intros [_ H]. destruct (copied ev); [discriminate|reflexivity].
Qed.


(** ** The loop, then the save *)


(** ** The output path *)

Lemma output_ext_cases dest : output_ext dest = ".ttf" \/ output_ext dest = ".otf".
Proof.
  unfold output_ext. simpl existsb.
  destruct (String.eqb_spec (lower (snd (splitext dest))) ".ttf") as [->|_]; [auto|].
  destruct (String.eqb_spec (lower (snd (splitext dest))) ".otf") as [->|_]; simpl; auto.
Qed.

Lemma startswith_slash_app name ext :
  startswith "/" ext = false ->
  startswith "/" (name +:+ ext) = startswith "/" name.
Proof. destruct name as [|c r]; simpl; [|reflexivity]. destruct ext; simpl; auto. Qed.

Lemma output_path_of_cases dest name :
  output_path_of output_folder dest name =
  if startswith "/" name then name +:+ output_ext dest
  else "Output/" +:+ name +:+ output_ext dest.
Proof.
  unfold output_path_of, path_join, output_folder.
  rewrite startswith_slash_app by (destruct (output_ext_cases dest) as [-> | ->]; reflexivity).
  destruct (startswith "/" name); reflexivity.
Qed.

End Pieces.

(* ================================================================== *)
(** * Further properties of [parse_hex_int] *)
(* ================================================================== *)

Section Hexadecimal.

Lemma every_app p a b : every p (a +:+ b) = every p a && every p b.
Proof. induction a as [|c r IH]; simpl; [reflexivity|]. rewrite IH. apply andb_assoc. Qed.

Lemma horner_shift s : forall acc,
  horner 16 acc s = acc * 16 ^ Z.of_nat (String.length s) + horner 16 0 s.
Proof.
  induction s as [|c r IH]; intros acc.
  - simpl. lia.
  - cbn [horner String.length]. rewrite (IH (acc * 16 + _)), (IH (0 * 16 + _)).
    rewrite Nat2Z.inj_succ, Z.pow_succ_r by lia. ring.
Qed.

Lemma hex_digit_upper_value d :
  0 <= d < 16 ->
  is_hex_digit (hex_digit_upper d) = true /\ digit_value (hex_digit_upper d) = Some d.
Proof.
  intros Hd.
  assert (H : d = 0 \/ d = 1 \/ d = 2 \/ d = 3 \/ d = 4 \/ d = 5 \/ d = 6 \/ d = 7 \/
              d = 8 \/ d = 9 \/ d = 10 \/ d = 11 \/ d = 12 \/ d = 13 \/ d = 14 \/ d = 15)
    by lia.
  repeat (destruct H as [->|H]; [split; reflexivity|]). subst. split; reflexivity.
Qed.

Lemma hex_digits_value fuel : forall n acc,
  0 <= n < 16 ^ Z.of_nat fuel ->
  every is_hex_digit acc = true ->
  every is_hex_digit (hex_digits fuel n acc) = true /\
  hex_value (hex_digits fuel n acc) = n * 16 ^ Z.of_nat (String.length acc) + hex_value acc.
Proof.
  induction fuel as [|k IH]; intros n acc Hn Hacc.
  - simpl in *. split; [exact Hacc|]. assert (n = 0) by lia. subst. lia.
  - cbn [hex_digits]. destruct (Z.eqb_spec n 0) as [->|Hne].
    + split; [exact Hacc|]. lia.
    + rewrite Nat2Z.inj_succ, Z.pow_succ_r in Hn by lia.
      pose proof (Z.div_mod n 16 ltac:(lia)) as Hdm.
      pose proof (Z.mod_pos_bound n 16 ltac:(lia)) as Hm.
      destruct (hex_digit_upper_value (n mod 16) Hm) as [Hd Hv].
      destruct (IH (n / 16) (String (hex_digit_upper (n mod 16)) acc)) as [IH1 IH2].
      * split; [apply Z.div_pos; lia|apply Z.div_lt_upper_bound; lia].
      * simpl. rewrite Hd. exact Hacc.
      * split; [exact IH1|]. rewrite IH2. unfold hex_value.
        cbn [horner String.length]. rewrite Hv. cbn [default]. unfold id.
        rewrite (horner_shift acc (0 * 16 + n mod 16)).
        rewrite Nat2Z.inj_succ, Z.pow_succ_r by lia.
        set (p := 16 ^ Z.of_nat (String.length acc)) in *.
        set (q := n / 16) in *. set (r := n mod 16) in *. rewrite Hdm. ring.
Qed.

Lemma hex_digits_truthy fuel : forall n acc,
  truthy acc = true -> truthy (hex_digits fuel n acc) = true.
Proof.
  induction fuel as [|k IH]; intros n acc Hacc; simpl; [exact Hacc|].
  destruct (n =? 0); [exact Hacc|]. apply IH. reflexivity.
Qed.

Lemma log2_fuel n : 0 < n -> n < 16 ^ Z.of_nat (S (Z.to_nat (Z.log2 n))).
Proof.
  intros Hn. pose proof (Z.log2_nonneg n) as Hl.
  rewrite Nat2Z.inj_succ, Z2Nat.id by exact Hl.
  destruct (Z.log2_spec n Hn) as [_ Hlt].
  eapply Z.lt_le_trans; [exact Hlt|].
  apply Z.pow_le_mono_l. lia.
Qed.

Lemma to_hex_upper_value n :
  0 <= n ->
  every is_hex_digit (to_hex_upper n) = true /\
  truthy (to_hex_upper n) = true /\
  hex_value (to_hex_upper n) = n.
Proof.
  intros Hn. unfold to_hex_upper. destruct (Z.eqb_spec n 0) as [->|Hne].
  - repeat split; reflexivity.
  - destruct (hex_digits_value (S (Z.to_nat (Z.log2 n))) n EmptyString) as [H1 H2].
    + split; [exact Hn|apply log2_fuel; lia].
    + reflexivity.
    + split; [exact H1|]. split.
      * cbn [hex_digits]. destruct (Z.eqb_spec n 0); [contradiction|].
        apply hex_digits_truthy. reflexivity.
      * rewrite H2. simpl. unfold hex_value. simpl. lia.
Qed.

Lemma zeros_hex k s :
  every is_hex_digit (zeros k +:+ s) = every is_hex_digit s /\
  hex_value (zeros k +:+ s) = hex_value s.
Proof.
  induction k as [|k [IH1 IH2]]; [split; reflexivity|].
  split; [simpl; exact IH1|]. exact IH2.
Qed.

Lemma truthy_app_r a b : truthy b = true -> truthy (a +:+ b) = true.
Proof. destruct a; simpl; auto. Qed.

Lemma format_04X_value cp :
  0 <= cp ->
  every is_hex_digit (format_04X cp) = true /\
  truthy (format_04X cp) = true /\
  hex_value (format_04X cp) = cp.
Proof.
  intros Hcp. unfold format_04X. destruct (Z.ltb_spec cp 0); [lia|].
  destruct (to_hex_upper_value cp Hcp) as (H1 & H2 & H3).
  unfold zero_pad. destruct (zeros_hex (4 - String.length (to_hex_upper cp)) (to_hex_upper cp))
    as [Z1 Z2].
  rewrite Z1, Z2. split; [exact H1|]. split; [apply truthy_app_r, H2|exact H3].
Qed.

Lemma hex_no_upper_prefix t : every is_hex_digit t = true -> startswith "0X" t = false.
Proof.
  destruct t as [|c0 [|c1 r]]; simpl; try reflexivity.
  - intros _. apply andb_false_r.
  - rewrite !andb_true_iff. intros (_ & H1 & _).
    destruct (hex_digit_facts c1 H1) as (_ & _ & _ & _ & -> & _). apply andb_false_r.
Qed.

Lemma hex_body_plain t : every is_hex_digit t = true -> hex_body t = t.
Proof.
  intros H. unfold hex_body. rewrite (hex_no_prefix t H), (hex_no_upper_prefix t H). reflexivity.
Qed.

(** X1.  What the script prints for a code point can be typed back:
    for [0 <= cp], [parse_hex_int] reads the text of [{cp:04X}], with
    or without [0x] before it, as [cp] when [cp] is at most 0x10FFFF,
    and gives no value beyond. *)
Theorem parse_hex_int_reads_what_is_printed cp :
  0 <= cp ->
  parse_hex_int (format_04X cp) = (if cp <=? 0x10FFFF then Some cp else None) /\
  parse_hex_int ("0x" +:+ format_04X cp) = (if cp <=? 0x10FFFF then Some cp else None).
Proof.
  intros Hcp. destruct (format_04X_value cp Hcp) as (Hd & Hne & Hv). split.
  - rewrite parse_plain_hex.
    + unfold spec_parse_hex_int, plain_hex. rewrite (hex_body_plain _ Hd), Hne, Hd, Hv.
      reflexivity.
    + unfold plain_hex. rewrite (hex_body_plain _ Hd), Hne, Hd. reflexivity.
  - assert (Hb : hex_body ("0x" +:+ format_04X cp) = format_04X cp) by reflexivity.
    rewrite parse_plain_hex.
    + unfold spec_parse_hex_int, plain_hex. rewrite Hb, Hne, Hd, Hv. reflexivity.
    + unfold plain_hex. rewrite Hb, Hne, Hd. reflexivity.
Qed.

Lemma parse_hex_int_reads_what_is_printed_at_1F600 :
  parse_hex_int (format_04X 0x1F600) = Some 0x1F600 /\
  parse_hex_int ("0x" +:+ format_04X 0x1F600) = Some 0x1F600.
Proof. apply (parse_hex_int_reads_what_is_printed 0x1F600). lia. Defined.

(** ** White space and case *)

Lemma space_lower_char c : is_py_space (lower_char c) = is_py_space c.
Proof. destruct c as [[] [] [] [] [] [] [] []]; reflexivity. Qed.

Lemma lower_char_twice c : lower_char (lower_char c) = lower_char c.
Proof. destruct c as [[] [] [] [] [] [] [] []]; reflexivity. Qed.

Lemma lower_twice s : lower (lower s) = lower s.
Proof. induction s as [|c r IH]; simpl; [reflexivity|]. rewrite lower_char_twice, IH. reflexivity. Qed.

Lemma lstrip_lower s : lstrip (lower s) = lower (lstrip s).
Proof.
  induction s as [|c r IH]; simpl; [reflexivity|].
  rewrite space_lower_char. destruct (is_py_space c); [exact IH|reflexivity].
Qed.

Lemma rstrip_lower s : rstrip (lower s) = lower (rstrip s).
Proof.
  induction s as [|c r IH]; simpl; [reflexivity|].
  rewrite IH, space_lower_char. destruct (rstrip r); simpl; [|reflexivity].
  destruct (is_py_space c); reflexivity.
Qed.

Lemma strip_lower s : strip (lower s) = lower (strip s).
Proof. unfold strip. rewrite lstrip_lower. apply rstrip_lower. Qed.

Lemma rstrip_spaces b : every is_py_space b = true -> rstrip b = EmptyString.
Proof.
  induction b as [|c r IH]; simpl; [reflexivity|].
  rewrite andb_true_iff. intros [Hc Hr]. rewrite (IH Hr), Hc. reflexivity.
Qed.

Lemma rstrip_app_spaces s b : every is_py_space b = true -> rstrip (s +:+ b) = rstrip s.
Proof.
  intros Hb. induction s as [|c r IH]; simpl; [apply rstrip_spaces, Hb|].
  rewrite IH. reflexivity.
Qed.

Lemma lstrip_spaces_app a s : every is_py_space a = true -> lstrip (a +:+ s) = lstrip s.
Proof.
  induction a as [|c r IH]; simpl; [reflexivity|].
  rewrite andb_true_iff. intros [-> Hr]. apply IH, Hr.
Qed.

Lemma lstrip_spaces b : every is_py_space b = true -> lstrip b = EmptyString.
Proof.
  induction b as [|c r IH]; simpl; [reflexivity|].
  rewrite andb_true_iff. intros [-> Hr]. apply IH, Hr.
Qed.

Lemma strip_app_spaces s b : every is_py_space b = true -> strip (s +:+ b) = strip s.
Proof.
  intros Hb. unfold strip. induction s as [|c r IH]; simpl.
  - change (EmptyString +:+ b) with b. rewrite (lstrip_spaces b Hb). reflexivity.
  - destruct (is_py_space c); [exact IH|].
    apply (rstrip_app_spaces (String c r) b Hb).
Qed.

Lemma strip_surrounded a s b :
  every is_py_space a = true -> every is_py_space b = true ->
  strip (a +:+ s +:+ b) = strip s.
Proof.
  intros Ha Hb. unfold strip. rewrite (lstrip_spaces_app a _ Ha).
  apply (strip_app_spaces s b Hb).
Qed.

(** X2.  [parse_hex_int] is blind to white space around the digits
    and to the case of the letters: a string with white space put
    before and after it, and the string in lower case, are read as the
    string itself. *)
Theorem parse_hex_int_ignores_space_and_case a s b :
  every is_py_space a = true -> every is_py_space b = true ->
  parse_hex_int (a +:+ s +:+ b) = parse_hex_int s /\
  parse_hex_int (lower s) = parse_hex_int s.
Proof.
  intros Ha Hb. unfold parse_hex_int. split.
  - rewrite (strip_surrounded a s b Ha Hb). reflexivity.
  - rewrite strip_lower, lower_twice. reflexivity.
Qed.

Lemma parse_hex_int_ignores_space_and_case_at_1f :
  parse_hex_int (" " +:+ "0X1f" +:+ "  ") = parse_hex_int "0X1f" /\
  parse_hex_int (lower "0X1f") = parse_hex_int "0X1f".
Proof. apply (parse_hex_int_ignores_space_and_case " " "0X1f" "  "); reflexivity. Defined.

End Hexadecimal.

(* ================================================================== *)
(** * Further properties of the questions *)
(* ================================================================== *)

Section Questions.

Context {Env : Type} (handle : forall T, call T -> Env -> res T * Env).

#[local] Existing Instance M_ret.
#[local] Existing Instance M_bind.

(** ** The comma list *)

Lemma add_specific_trace parts : forall (X : gset Z) (env : Env) inp,
  for_each parts add_specific X env inp
  = Result (Ok (X ∪ list_to_set (omap parse_hex_int parts))) env inp
      (added_lines (omap parse_hex_int parts)).
Proof.
  induction parts as [|part parts IH]; intros X env inp; cbn [for_each].
  - replace (X ∪ list_to_set (omap parse_hex_int [])) with X by set_solver.
    reflexivity.
  - rewrite bind_run, add_specific_step, omap_parse_cons.
    destruct (parse_hex_int part) as [cp|]; cbn [outcome_of env_of stdin_of].
    + replace (X ∪ list_to_set (cp :: omap parse_hex_int parts))
        with (({[cp]} ∪ X) ∪ list_to_set (omap parse_hex_int parts) : gset Z) by set_solver.
      rewrite IH. reflexivity.
    + rewrite IH. reflexivity.
Qed.

Lemma specific_codepoints_listed s (X : gset Z) :
  specific_codepoints s X = X ∪ list_to_set (listed s).
Proof.
  unfold specific_codepoints, listed. destruct (truthy s); [reflexivity|].
  set_solver.
Qed.

Lemma read_specific_trace (X : gset Z) (env : Env) l3 rest :
  read_specific X env (l3 :: rest)
  = Result (Ok (X ∪ list_to_set (listed (strip l3)))) env rest
      ([Printed MStep2; Asked PSpecific (Some l3)] ++ added_lines (listed (strip l3))).
Proof.
  unfold read_specific, listed.
  repeat (rewrite bind_run; cbn [print input outcome_of env_of stdin_of]).
  destruct (truthy (strip l3)).
  - rewrite add_specific_trace. reflexivity.
  - replace (X ∪ list_to_set []) with X by set_solver. reflexivity.
Qed.

(** X3.  The comma list.  With a line to read, the step returns the
    set it was given together with every part of the stripped line
    that [parse_hex_int] reads, and prints one [Added] line for each
    such part, in the order of the parts and as often as the part
    occurs.  A part that is not read is dropped without a line; the
    step never fails on it. *)
Theorem comma_list_adds_what_parses (X : gset Z) (env : Env) l3 rest :
  read_specific X env (l3 :: rest)
  = Result (Ok (X ∪ list_to_set (listed (strip l3)))) env rest
      ([Printed MStep2; Asked PSpecific (Some l3)] ++ added_lines (listed (strip l3))) /\
  (forall cp,
     cp ∈ listed (strip l3) <->
     truthy (strip l3) = true /\
     exists part, part ∈ split "," (strip l3) /\ parse_hex_int part = Some cp) /\
  listed "41, zz,,0x42 ,41" = [0x41; 0x42; 0x41].
Proof.
  split; [apply read_specific_trace|]. split; [|vm_compute; reflexivity].
  intros cp. unfold listed. destruct (truthy (strip l3)).
  - rewrite list_elem_of_omap. intuition.
  - rewrite elem_of_nil. intuition discriminate.
Qed.

(** ** No code point at all *)

Lemma range_of_bounds start_s end_s a b :
  range_of start_s end_s = Some (a, b) ->
  parse_hex_int start_s = Some a /\ parse_hex_int end_s = Some b /\ a <= b.
Proof.
  unfold range_of. destruct (truthy start_s && truthy end_s); [|discriminate].
  destruct (parse_hex_int start_s) as [a'|]; [|discriminate].
  destruct (parse_hex_int end_s) as [b'|]; [|discriminate].
  destruct (Z.geb_spec b' a'); [|discriminate].
  intros Heq. inversion Heq; subst. repeat split; [reflexivity..|lia].
Qed.

Lemma range_codepoints_empty start_s end_s :
  range_codepoints start_s end_s = ∅ -> range_of start_s end_s = None.
Proof.
  unfold range_codepoints.
  destruct (range_of start_s end_s) as [[a b]|] eqn:Hr; [|reflexivity].
  intros H. apply range_of_bounds in Hr. destruct Hr as (_ & _ & Hab).
  assert (Hin : a ∈ add_range a b ∅) by (apply elem_of_add_range; right; lia).
  rewrite H in Hin. set_solver.
Qed.

Lemma read_range_nothing (env : Env) l1 l2 rest :
  range_of (strip l1) (strip l2) = None ->
  read_range env (l1 :: l2 :: rest)
  = Result (Ok ∅) env rest [Printed MStep1; Asked PStart (Some l1); Asked PEnd (Some l2)].
Proof.
  intros H. unfold read_range.
  repeat (rewrite bind_run; cbn [print input outcome_of env_of stdin_of]).
  rewrite H. reflexivity.
Qed.

Lemma collect_codepoints_nothing (env : Env) l1 l2 l3 rest :
  specific_codepoints (strip l3) (range_codepoints (strip l1) (strip l2)) = ∅ ->
  collect_codepoints env (l1 :: l2 :: l3 :: rest)
  = Result (Exit 0) env rest
      [Printed MStep1; Asked PStart (Some l1); Asked PEnd (Some l2);
       Printed MStep2; Asked PSpecific (Some l3); Printed MNoCodepoints].
Proof.
  intros H. rewrite specific_codepoints_listed in H.
  assert (Hr : range_codepoints (strip l1) (strip l2) = ∅) by set_solver.
  assert (Hl : listed (strip l3) = []).
  { destruct (listed (strip l3)) as [|cp l]; [reflexivity|]. set_solver. }
  unfold collect_codepoints.
  rewrite bind_run, (read_range_nothing env l1 l2 _ (range_codepoints_empty _ _ Hr)).
  cbn [outcome_of env_of stdin_of].
  rewrite bind_run, read_specific_trace, Hl. cbn [outcome_of env_of stdin_of].
  rewrite bool_decide_eq_true_2 by set_solver.
  reflexivity.
Qed.

(** X4.  Nothing asked for.  When FontForge is there and the output
    folder is made, and the three answers give no code point, the
    process says so and leaves with status 0 right after the third
    answer: it asks for no name, looks into no folder, copies
    nothing. *)
Theorem no_code_points_exit_0 env l1 l2 l3 rest :
  fst (handle unit ImportFontforge env) = inr tt ->
  fst (handle unit (Makedirs "Output") (snd (handle unit ImportFontforge env))) = inr tt ->
  specific_codepoints (strip l3) (range_codepoints (strip l1) (strip l2)) = ∅ ->
  let r := script handle env (l1 :: l2 :: l3 :: rest) in
  outcome_of r = Exit 0 /\
  stdin_of r = rest /\
  trace_of r
  = [Called ImportFontforge (inr tt); Printed MBanner; Called (Makedirs "Output") (inr tt);
     Printed MStep1; Asked PStart (Some l1); Asked PEnd (Some l2);
     Printed MStep2; Asked PSpecific (Some l3); Printed MNoCodepoints].
Proof.
  intros Hi Hm Hx r. subst r. unfold script, import_guard.
  rewrite bind_run, try_run, perform_run, Hi. cbn [outcome_of env_of stdin_of trace_of].
  unfold main. rewrite bind_run. unfold prepare.
  rewrite bind_run. cbn [print outcome_of env_of stdin_of trace_of].
  rewrite bind_run, perform_run. unfold output_folder. rewrite Hm.
  cbn [outcome_of env_of stdin_of trace_of].
  rewrite bind_run, (collect_codepoints_nothing _ l1 l2 l3 rest Hx).
  repeat split.
Qed.


(** ** A range alone *)

Lemma seqZ_ascending n : forall a, StronglySorted Z.le (seqZ a (Z.of_nat n)).
Proof.
  induction n as [|n IH]; intros a.
  - constructor.
  - rewrite seqZ_cons by lia.
    replace (Z.pred (Z.of_nat (S n))) with (Z.of_nat n) by lia.
    constructor; [apply IH|].
    apply Forall_forall. intros x Hx. apply elem_of_seqZ in Hx. lia.
Qed.

Lemma add_range_seqZ a b : add_range a b ∅ = list_to_set (seqZ a (b + 1 - a)).
Proof.
  apply set_eq. intros cp.
  rewrite elem_of_add_range, elem_of_list_to_set, elem_of_seqZ. set_solver by lia.
Qed.

Lemma sorted_of_ascending (l : list Z) :
  StronglySorted Z.le l -> NoDup l -> sorted (list_to_set l) = l.
Proof.
  intros Hs Hnd. apply (StronglySorted_unique Z.le).
  - apply Sorted_StronglySorted; [intros x y z; apply Z.le_trans|].
    apply (Sorted_merge_sort Z.le).
  - exact Hs.
  - rewrite sorted_perm. apply elements_list_to_set, Hnd.
Qed.

(** X5.  A range alone.  With a range that is read and a blank list,
    the sequence handed to the loop is [start, start + 1, ..., end]:
    [end - start + 1] code points, each once, in ascending order. *)
Theorem range_alone_is_the_interval start_s end_s a b :
  range_of start_s end_s = Some (a, b) ->
  final_codepoints start_s end_s "" = seqZ a (b - a + 1) /\
  length (final_codepoints start_s end_s "") = Z.to_nat (b - a + 1) /\
  0 < Z.of_nat (length (final_codepoints start_s end_s "")) <= 0x110000.
Proof.
  intros Hr. pose proof (range_of_bounds _ _ _ _ Hr) as (Ha & Hb & Hab).
  apply parse_hex_int_range in Ha, Hb.
  assert (Heq : final_codepoints start_s end_s "" = seqZ a (b - a + 1)).
  { unfold final_codepoints, specific_codepoints, range_codepoints. rewrite Hr.
    cbn [truthy is_empty negb]. rewrite add_range_seqZ.
    replace (b + 1 - a) with (b - a + 1) by lia.
    apply sorted_of_ascending; [|apply NoDup_seqZ].
    rewrite <- (Z2Nat.id (b - a + 1)) by lia. apply seqZ_ascending. }
  rewrite Heq, length_seqZ. repeat split; lia.
Qed.


End Questions.

Lemma no_code_points_exit_0_demo :
  outcome_of (Mock.run Mock.demo ["  "; "0041"; "zz, 110000"; "MyFont"]) = Exit 0 /\
  stdin_of (Mock.run Mock.demo ["  "; "0041"; "zz, 110000"; "MyFont"]) = ["MyFont"].
Proof.
  destruct (no_code_points_exit_0 Mock.handle Mock.demo "  " "0041" "zz, 110000" ["MyFont"])
    as (Ho & Hs & _); [reflexivity|reflexivity|vm_compute; reflexivity|].
  split; [exact Ho|exact Hs].
Defined.

Lemma range_alone_is_the_interval_demo :
  final_codepoints "0041" "0x44" "" = [0x41; 0x42; 0x43; 0x44].
Proof.
  apply (proj1 (range_alone_is_the_interval "0041" "0x44" 0x41 0x44 eq_refl)).
Defined.

(* ================================================================== *)
(** * Further properties of the preparation *)
(* ================================================================== *)

Section Preparation.

Context {Env : Type} (handle : forall T, call T -> Env -> res T * Env).

#[local] Existing Instance M_ret.
#[local] Existing Instance M_bind.

Lemma bind_ok {A B} (m : @M Env A) (k : A -> @M Env B) env inp b :
  outcome_of ((m ≫= k) env inp) = Ok b ->
  exists a,
    outcome_of (m env inp) = Ok a /\
    outcome_of (k a (env_of (m env inp)) (stdin_of (m env inp))) = Ok b.
Proof.
  rewrite outcome_bind. destruct (outcome_of (m env inp)) as [a|e|c]; [|discriminate..].
  intros H. exists a. auto.
Qed.

Lemma bind_ok_trace {A B} (m : @M Env A) (k : A -> @M Env B) env inp b :
  outcome_of ((m ≫= k) env inp) = Ok b ->
  exists a,
    outcome_of (m env inp) = Ok a /\
    outcome_of (k a (env_of (m env inp)) (stdin_of (m env inp))) = Ok b /\
    trace_of ((m ≫= k) env inp)
    = trace_of (m env inp) ++ trace_of (k a (env_of (m env inp)) (stdin_of (m env inp))).
Proof.
  rewrite trace_bind, outcome_bind.
  destruct (outcome_of (m env inp)) as [a|e|c]; [|discriminate..].
  intros H. exists a. auto.
Qed.

(** ** The questions that insist *)

Lemma ask_until_given_blank p complaint (env : Env) line rest :
  blank line = true ->
  ask_until_given p complaint env (line :: rest)
  = after (Result (Ok tt) env rest [Asked p (Some line); Printed complaint])
          (ask_until_given p complaint env rest).
Proof.
  unfold blank, truthy. intros H. cbn [ask_until_given]. unfold truthy. rewrite H. reflexivity.
Qed.

Lemma ask_until_given_answer p complaint (env : Env) line rest :
  blank line = false ->
  ask_until_given p complaint env (line :: rest)
  = Result (Ok (strip line)) env rest [Asked p (Some line)].
Proof.
  unfold blank. intros H. cbn [ask_until_given]. unfold truthy. rewrite H. reflexivity.
Qed.

Lemma ask_until_given_given p complaint (env : Env) inp : forall a,
  outcome_of (ask_until_given p complaint env inp) = Ok a -> truthy a = true.
Proof.
  induction inp as [|line rest IH]; intros a; [discriminate|].
  destruct (blank line) eqn:Hb.
  - rewrite ask_until_given_blank by exact Hb. apply IH.
  - rewrite ask_until_given_answer by exact Hb. cbn [outcome_of]. intros H. inversion H; subst.
    unfold truthy. unfold blank in Hb. rewrite Hb. reflexivity.
Qed.

(** X6.  The questions for the font name and the author are asked
    until an answer is not blank.  Every blank line before it is
    answered with the complaint; the first line that is not blank is
    returned stripped and the lines after it stay unread.  When the
    input ends on blank lines, [input] raises [EOFError] after as many
    complaints.  An answer that is returned is never empty. *)
Theorem ask_until_given_takes_first_answer p complaint (env : Env) blanks :
  forallb blank blanks = true ->
  (forall line rest,
     blank line = false ->
     ask_until_given p complaint env (blanks ++ line :: rest)
     = Result (Ok (strip line)) env rest
         (refused p complaint blanks ++ [Asked p (Some line)])) /\
  ask_until_given p complaint env blanks
  = Result (Raise EOFError) env [] (refused p complaint blanks ++ [Asked p None]) /\
  (forall inp a,
     outcome_of (ask_until_given p complaint env inp) = Ok a -> truthy a = true).
Proof.
  intros Hb. split; [|split; [|intros inp a; apply ask_until_given_given]].
  - intros line rest Hline. induction blanks as [|l blanks IH].
    + apply ask_until_given_answer, Hline.
    + cbn [forallb] in Hb. apply andb_true_iff in Hb. destruct Hb as [Hl Hb].
      rewrite <- app_comm_cons, ask_until_given_blank by exact Hl.
      rewrite (IH Hb). reflexivity.
  - induction blanks as [|l blanks IH]; [reflexivity|].
    cbn [forallb] in Hb. apply andb_true_iff in Hb. destruct Hb as [Hl Hb].
    rewrite ask_until_given_blank by exact Hl. rewrite (IH Hb). reflexivity.
Qed.

(** ** The metadata *)

Lemma read_metadata_given (env : Env) inp name author license :
  outcome_of (read_metadata env inp) = Ok (name, author, license) ->
  truthy name = true /\ truthy author = true /\ truthy license = true.
Proof.
  unfold read_metadata. intros H.
  apply bind_ok in H. destruct H as ([] & _ & H).
  apply bind_ok in H. destruct H as (n & Hn & H).
  apply bind_ok in H. destruct H as (a & Ha & H).
  apply bind_ok in H. destruct H as (line & _ & H).
  cbv zeta in H. cbn [mret M_ret outcome_of] in H. inversion H; subst.
  apply ask_until_given_given in Hn, Ha. repeat split; [exact Hn|exact Ha|].
  destruct (truthy (strip line)) eqn:Hl; [exact Hl|reflexivity].
Qed.

(** ** The code points *)

Lemma collect_codepoints_ok (env : Env) inp cps :
  outcome_of (collect_codepoints env inp) = Ok cps ->
  cps <> [] /\ StronglySorted Z.lt cps /\ Forall (fun cp => 0 <= cp <= 0x10FFFF) cps.
Proof.
  intros H.
  destruct inp as [|l1 [|l2 [|l3 rest]]];
    try (rewrite collect_codepoints_short in H by (simpl; lia); discriminate).
  destruct (collect_codepoints_run env l1 l2 l3 rest) as [Ho _]. rewrite Ho in H.
  destruct (bool_decide_reflect
              (specific_codepoints (strip l3) (range_codepoints (strip l1) (strip l2)) = ∅))
    as [|Hne]; [discriminate|].
  inversion H; subst. split; [|split].
  - intros Hnil. apply Hne. apply set_eq. intros cp.
    rewrite <- elem_of_sorted, Hnil. set_solver.
  - apply sorted_ascending.
  - apply Forall_forall. intros cp Hcp. apply elem_of_sorted in Hcp.
    rewrite specific_codepoints_listed in Hcp. apply elem_of_union in Hcp.
    destruct Hcp as [Hcp|Hcp].
    + apply elem_of_range_codepoints in Hcp.
      destruct Hcp as (_ & _ & a & b & Ha & Hb & Hab).
      apply parse_hex_int_range in Ha, Hb. lia.
    + apply elem_of_list_to_set in Hcp. unfold listed in Hcp.
      destruct (truthy (strip l3)); [|inversion Hcp].
      apply list_elem_of_omap in Hcp. destruct Hcp as (part & _ & Hp).
      eapply parse_hex_int_range, Hp.
Qed.

(** ** The choice of a font *)

Lemma find_font_files_ok folder env inp files :
  outcome_of (find_font_files handle folder env inp) = Ok files ->
  stdin_of (find_font_files handle folder env inp) = inp /\
  ((files = [] /\
    trace_of (find_font_files handle folder env inp) = [Called (IsDir folder) (inr false)]) \/
   exists names,
     files = List.filter is_font_name names /\
     trace_of (find_font_files handle folder env inp)
     = [Called (IsDir folder) (inr true); Called (ListDir folder) (inr names)]).
Proof.
  unfold find_font_files. rewrite bind_run, perform_run.
  destruct (handle bool (IsDir folder) env) as [[e|[]] env1]; simpl; [discriminate| |].
  - rewrite bind_run, perform_run.
    destruct (handle (list string) (ListDir folder) env1) as [[e|names] env2]; simpl;
      [discriminate|].
    intros H. inversion H; subst. split; [reflexivity|]. right. exists names. auto.
  - intros H. inversion H; subst. auto.
Qed.

Lemma listing_run {A} (l : list A) (line : A -> msg) (env : Env) inp :
  for_each l (fun entry _ => print (line entry)) tt env inp
  = Result (Ok tt) env inp (map (fun entry => Printed (line entry)) l).
Proof.
  induction l as [|x l IH]; [reflexivity|].
  cbn [for_each]. rewrite bind_run. cbn [print outcome_of env_of stdin_of].
  rewrite IH. reflexivity.
Qed.

Lemma py_index_elem {A} (l : list A) i x : py_index l i = Some x -> x ∈ l.
Proof.
  unfold py_index. destruct (0 <=? i); [apply list_elem_of_lookup_2|].
  destruct (- Z.of_nat (length l) <=? i); [apply list_elem_of_lookup_2|discriminate].
Qed.

Lemma pick_elem files first choice : first ∈ files -> pick files first choice ∈ files.
Proof.
  intros Hf. unfold pick.
  destruct (if truthy choice then py_int 10 choice else Some 0) as [idx|]; [|exact Hf].
  destruct (py_index files idx) as [f|] eqn:Hi; [|exact Hf].
  eapply py_index_elem, Hi.
Qed.

Lemma choose_file_ok folder role env inp path :
  let r := choose_file handle folder role env inp in
  outcome_of r = Ok (Some path) ->
  (exists names f,
     Called (ListDir folder) (inr names) ∈ trace_of r /\
     f ∈ names /\ is_font_name f = true /\ path = path_join folder f) /\
  (stdin_of r = inp \/ exists line, inp = line :: stdin_of r).
Proof.
  intros r. subst r. unfold choose_file. rewrite bind_run.
  destruct (outcome_of (find_font_files handle folder env inp)) as [files|e|c] eqn:Hf;
    [|discriminate..].
  destruct (find_font_files_ok folder env inp files Hf) as [Hin [[-> _]|(names & -> & Htr)]].
  { cbn. discriminate. }
  assert (Hlist : forall f, f ∈ List.filter is_font_name names ->
            f ∈ names /\ is_font_name f = true).
  { intros f Hfin. apply list_elem_of_In, filter_In in Hfin.
    rewrite <- list_elem_of_In in Hfin. tauto. }
  assert (Hseen : forall tail,
            Called (ListDir folder) (inr names)
              ∈ trace_of (find_font_files handle folder env inp) ++ tail).
  { intros tail. rewrite Htr. apply elem_of_app. left. rewrite !elem_of_cons. auto. }
  destruct (List.filter is_font_name names) as [|first [|second more]] eqn:Hfiles.
  - cbn. discriminate.
  - cbn [after outcome_of stdin_of trace_of]. rewrite bind_run.
    cbn [print outcome_of env_of stdin_of trace_of after mret M_ret].
    intros H. injection H as <-. split; [|left; exact Hin].
    exists names, first. destruct (Hlist first) as [H1 H2]; [rewrite elem_of_cons; auto|].
    repeat split; auto.
  - cbn [after outcome_of stdin_of trace_of]. rewrite bind_run.
    cbn [print outcome_of env_of stdin_of trace_of after].
    rewrite bind_run, listing_run. cbn [outcome_of env_of stdin_of trace_of after].
    rewrite bind_run. rewrite Hin.
    destruct inp as [|line rest]; [cbn; discriminate|].
    cbn [input outcome_of env_of stdin_of trace_of after mret M_ret].
    intros H. injection H as <-. split; [|right; exists line; reflexivity].
    exists names, (pick (first :: second :: more) first (strip line)).
    destruct (Hlist (pick (first :: second :: more) first (strip line))) as [H1 H2].
    { apply pick_elem. rewrite elem_of_cons. auto. }
    repeat split; auto.
Qed.

Lemma select_fonts_ok s d env inp sp dp :
  outcome_of (select_fonts handle s d env inp) = Ok (sp, dp) ->
  (exists f, is_font_name f = true /\ sp = path_join s f) /\
  (exists f, is_font_name f = true /\ dp = path_join d f).
Proof.
  unfold select_fonts. intros H.
  apply bind_ok in H. destruct H as (a & Ha & H).
  apply bind_ok in H. destruct H as (b & Hb & H).
  destruct a as [a|]; [|discriminate]. destruct b as [b|]; [|discriminate].
  destruct (usable (Some a) && usable (Some b)); [|discriminate].
  cbn in H. inversion H; subst.
  destruct (choose_file_ok _ _ _ _ _ Ha) as [(n1 & f1 & _ & _ & H1 & ->) _].
  destruct (choose_file_ok _ _ _ _ _ Hb) as [(n2 & f2 & _ & _ & H2 & ->) _].
  split; eauto.
Qed.

(** X7.  What the questions settle.  When the preparation returns,
    there is at least one code point, the code points are strictly
    ascending and lie in [0, 0x10FFFF], the font name, the author and
    the license text are not empty, and the two font paths are a file
    of [Source] and a file of [Destination] whose names end in [.ttf]
    or [.otf], whatever the case. *)
Theorem prepare_settles_everything env inp p :
  outcome_of (prepare handle env inp) = Ok p ->
  plan_codepoints p <> [] /\
  StronglySorted Z.lt (plan_codepoints p) /\
  Forall (fun cp => 0 <= cp <= 0x10FFFF) (plan_codepoints p) /\
  truthy (plan_font_name p) = true /\
  truthy (plan_author p) = true /\
  truthy (plan_license p) = true /\
  (exists f, is_font_name f = true /\ plan_source p = path_join "Source" f) /\
  (exists f, is_font_name f = true /\ plan_dest p = path_join "Destination" f).
Proof.
  unfold prepare. intros H.
  apply bind_ok in H. destruct H as ([] & _ & H).
  apply bind_ok in H. destruct H as ([] & _ & H).
  apply bind_ok in H. destruct H as (cps & Hc & H).
  apply bind_ok in H. destruct H as ([[name author] license] & Hm & H).
  apply bind_ok in H. destruct H as ([sp dp] & Hs & H).
  cbn in H. inversion H; subst. cbn [plan_codepoints plan_font_name plan_author plan_license
                                     plan_source plan_dest].
  destruct (collect_codepoints_ok _ _ _ Hc) as (Hne & Hsorted & Hrange).
  destruct (read_metadata_given _ _ _ _ _ Hm) as (Hn & Ha & Hl).
  destruct (select_fonts_ok _ _ _ _ _ _ Hs) as [Hsp Hdp].
  repeat split; assumption.
Qed.

(** ** The index typed for a font *)

(** X8.  The number typed to choose among several fonts is used as a
    Python index: from 0 to the number of fonts less one it counts
    from the first font, from -1 down to minus the number of fonts it
    counts from the last, and anything else -- a blank answer apart,
    which is 0 -- falls back to the first font: a number out of range
    and an answer that [int] does not read never fail.  The font
    picked is always one of the list. *)
Theorem pick_is_a_python_index first others choice :
  let files := first :: others in
  let n := Z.of_nat (length files) in
  pick files first choice ∈ files /\
  (truthy choice = false -> pick files first choice = first) /\
  (py_int 10 choice = None -> pick files first choice = first) /\
  (forall i,
     truthy choice = true -> py_int 10 choice = Some i ->
     (0 <= i < n -> files !! Z.to_nat i = Some (pick files first choice)) /\
     (- n <= i < 0 -> files !! Z.to_nat (n + i) = Some (pick files first choice)) /\
     (i < - n \/ n <= i -> pick files first choice = first)).
Proof.
  intros files n. split; [apply pick_elem; subst files; rewrite elem_of_cons; auto|].
  split; [|split].
  - intros Hc. unfold pick. rewrite Hc. reflexivity.
  - intros Hc. unfold pick. destruct (truthy choice); [rewrite Hc|]; reflexivity.
  - intros i Ht Hi. unfold pick. rewrite Ht, Hi. unfold py_index. fold n.
    destruct (Z.leb_spec 0 i) as [Hpos|Hneg].
    + split; [|split].
      * intros Hlt. destruct (lookup_lt_is_Some_2 files (Z.to_nat i)) as [f Hf];
          [subst n; lia|]. rewrite Hf. reflexivity.
      * lia.
      * intros [Hlo|Hhi]; [lia|].
        rewrite (lookup_ge_None_2 files (Z.to_nat i)) by (subst n; lia). reflexivity.
    + destruct (Z.leb_spec (- n) i) as [Hin|Hout].
      * split; [lia|]. split; [|lia].
        intros _. destruct (lookup_lt_is_Some_2 files (Z.to_nat (n + i))) as [f Hf];
          [subst n; lia|]. rewrite Hf. reflexivity.
      * split; [lia|]. split; [lia|]. reflexivity.
Qed.

(** X9.  The path of a chosen font.  When the choice of a font
    returns a path, the folder was listed, the path is [os.path.join]
    of the folder and one of the listed names, and that name ends in
    [.ttf] or [.otf] in some case; at most one line of input was
    read. *)
Theorem choose_file_returns_a_listed_font folder role env inp path :
  let r := choose_file handle folder role env inp in
  outcome_of r = Ok (Some path) ->
  (exists names f,
     Called (ListDir folder) (inr names) ∈ trace_of r /\
     f ∈ names /\ is_font_name f = true /\ path = path_join folder f) /\
  (stdin_of r = inp \/ exists line, inp = line :: stdin_of r).
Proof. apply choose_file_ok. Qed.

End Preparation.

Lemma ask_until_given_takes_first_answer_demo :
  ask_until_given PFontName MFontNameEmpty tt ([""; "   "] ++ " My Font " :: ["Ann"])
  = Result (Ok "My Font") tt ["Ann"]
      (refused PFontName MFontNameEmpty [""; "   "] ++ [Asked PFontName (Some " My Font ")]).
Proof.
  apply (proj1 (ask_until_given_takes_first_answer PFontName MFontNameEmpty tt [""; "   "]
                  eq_refl) " My Font " ["Ann"]).
  reflexivity.
Defined.

Lemma prepare_settles_everything_demo :
  let p := Plan [0x41; 0x42; 0x43; 0x44] "MyFont" "Ann"
             (copyright_sign +:+ " Ann All rights reserved")
             "Source/src.ttf" "Destination/dest.otf" in
  outcome_of (prepare Mock.handle Mock.demo (Mock.answers "1")) = Ok p /\
  plan_codepoints p <> [] /\
  StronglySorted Z.lt (plan_codepoints p) /\
  truthy (plan_license p) = true.
Proof.
  intros p.
  assert (H : outcome_of (prepare Mock.handle Mock.demo (Mock.answers "1")) = Ok p)
    by (vm_compute; reflexivity).
  destruct (prepare_settles_everything Mock.handle Mock.demo (Mock.answers "1") p H)
    as (H1 & H2 & _ & _ & _ & H3 & _).
  repeat split; assumption.
Defined.

Lemma pick_is_a_python_index_demo :
  ["a.ttf"; "b.ttf"; "c.otf"] !! Z.to_nat (3 + -1)
  = Some (pick ["a.ttf"; "b.ttf"; "c.otf"] "a.ttf" "-1") /\
  pick ["a.ttf"; "b.ttf"; "c.otf"] "a.ttf" "7" = "a.ttf" /\
  pick ["a.ttf"; "b.ttf"; "c.otf"] "a.ttf" "two" = "a.ttf".
Proof.
  destruct (pick_is_a_python_index "a.ttf" ["b.ttf"; "c.otf"] "-1") as (_ & _ & _ & Hlast).
  destruct (pick_is_a_python_index "a.ttf" ["b.ttf"; "c.otf"] "7") as (_ & _ & _ & Hbig).
  destruct (pick_is_a_python_index "a.ttf" ["b.ttf"; "c.otf"] "two") as (_ & _ & Hword & _).
  split; [|split].
  - apply (Hlast (-1)); [reflexivity|reflexivity|simpl; lia].
  - apply (Hbig 7); [reflexivity|reflexivity|simpl; lia].
  - apply Hword. reflexivity.
Defined.

Lemma choose_file_returns_a_listed_font_demo :
  exists names f,
    Called (ListDir "Source") (inr names)
      ∈ trace_of (choose_file Mock.handle "Source" "Source" Mock.demo []) /\
    f ∈ names /\ is_font_name f = true /\ "Source/src.ttf" = path_join "Source" f.
Proof.
  apply (choose_file_returns_a_listed_font Mock.handle "Source" "Source" Mock.demo []
           "Source/src.ttf").
  reflexivity.
Defined.

(* ================================================================== *)
(** * The plan and the run *)
(* ================================================================== *)

Section Plan.

Context {Env : Type} (handle : forall T, call T -> Env -> res T * Env).

#[local] Existing Instance M_ret.
#[local] Existing Instance M_bind.

Lemma ask_until_given_asked p complaint (env : Env) inp : forall a,
  outcome_of (ask_until_given p complaint env inp) = Ok a ->
  answered p a (trace_of (ask_until_given p complaint env inp)).
Proof.
  induction inp as [|line rest IH]; intros a; [discriminate|].
  cbn [ask_until_given]. destruct (truthy (strip line)).
  - cbn [outcome_of trace_of]. intros H. injection H as <-.
    exists line. split; [apply list_elem_of_here|reflexivity].
  - cbn [after outcome_of trace_of]. intros H. destruct (IH a H) as (l & Hin & ->).
    exists l. split; [|reflexivity]. do 2 apply list_elem_of_further. exact Hin.
Qed.

Lemma font_of_app_l folder path a b : font_of folder path a -> font_of folder path (a ++ b).
Proof.
  intros (names & f & Hin & H). exists names, f. split; [|exact H].
  apply elem_of_app. auto.
Qed.

Lemma font_of_app_r folder path a b : font_of folder path b -> font_of folder path (a ++ b).
Proof.
  intros (names & f & Hin & H). exists names, f. split; [|exact H].
  apply elem_of_app. auto.
Qed.

Lemma answered_app_l p x a b : answered p x a -> answered p x (a ++ b).
Proof. intros (l & Hin & H). exists l. split; [apply elem_of_app; auto|exact H]. Qed.

Lemma answered_app_r p x a b : answered p x b -> answered p x (a ++ b).
Proof. intros (l & Hin & H). exists l. split; [apply elem_of_app; auto|exact H]. Qed.

Lemma choose_file_font_of folder role env inp path :
  outcome_of (choose_file handle folder role env inp) = Ok (Some path) ->
  font_of folder path (trace_of (choose_file handle folder role env inp)).
Proof. intros H. apply (choose_file_ok handle _ _ _ _ _ H). Qed.

Lemma select_fonts_font_of s d env inp sp dp :
  outcome_of (select_fonts handle s d env inp) = Ok (sp, dp) ->
  font_of s sp (trace_of (select_fonts handle s d env inp)) /\
  font_of d dp (trace_of (select_fonts handle s d env inp)).
Proof.
  unfold select_fonts. intros H.
  apply bind_ok_trace in H. destruct H as (a & Ha & H & ->).
  apply bind_ok_trace in H. destruct H as (b & Hb & H & ->).
  destruct a as [a|]; [|discriminate]. destruct b as [b|]; [|discriminate].
  destruct (usable (Some a) && usable (Some b)); [|discriminate].
  cbn in H. injection H as <- <-. split.
  - apply font_of_app_l, choose_file_font_of, Ha.
  - apply font_of_app_r, font_of_app_l, choose_file_font_of, Hb.
Qed.

Lemma read_metadata_answered (env : Env) inp name author license :
  outcome_of (read_metadata env inp) = Ok (name, author, license) ->
  answered PFontName name (trace_of (read_metadata env inp)).
Proof.
  unfold read_metadata. intros H.
  apply bind_ok_trace in H. destruct H as ([] & _ & H & ->).
  apply bind_ok_trace in H. destruct H as (n & Hn & H & ->).
  apply bind_ok_trace in H. destruct H as (a & Ha & H & ->).
  apply bind_ok_trace in H. destruct H as (line & _ & H & ->).
  cbv zeta in H. cbn [mret M_ret outcome_of] in H. injection H as <- _ _.
  apply answered_app_r, answered_app_l, ask_until_given_asked, Hn.
Qed.

(** What ties the plan to the run: the two fonts are files that the
    listings of [Source] and [Destination] showed, and the font name
    is the answer to its question. *)
Lemma prepare_plan env inp p :
  outcome_of (prepare handle env inp) = Ok p ->
  font_of source_folder (plan_source p) (trace_of (prepare handle env inp)) /\
  font_of dest_folder (plan_dest p) (trace_of (prepare handle env inp)) /\
  answered PFontName (plan_font_name p) (trace_of (prepare handle env inp)).
Proof.
  unfold prepare. intros H.
  apply bind_ok_trace in H. destruct H as ([] & _ & H & ->).
  apply bind_ok_trace in H. destruct H as ([] & _ & H & ->).
  apply bind_ok_trace in H. destruct H as (cps & _ & H & ->).
  apply bind_ok_trace in H. destruct H as ([[name author] license] & Hm & H & ->).
  apply bind_ok_trace in H. destruct H as ([sp dp] & Hs & H & ->).
  cbn in H. injection H as <-. cbn [plan_source plan_dest plan_font_name].
  destruct (select_fonts_font_of _ _ _ _ _ _ Hs) as [Hsp Hdp].
  apply read_metadata_answered in Hm.
  repeat split.
  - do 3 apply font_of_app_r. do 1 apply font_of_app_r. apply font_of_app_l, Hsp.
  - do 3 apply font_of_app_r. do 1 apply font_of_app_r. apply font_of_app_l, Hdp.
  - do 3 apply answered_app_r. apply answered_app_l, Hm.
Qed.

End Plan.

(* ================================================================== *)
(** * Further properties of the work on the fonts *)
(* ================================================================== *)

Section Transfer.

Context {Env : Type} (handle : forall T, call T -> Env -> res T * Env).

#[local] Existing Instance M_ret.
#[local] Existing Instance M_bind.

(** ** The output path *)

Lemma lower_app a b : lower (a +:+ b) = lower a +:+ lower b.
Proof. induction a as [|c r IH]; simpl; [reflexivity|]. rewrite IH. reflexivity. Qed.

Lemma endswith_refl s : endswith s s = true.
Proof. destruct s; simpl; [reflexivity|]. rewrite Ascii.eqb_refl, String.eqb_refl. reflexivity. Qed.

Lemma endswith_app_l suf a t : endswith suf t = true -> endswith suf (a +:+ t) = true.
Proof.
  intros H. induction a as [|c r IH]; [exact H|].
  change (String c r +:+ t) with (String c (r +:+ t)).
  cbn [endswith]. rewrite IH. apply orb_true_r.
Qed.

Lemma is_font_name_ext p ext :
  ext = ".ttf" \/ ext = ".otf" -> endswith ext (lower p) = true -> is_font_name p = true.
Proof.
  intros Hext H. unfold is_font_name, endswith_any. cbn [existsb].
  destruct Hext as [->| ->]; rewrite H; [reflexivity|apply orb_true_r].
Qed.

(** X10.  The output path always names a font file: it ends in the
    extension chosen for it, [.ttf] or [.otf] in lower case, so the
    search of [find_font_files] would accept it. *)
Theorem output_path_is_a_font_file dest name :
  endswith (output_ext dest) (output_path_of output_folder dest name) = true /\
  is_font_name (output_path_of output_folder dest name) = true.
Proof.
  pose proof (output_ext_cases dest) as Hext.
  assert (Hlow : lower (output_ext dest) = output_ext dest)
    by (destruct Hext as [-> | ->]; reflexivity).
  rewrite output_path_of_cases.
  destruct (startswith "/" name).
  - split; [apply endswith_app_l, endswith_refl|].
    apply (is_font_name_ext _ _ Hext). rewrite lower_app, Hlow.
    apply endswith_app_l, endswith_refl.
  - split; [apply endswith_app_l, endswith_app_l, endswith_refl|].
    apply (is_font_name_ext _ _ Hext). rewrite !lower_app, Hlow.
    apply endswith_app_l, endswith_app_l, endswith_refl.
Qed.

(** ** The PostScript name *)

Lemma remove_char_spaceless s : spaceless (remove_char " " s) = true.
Proof.
  unfold spaceless. induction s as [|c r IH]; [reflexivity|].
  cbn [remove_char]. destruct (Ascii.eqb c " ") eqn:Hc; [exact IH|].
  cbn [every]. rewrite Hc, IH. reflexivity.
Qed.

Lemma remove_char_id s : spaceless s = true -> remove_char " " s = s.
Proof.
  unfold spaceless. induction s as [|c r IH]; [reflexivity|].
  cbn [every remove_char]. rewrite andb_true_iff, negb_true_iff. intros [-> Hr].
  rewrite (IH Hr). reflexivity.
Qed.

Ltac leaf' :=
  repeat constructor;
  cbv [fontname_spaceless mode_known confined quiet harmless font_written saved copied
       reaches_output slot_of printed silent negb andb];
  rewrite ?Nat.eqb_refl, ?String.eqb_refl, ?Z.eqb_refl;
  first [reflexivity | apply remove_char_spaceless].

Lemma script_fontname_spaceless :
  traces (Forall (fun ev => fontname_spaceless ev = true)) (script handle).
Proof.
  pose proof (closed_Forall (fun ev => fontname_spaceless ev = true)) as HP.
  walk; leaf'.
Qed.

(** X11.  The PostScript name.  In every run, a font name that is set
    holds no blank: it is the name that was typed with its blanks
    taken out, and the name itself when it has none. *)
Theorem fontname_never_has_a_blank env inp :
  Forall (fun ev => fontname_spaceless ev = true) (trace_of (script handle env inp)) /\
  (forall out name author license env' inp',
     exists r rest,
       trace_of (set_metadata handle out name author license env' inp')
       = Called (SetFontname out (remove_char " " name)) r :: rest) /\
  (forall name, spaceless name = true -> remove_char " " name = name) /\
  remove_char " " "My  Font 2" = "MyFont2".
Proof.
  split; [apply script_fontname_spaceless|]. split; [|split; [apply remove_char_id|reflexivity]].
  intros out name author license env' inp'. unfold set_metadata.
  rewrite trace_bind, perform_run. eexists _, _. reflexivity.
Qed.

(** ** A source font of zero units per em *)

Lemma py_truediv_zero a b fa :
  to_float a = inr fa -> is_zero_num b = true -> py_truediv a b = inl ZeroDivisionError.
Proof.
  intros Ha Hb. destruct b as [y|fb]; cbn [is_zero_num] in Hb.
  - apply Z.eqb_eq in Hb. subst y. destruct a as [x|f]; [reflexivity|].
    cbn in Ha. inversion Ha; subst. reflexivity.
  - unfold py_truediv. destruct a as [x|f].
    + rewrite Ha. cbn [to_float]. rewrite Hb. reflexivity.
    + cbn [to_float]. rewrite Hb. reflexivity.
Qed.

(** X12.  Division by zero.  When the metadata is set and the source
    font answers 0 for its units per em, the quotient of line 157
    raises [ZeroDivisionError]; nothing catches it, so the work on
    the fonts ends there: after the two reads nothing is printed, no
    glyph is touched, nothing is saved and no font is closed. *)
Theorem zero_source_em_stops_the_run
    cps name author license output_path src out env inp a b fa :
  let m := set_metadata handle out name author license env inp in
  outcome_of m = Ok tt ->
  fst (handle pynum (GetEm out) (env_of m)) = inr a ->
  fst (handle pynum (GetEm src) (snd (handle pynum (GetEm out) (env_of m)))) = inr b ->
  to_float a = inr fa ->
  is_zero_num b = true ->
  let r := transplant handle cps name author license output_path src out env inp in
  outcome_of r = Raise ZeroDivisionError /\
  trace_of r = trace_of m ++ [Called (GetEm out) (inr a); Called (GetEm src) (inr b)].
Proof.
  intros m Hm Ha Hb Hfa Hz r. subst r. unfold transplant.
  rewrite bind_run. fold m. rewrite Hm. unfold compute_scale.
  rewrite !bind_run, !perform_run. cbn [outcome_of env_of stdin_of trace_of after].
  rewrite Ha. cbn [outcome_of env_of stdin_of trace_of after].
  rewrite !bind_run, !perform_run.  cbn [outcome_of env_of stdin_of trace_of after].
  rewrite Hb. cbn [outcome_of env_of stdin_of trace_of after].
  rewrite !bind_run. rewrite (py_truediv_zero a b fa Hfa Hz).
  cbn. split; reflexivity.
Qed.

(** ** The alignment *)

Lemma script_mode_known :
  traces (Forall (fun ev => mode_known ev = true)) (script handle).
Proof.
  pose proof (closed_Forall (fun ev => mode_known ev = true)) as HP.
  walk; try leaf'.
  repeat constructor. cbv [mode_known].
  match goal with
  | |- context [if ?b then _ else _] => destruct b eqn:Hb; [exact Hb|reflexivity]
  end.
Qed.

(** X13.  The alignment modes.  The mode a run reports is always 1, 2
    or 3.  In the replacement of one glyph under mode 3 the vertical
    part of the translation is the bottom of the old box minus the
    bottom of the new, when the output font had an outputtable glyph
    there, and 0 when it had none; under any mode but 2 and 3 it is
    always 0.  The translation is made all the same. *)
Theorem mode_3_and_mode_1 src out scale align cp env inp :
  Forall (fun ev => mode_known ev = true) (trace_of (script handle env inp)) /\
  forall pre ev post f c x y,
    trace_of (replace_glyph handle src out scale align cp env inp) = pre ++ ev :: post ->
    translation_of ev = Some (f, c, x, y) ->
    f = out /\ c = cp /\ x = PyInt 0 /\
    exists between new_box,
      pre = trace_of (old_bounds handle out cp env inp) ++ between ++
            [Called (BoundingBox out cp) (inr new_box)] /\
      (align = "3" ->
       (outcome_of (has_glyph handle out cp env inp) = Ok true /\
        exists old_box,
          trace_of (old_bounds handle out cp env inp)
            = trace_of (has_glyph handle out cp env inp) ++
              [Called (BoundingBox out cp) (inr old_box)] /\
          py_sub (ymin old_box) (ymin new_box) = inr y) \/
       (outcome_of (has_glyph handle out cp env inp) = Ok false /\ y = PyInt 0)) /\
      (align <> "2" -> align <> "3" -> y = PyInt 0).
Proof.
  split; [apply script_mode_known|].
  intros pre ev post f c x y Heq Ht.
  destruct (replace_glyph_translation handle _ _ _ _ _ _ _ _ _ _ _ _ _ _ Heq Ht)
    as (Hf & Hc & Hx & top & bot & between & new_box & Hold & Hpre & Hs).
  repeat split; auto. exists between, new_box. split; [exact Hpre|]. split.
  - intros ->.
    destruct (old_bounds_cases handle _ _ _ _ _ _ Hold)
      as [(Hchk & b & -> & -> & Htr)|(Hchk & -> & -> & Htr)].
    + left. split; [exact Hchk|]. exists b. split; [exact Htr|exact Hs].
    + right. split; [exact Hchk|]. cbn in Hs. inversion Hs. reflexivity.
  - intros H2 H3. unfold vertical_shift in Hs.
    destruct (String.eqb_spec align "2"); [contradiction|].
    destruct (String.eqb_spec align "3"); [contradiction|].
    inversion Hs. reflexivity.
Qed.

End Transfer.

Lemma fontname_never_has_a_blank_demo :
  remove_char " " "MyFont" = "MyFont".
Proof.
  apply (proj1 (proj2 (proj2 (fontname_never_has_a_blank Mock.handle Mock.demo [])))).
  reflexivity.
Defined.

Lemma zero_source_em_stops_the_run_demo :
  let w := Mock.World true ["src.ttf"] ["dest.otf"] [] 0 1000 [] (Mock.flat 0 0) [] [] None [] in
  outcome_of (transplant Mock.handle [0x41] "MyFont" "Ann" "-" "Output/MyFont.otf"
                0%nat 1%nat w ["1"])
  = Raise ZeroDivisionError.
Proof.
  intros w.
  apply (zero_source_em_stops_the_run Mock.handle [0x41] "MyFont" "Ann" "-" "Output/MyFont.otf"
           0%nat 1%nat w ["1"] (PyInt 1000) (PyInt 0)
           (binary_normalize prec emax 1000 0 false));
    reflexivity.
Defined.

Lemma mode_3_and_mode_1_demo :
  (let tr := trace_of (replace_glyph Mock.handle 0%nat 1%nat (Mock.num 1) "3" 0x41
                         Mock.demo []) in
   exists old_box new_box,
     In (Called (BoundingBox 1%nat 0x41) (inr new_box)) (upto translates tr) /\
     py_sub (ymin old_box) (ymin new_box) = inr (Mock.num (-10))) /\
  (let tr := trace_of (replace_glyph Mock.handle 0%nat 1%nat (Mock.num 1) "1" 0x41
                         Mock.demo []) in
   exists new_box,
     In (Called (BoundingBox 1%nat 0x41) (inr new_box)) (upto translates tr) /\
     translation_of (hit translates tr) = Some (1%nat, 0x41, PyInt 0, PyInt 0)).
Proof.
  split.
  - intros tr.
    destruct (proj2 (mode_3_and_mode_1 Mock.handle 0%nat 1%nat (Mock.num 1) "3" 0x41
                       Mock.demo [])
                (upto translates tr) (hit translates tr) (beyond translates tr)
                1%nat 0x41 (PyInt 0) (Mock.num (-10)))
      as (_ & _ & _ & between & new_box & Hpre & H3 & _).
    + vm_compute. reflexivity.
    + vm_compute. reflexivity.
    + destruct (H3 eq_refl) as [(_ & old_box & _ & Hsub)|(Hnone & _)].
      * exists old_box, new_box. split; [|exact Hsub].
        rewrite Hpre. apply in_or_app. right. apply in_or_app. right. left. reflexivity.
      * vm_compute in Hnone. discriminate Hnone.
  - intros tr.
    destruct (proj2 (mode_3_and_mode_1 Mock.handle 0%nat 1%nat (Mock.num 1) "1" 0x41
                       Mock.demo [])
                (upto translates tr) (hit translates tr) (beyond translates tr)
                1%nat 0x41 (PyInt 0) (PyInt 0))
      as (_ & _ & _ & between & new_box & Hpre & _ & _).
    + vm_compute. reflexivity.
    + vm_compute. reflexivity.
    + exists new_box. split; [|vm_compute; reflexivity].
      rewrite Hpre. apply in_or_app. right. apply in_or_app. right. left. reflexivity.
Defined.

(* ================================================================== *)
(** * Further properties of whole runs *)
(* ================================================================== *)

Section WholeRuns.

Context {Env : Type} (handle : forall T, call T -> Env -> res T * Env).

#[local] Existing Instance M_ret.
#[local] Existing Instance M_bind.

Local Abbreviation M := (@M Env).

(** ** After the save *)

Lemma closing_after_save_closed : closed closing_after_save.
Proof.
  split.
  - intros [|? ?] ev post H; discriminate H.
  - intros a b Ha Hb pre ev post Heq Hev.
    destruct (app_eq_app _ _ _ _ Heq) as (l & [(Hl & Hr)|(Hl & Hr)]).
    + destruct l as [|x l].
      * simpl in Hr. rewrite app_nil_r in Hl. subst pre.
        destruct (Hb [] ev post (eq_sym Hr) Hev) as (out & path & Hin & _).
        inversion Hin.
      * simpl in Hr. inversion Hr; subst. eapply Ha; [|exact Hev]. reflexivity.
    + destruct (Hb l ev post Hr Hev) as (out & path & Hin & Hp).
      exists out, path. split; [|exact Hp]. subst pre. apply elem_of_app. auto.
Qed.

Lemma closing_after_save_other tr :
  Forall (fun ev => closes_run ev = false) tr -> closing_after_save tr.
Proof.
  intros H pre ev post -> Hev. rewrite Forall_forall in H.
  assert (ev ∈ pre ++ ev :: post) as Hin by (rewrite elem_of_app, elem_of_cons; auto).
  apply H in Hin. congruence.
Qed.

Lemma save_and_close_after_save src out output_path counts :
  traces closing_after_save (save_and_close handle src out output_path counts).
Proof.
  intros env inp. unfold save_and_close. rewrite bind_run, perform_run.
  destruct (handle unit (Generate out output_path) env) as [[e|[]] env1];
    cbn [fst snd outcome_of stop after trace_of].
  - apply closing_after_save_other. repeat constructor.
  - intros pre ev post Heq Hev. exists out, output_path.
    destruct pre as [|x pre]; cbn [app] in Heq; injection Heq as <- Heq.
    + discriminate Hev.
    + split; [rewrite elem_of_cons; auto|].
      intros p ->.
      assert (Hin : Printed (MSaved p) ∈ pre ++ Printed (MSaved p) :: post)
        by (rewrite elem_of_app, elem_of_cons; auto).
      rewrite <- Heq in Hin. clear Heq.
      rewrite !elem_of_cons in Hin.
      destruct Hin as [H|[H|[H|H]]]; [discriminate H|discriminate H| |].
      * injection H as ->. reflexivity.
      * exfalso. rewrite trace_bind, perform_run in H. cbn [trace_of outcome_of] in H.
        rewrite elem_of_app, elem_of_cons in H.
        destruct H as [[H|H]|H]; [discriminate H|inversion H|].
        destruct (fst (handle unit (Close src) env1)); [inversion H|].
        rewrite perform_run in H. cbn [trace_of] in H.
        rewrite elem_of_cons in H. destruct H as [H|H]; [discriminate H|inversion H].
Qed.

Ltac unfold_script :=
  unfold script, import_guard, main, prepare, collect_codepoints, read_range, read_specific,
    add_specific, read_metadata, select_fonts, choose_file, find_font_files, open_fonts,
    transplant, set_metadata, compute_scale, choose_alignment, transfer_and_save,
    transfer_loop, transfer_glyph, replace_glyph, old_bounds, has_glyph, clear_and_paste,
    align_y, copy_bearings.

Ltac walk_whole ::=
  match goal with
  | |- traces closing_after_save (save_and_close _ _ _ _ _) =>
      apply save_and_close_after_save
  end.

Lemma script_closing_after_save : traces closing_after_save (script handle).
Proof.
  pose proof closing_after_save_closed as HP.
  unfold_script. repeat walk_step;
    (apply closing_after_save_other; repeat constructor).
Qed.

Ltac walk_whole ::= fail.

(** X14.  After the save.  In every run, the lines [Done.],
    [Replaced ..., skipped ...] and [Output saved: ...] and the
    closing of a font come only after a call of [generate] that went
    through, and the path the last line shows is the path that call
    saved to. *)
Theorem closing_lines_follow_the_save env inp :
  forall pre ev post,
    trace_of (script handle env inp) = pre ++ ev :: post ->
    closes_run ev = true ->
    exists out path,
      Called (Generate out path) (inr tt) ∈ pre /\
      forall p, ev = Printed (MSaved p) -> p = path.
Proof. apply script_closing_after_save. Qed.


(** ** What nothing catches *)

Lemma stops_when_caught {A} (r : @result Env A) :
  Forall (fun ev => caught ev = true) (trace_of r) -> stops_at_failure r.
Proof.
  intros H pre ev post e Heq Hev. rewrite Forall_forall in H.
  assert (ev ∈ trace_of r) as Hin by (rewrite Heq, elem_of_app, elem_of_cons; auto).
  apply H in Hin. unfold caught in Hin. rewrite Hev in Hin. discriminate.
Qed.

Lemma halts_ret {A} (a : A) : halts (mret a : M A).
Proof. intros env inp. apply stops_when_caught. constructor. Qed.

Lemma halts_raise {A} e : halts (raise e : M A).
Proof. intros env inp. apply stops_when_caught. constructor. Qed.

Lemma halts_exit {A} c : halts (sys_exit c : M A).
Proof. intros env inp. apply stops_when_caught. constructor. Qed.

Lemma halts_lift {A} (x : res A) : halts (lift x : M A).
Proof. destruct x; [apply halts_raise|apply halts_ret]. Qed.

Lemma halts_print m : halts (print m : M unit).
Proof. intros env inp. apply stops_when_caught. repeat constructor. Qed.

Lemma halts_perform {T} (c : call T) : halts (perform handle c).
Proof.
  intros env inp pre ev post e. rewrite perform_run. cbn [trace_of outcome_of].
  intros Heq Hev. destruct pre as [|x pre]; [|destruct pre; discriminate Heq].
  injection Heq as <- <-. split; [reflexivity|].
  cbn [uncaught] in Hev. destruct (outside_try c); [|discriminate].
  destruct (fst (handle T c env)); cbn [failure] in Hev; [|discriminate].
  injection Hev as ->. reflexivity.
Qed.

Lemma halts_input p : halts (input p : M string).
Proof.
  intros env [|line rest] pre ev post e; cbn [input trace_of outcome_of]; intros Heq Hev;
    (destruct pre as [|x pre]; [|destruct pre; discriminate Heq]);
    injection Heq as <- <-; cbn [uncaught] in Hev; [|discriminate].
  injection Hev as <-. auto.
Qed.

Lemma halts_bind {A B} (m : M A) (k : A -> M B) :
  halts m -> (forall a, halts (k a)) -> halts (m ≫= k).
Proof.
  intros Hm Hk env inp pre ev post e. rewrite bind_run.
  destruct (outcome_of (m env inp)) as [a|e0|c] eqn:Ho; cbn [after stop trace_of outcome_of].
  - intros Heq Hev.
    destruct (app_eq_app _ _ _ _ Heq) as (l & [(Hl & Hr)|(Hl & Hr)]).
    + destruct l as [|x l].
      * cbn [app] in Hr. eapply (Hk a _ _ []); [symmetry; exact Hr|exact Hev].
      * cbn [app] in Hr. injection Hr as <- _.
        destruct (Hm env inp pre ev l e Hl Hev) as [_ Hraise]. congruence.
    + eapply Hk; [exact Hr|exact Hev].
  - intros Heq Hev. destruct (Hm env inp pre ev post e Heq Hev) as [Hpost Hraise].
    split; [exact Hpost|congruence].
  - intros Heq Hev. destruct (Hm env inp pre ev post e Heq Hev) as [_ Hraise]. congruence.
Qed.

Lemma halts_try {A} (m : M A) (h : exn -> M A) :
  traces (Forall (fun ev => caught ev = true)) m -> (forall e, halts (h e)) ->
  halts (try_except m h).
Proof.
  intros Hm Hh env inp pre ev post e. rewrite try_run.
  destruct (outcome_of (m env inp)) as [a|e0|c] eqn:Ho.
  - apply stops_when_caught, Hm.
  - cbn [after trace_of outcome_of]. intros Heq Hev.
    destruct (split_skip (fun x => caught x = true) _ _ _ _ _ Heq (Hm env inp))
      as (pre' & _ & Hr).
    { unfold caught. rewrite Hev. discriminate. }
    eapply Hh; [exact Hr|exact Hev].
  - apply stops_when_caught, Hm.
Qed.

Lemma halts_for_each {A S} (l : list A) (body : A -> S -> M S) :
  (forall x s, halts (body x s)) -> forall s, halts (for_each l body s).
Proof.
  intros Hb. induction l as [|x l IH]; intros s; cbn [for_each].
  - apply halts_ret.
  - apply halts_bind; [apply Hb|apply IH].
Qed.

Lemma halts_ask p complaint : halts (ask_until_given p complaint : M string).
Proof.
  intros env inp. induction inp as [|line rest IH].
  - apply (halts_input p env []).
  - cbn [ask_until_given]. destruct (truthy (strip line)).
    + apply stops_when_caught. repeat constructor.
    + intros pre ev post e. cbn [after trace_of outcome_of]. intros Heq Hev.
      change (Asked p (Some line) :: Printed complaint
                :: trace_of (ask_until_given p complaint env rest))
        with ([Asked p (Some line); Printed complaint]
                ++ trace_of (ask_until_given p complaint env rest)) in Heq.
      destruct (split_skip (fun x => caught x = true) _ _ _ _ _ Heq) as (pre' & _ & Hr).
      { repeat constructor. }
      { unfold caught. rewrite Hev. discriminate. }
      eapply IH; [exact Hr|exact Hev].
Qed.

Ltac halt_step :=
  match goal with
  | |- halts (mret _) => apply halts_ret
  | |- halts (raise _) => apply halts_raise
  | |- halts (sys_exit _) => apply halts_exit
  | |- halts (lift _) => apply halts_lift
  | |- halts (_ ≫= _) => apply halts_bind; [|intros ?]
  | |- halts (try_except _ _) => apply halts_try; [|intros ?]
  | |- halts (perform _ _) => apply halts_perform
  | |- halts (print _) => apply halts_print
  | |- halts (input _) => apply halts_input
  | |- halts (for_each _ _ _) => apply halts_for_each; intros ? ?; cbv beta
  | |- halts (ask_until_given _ _) => apply halts_ask
  | |- halts (match ?x with _ => _ end) => destruct x
  | |- halts (let _ := _ in _) => cbv zeta
  end.

Ltac all_caught :=
  let HP := fresh "HP" in
  pose proof (closed_Forall (fun ev => caught ev = true)) as HP;
  repeat walk_step; repeat constructor.

Lemma script_halts : halts (script handle).
Proof.
  unfold_script. unfold save_and_close.
  repeat halt_step; all_caught.
Qed.

(** X15.  What nothing catches.  The end of the input at any question
    and the failure of any call outside of the three [try] blocks (the
    making of the output folder, the look into a folder, the copy,
    the setting of the names, the reading of the units per em, the
    save, the closing of a font) end the run on the spot: the event
    is the last of the run and its exception is what the process dies
    of. *)
Theorem uncaught_failures_end_the_run env inp :
  forall pre ev post e,
    trace_of (script handle env inp) = pre ++ ev :: post ->
    uncaught ev = Some e ->
    post = [] /\ outcome_of (script handle env inp) = Raise e.
Proof. apply script_halts. Qed.


(** ** The exit status *)

Lemma explained_app_l c a b : explained c a -> explained c (a ++ b).
Proof.
  intros [[-> H]|[-> (ev & H & Hf)]]; [left|right]; split; try reflexivity.
  - apply elem_of_app. auto.
  - exists ev. split; [apply elem_of_app; auto|exact Hf].
Qed.

Lemma explained_app_r c a b : explained c b -> explained c (a ++ b).
Proof.
  intros [[-> H]|[-> (ev & H & Hf)]]; [left|right]; split; try reflexivity.
  - apply elem_of_app. auto.
  - exists ev. split; [apply elem_of_app; auto|exact Hf].
Qed.

Lemma accounts_no_exit {A} (m : M A) : no_exit m -> accounts m.
Proof. intros H env inp c Hc. exfalso. eapply H, Hc. Qed.

Lemma accounts_bind {A B} (m : M A) (k : A -> M B) :
  accounts m -> (forall a, accounts (k a)) -> accounts (m ≫= k).
Proof.
  intros Hm Hk env inp c. rewrite bind_run.
  destruct (outcome_of (m env inp)) as [a|e|c0] eqn:Ho; cbn [after stop outcome_of trace_of].
  - intros H. apply explained_app_r. eapply Hk, H.
  - discriminate.
  - intros H. injection H as ->. eapply Hm, Ho.
Qed.

Lemma no_exit_ask p complaint : no_exit (ask_until_given p complaint : M string).
Proof.
  intros env inp. induction inp as [|line rest IH]; intros c; [discriminate|].
  cbn [ask_until_given]. destruct (truthy (strip line)); [discriminate|]. apply IH.
Qed.

Ltac walk_whole ::=
  match goal with
  | |- no_exit (ask_until_given _ _) => apply no_exit_ask
  end.

Lemma read_metadata_no_exit : no_exit (read_metadata : M (string * string * string)).
Proof. walk. Qed.

Lemma transplant_no_exit cps name author license output_path src out :
  no_exit (transplant handle cps name author license output_path src out).
Proof. walk. Qed.

Lemma read_range_no_exit : no_exit (read_range : M (gset Z)).
Proof. walk. Qed.

Lemma read_specific_no_exit X : no_exit (read_specific X : M (gset Z)).
Proof. walk. Qed.

Ltac walk_whole ::= fail.

Lemma import_guard_accounts : accounts (import_guard handle).
Proof.
  intros env inp c. unfold import_guard. rewrite try_run, perform_run.
  destruct (fst (handle unit ImportFontforge env)) as [e|[]]; cbn [outcome_of];
    [|discriminate].
  destruct e; cbn; intros H; try discriminate H.
  injection H as <-. right. split; [reflexivity|].
  exists (Printed MNoFontForge). split; [|reflexivity].
  rewrite elem_of_cons. right. rewrite trace_bind. cbn. rewrite elem_of_cons. auto.
Qed.

Lemma collect_codepoints_accounts : accounts (collect_codepoints : M (list Z)).
Proof.
  unfold collect_codepoints.
  apply accounts_bind; [apply accounts_no_exit, read_range_no_exit|intros X0].
  apply accounts_bind; [apply accounts_no_exit, read_specific_no_exit|intros X].
  destruct (bool_decide (X = ∅)); [|apply accounts_no_exit, no_exit_ret].
  intros env inp c H. cbn in H. injection H as <-. left. split; [reflexivity|].
  rewrite trace_bind. apply elem_of_app. left. apply list_elem_of_here.
Qed.

Lemma open_fonts_accounts source_path output_path :
  accounts (open_fonts handle source_path output_path).
Proof.
  intros env inp c H.
  destruct (open_fonts_cases handle source_path output_path env inp)
    as [(src & out & Ho & _)|(Ho & e & Hin)]; rewrite Ho in H; [discriminate|].
  injection H as <-. right. split; [reflexivity|].
  exists (Printed (MErrorOpening e)). split; [exact Hin|reflexivity].
Qed.

Lemma choose_file_none folder role env inp :
  outcome_of (choose_file handle folder role env inp) = Ok None ->
  Printed (MNoFonts folder) ∈ trace_of (choose_file handle folder role env inp).
Proof.
  unfold choose_file. rewrite bind_run.
  destruct (outcome_of (find_font_files handle folder env inp)) as [files|e|c];
    [|discriminate..].
  destruct files as [|first [|second more]]; cbn [after outcome_of trace_of].
  - intros _. apply elem_of_app. right. rewrite trace_bind.
    apply elem_of_app. left. apply list_elem_of_here.
  - cbn. discriminate.
  - rewrite bind_run. cbn [print outcome_of env_of stdin_of trace_of after].
    rewrite bind_run, listing_run. cbn [outcome_of env_of stdin_of trace_of after].
    rewrite bind_run.
    destruct (stdin_of (find_font_files handle folder env inp)); cbn; discriminate.
Qed.

Lemma font_path_usable folder f : is_font_name f = true -> truthy (path_join folder f) = true.
Proof.
  intros Hf. assert (Hne : truthy f = true) by (destruct f; [discriminate Hf|reflexivity]).
  unfold path_join. destruct (startswith "/" f); [exact Hne|].
  destruct (is_empty folder || endswith "/" folder).
  - destruct folder; [exact Hne|reflexivity].
  - destruct folder; reflexivity.
Qed.

Lemma select_fonts_accounts s d : accounts (select_fonts handle s d).
Proof.
  intros env inp c. unfold select_fonts. rewrite bind_run.
  destruct (outcome_of (choose_file handle s "Source" env inp)) as [a|e|c0] eqn:Ha;
    [|discriminate|exfalso; eapply choose_file_no_exit, Ha].
  cbn [after outcome_of trace_of]. rewrite bind_run.
  set (r1 := choose_file handle s "Source" env inp) in *.
  destruct (outcome_of (choose_file handle d "Destination" (env_of r1) (stdin_of r1)))
    as [b|e|c0] eqn:Hb; [|discriminate|exfalso; eapply choose_file_no_exit, Hb].
  cbn [after outcome_of trace_of].
  set (r2 := choose_file handle d "Destination" (env_of r1) (stdin_of r1)) in *.
  assert (Hnone1 : a = None -> explained 1 (trace_of r1 ++ trace_of r2 ++ [])).
  { intros ->. right. split; [reflexivity|]. exists (Printed (MNoFonts s)).
    split; [|reflexivity]. apply elem_of_app. left. apply choose_file_none, Ha. }
  assert (Hnone2 : b = None -> explained 1 (trace_of r1 ++ trace_of r2 ++ [])).
  { intros ->. right. split; [reflexivity|]. exists (Printed (MNoFonts d)).
    split; [|reflexivity]. apply elem_of_app. right. apply elem_of_app. left.
    apply choose_file_none, Hb. }
  destruct a as [sp|]; [|cbn; intros H; injection H as <-; apply Hnone1; reflexivity].
  destruct b as [dp|]; [|cbn; intros H; injection H as <-; apply Hnone2; reflexivity].
  destruct (choose_file_ok handle _ _ _ _ _ Ha) as [(n1 & f1 & _ & _ & H1 & ->) _].
  destruct (choose_file_ok handle _ _ _ _ _ Hb) as [(n2 & f2 & _ & _ & H2 & ->) _].
  cbn [usable]. rewrite (font_path_usable s f1 H1), (font_path_usable d f2 H2).
  cbn. discriminate.
Qed.

Lemma script_accounts : accounts (script handle).
Proof.
  unfold script. apply accounts_bind; [apply import_guard_accounts|intros _].
  unfold main. apply accounts_bind.
  - unfold prepare.
    apply accounts_bind; [apply accounts_no_exit, no_exit_print|intros _].
    apply accounts_bind; [apply accounts_no_exit, no_exit_perform|intros _].
    apply accounts_bind; [apply collect_codepoints_accounts|intros cps].
    apply accounts_bind; [apply accounts_no_exit, read_metadata_no_exit|intros [[n a] l]].
    apply accounts_bind; [apply select_fonts_accounts|intros [sp dp]].
    apply accounts_no_exit, no_exit_ret.
  - intros p. cbv zeta.
    apply accounts_bind; [apply accounts_no_exit, no_exit_perform|intros _].
    apply accounts_bind; [apply open_fonts_accounts|intros [src out]].
    apply accounts_no_exit, transplant_no_exit.
Qed.

(** X16.  The exit status.  A run that leaves through [sys.exit]
    leaves with status 0 after the line that no code point was given,
    or with status 1 after one of the three fatal lines: FontForge
    not found, no fonts in a folder, fonts not opened.  No other
    status and no silent exit exists; in particular the choice of the
    fonts exits only when a folder gave no font. *)
Theorem exit_status_has_its_line env inp c :
  outcome_of (script handle env inp) = Exit c ->
  (c = 0 /\ Printed MNoCodepoints ∈ trace_of (script handle env inp)) \/
  (c = 1 /\ exists ev, ev ∈ trace_of (script handle env inp) /\ fatal_line ev = true).
Proof. apply script_accounts. Qed.


(** ** The normal end *)

Lemma perform_unit_ok (c : call unit) env inp :
  outcome_of (perform handle c env inp) = Ok tt ->
  trace_of (perform handle c env inp) = [Called c (inr tt)].
Proof. intros H. apply perform_ok in H. apply H. Qed.

Lemma save_and_close_ok src out output_path counts env inp :
  outcome_of (save_and_close handle src out output_path counts env inp) = Ok tt ->
  trace_of (save_and_close handle src out output_path counts env inp)
  = finale src out output_path counts.
Proof.
  unfold save_and_close. intros H.
  apply bind_ok_trace in H. destruct H as ([] & Hg & H & ->).
  apply bind_ok_trace in H. destruct H as ([] & _ & H & ->).
  apply bind_ok_trace in H. destruct H as ([] & _ & H & ->).
  apply bind_ok_trace in H. destruct H as ([] & _ & H & ->).
  apply bind_ok_trace in H. destruct H as ([] & Hc & H & ->).
  rewrite (perform_unit_ok _ _ _ Hg), (perform_unit_ok _ _ _ Hc), (perform_unit_ok _ _ _ H).
  reflexivity.
Qed.

Lemma transplant_ok cps name author license output_path src out env inp :
  outcome_of (transplant handle cps name author license output_path src out env inp) = Ok tt ->
  exists pre counts,
    trace_of (transplant handle cps name author license output_path src out env inp)
    = pre ++ finale src out output_path counts.
Proof.
  unfold transplant, transfer_and_save. intros H.
  apply bind_ok_trace in H. destruct H as ([] & _ & H & ->).
  apply bind_ok_trace in H. destruct H as (scale & _ & H & ->).
  apply bind_ok_trace in H. destruct H as (align & _ & H & ->).
  apply bind_ok_trace in H. destruct H as (counts & _ & H & ->).
  rewrite (save_and_close_ok _ _ _ _ _ _ H), !app_assoc.
  eexists _, counts. reflexivity.
Qed.

(** X17.  The normal end.  A run that ends without exception and
    without [sys.exit] is made of five parts: the questions, which
    settle the plan; the copy of the destination font -- a font file
    that the listing of [Destination] showed -- to the output path
    made of the font name that was typed, and the opening of the
    source font and of the output font from that path; the work on
    the fonts; and these six events: the save of the output font to
    the output path went through, the three closing lines were
    printed, and the source font and the output font were closed. *)
Theorem normal_end_has_saved env inp :
  outcome_of (script handle env inp) = Ok tt ->
  let g := import_guard handle env inp in
  let rp := prepare handle (env_of g) (stdin_of g) in
  exists p src out counts work,
    outcome_of rp = Ok p /\
    font_of source_folder (plan_source p) (trace_of rp) /\
    font_of dest_folder (plan_dest p) (trace_of rp) /\
    answered PFontName (plan_font_name p) (trace_of rp) /\
    trace_of (script handle env inp)
    = (trace_of g ++ trace_of rp) ++ copy_and_open p src out ++ work ++
      finale src out (plan_output p) counts.
Proof.
  intros H g rp. unfold script, main in H |- *.
  apply bind_ok_trace in H. destruct H as ([] & _ & H & ->). fold g in H |- *.
  apply bind_ok_trace in H. destruct H as (p & Hp & H & ->). fold rp in Hp, H |- *.
  cbv zeta in H |- *. fold (plan_output p) in H |- *.
  apply bind_ok_trace in H. destruct H as ([] & Hc & H & ->).
  apply bind_ok_trace in H. destruct H as ([src out] & Ho & H & ->).
  rewrite (perform_unit_ok _ _ _ Hc).
  match type of Ho with
  | outcome_of (open_fonts _ ?sp ?o ?env1 ?inp1) = _ =>
      destruct (open_fonts_cases handle sp o env1 inp1)
        as [(src' & out' & Ho' & Htr)|(Ho' & _)]; rewrite Ho in Ho'; [|discriminate Ho'];
      injection Ho' as <- <-; rewrite Htr
  end.
  destruct (transplant_ok _ _ _ _ _ _ _ _ _ H) as (work & counts & ->).
  destruct (prepare_plan handle _ _ _ Hp) as (Hsrc & Hdest & Hname).
  exists p, src, out, counts, work. repeat split; auto.
  unfold copy_and_open. rewrite <- !app_assoc. reflexivity.
Qed.

(** ** One verdict for every code point *)

Lemma verdicts_app a b : verdicts (a ++ b) = verdicts a ++ verdicts b.
Proof. unfold verdicts. rewrite logs_app. apply omap_app. Qed.

Lemma verdicts_silent tr : Forall (fun ev => silent ev = true) tr -> verdicts tr = [].
Proof. intros H. unfold verdicts. rewrite (logs_silent tr H). reflexivity. Qed.

Lemma transfer_glyph_verdict src out scale align cp counts env inp :
  (exists counts', outcome_of (transfer_glyph handle src out scale align cp counts env inp)
                   = Ok counts') /\
  verdicts (trace_of (transfer_glyph handle src out scale align cp counts env inp)) = [cp].
Proof.
  destruct counts as [r s].
  pose proof (has_glyph_silent handle src cp env inp) as Hchk.
  pose proof (replace_glyph_silent handle src out scale align cp
                (env_of (has_glyph handle src cp env inp))
                (stdin_of (has_glyph handle src cp env inp))) as Hbody.
  destruct (transfer_glyph_cases handle src out scale align cp r s env inp)
    as [(_ & ->)|[(_ & _ & ->)|[(e & _ & ->)|(e & _ & _ & ->)]]];
    (split; [eexists; reflexivity|]); cbn [trace_of];
    rewrite ?verdicts_app, (verdicts_silent _ Hchk), ?(verdicts_silent _ Hbody);
    reflexivity.
Qed.

Lemma loop_verdicts src out scale align cps : forall counts env inp,
  verdicts (trace_of (for_each cps (transfer_glyph handle src out scale align) counts env inp))
  = cps.
Proof.
  induction cps as [|cp cps IH]; intros counts env inp; [reflexivity|].
  cbn [for_each]. rewrite trace_bind.
  destruct (transfer_glyph_verdict src out scale align cp counts env inp)
    as [(counts' & Ho) Hv].
  rewrite Ho, verdicts_app, Hv, IH. reflexivity.
Qed.

(** X18.  One verdict for every code point.  The loop prints exactly
    one of the lines [replaced], [missing] and [error] for every code
    point of its list, in the order of the list, whatever FontForge
    answers; the loop itself never fails. *)
Theorem every_code_point_gets_its_verdict src out scale align cps env inp :
  verdicts (trace_of (transfer_loop handle src out scale align cps env inp)) = cps /\
  exists counts, outcome_of (transfer_loop handle src out scale align cps env inp) = Ok counts.
Proof.
  split; [apply loop_verdicts|].
  destruct (loop_counts handle src out scale align cps O O env inp) as (r & s & Ho & _).
  exists (r, s). exact Ho.
Qed.


(** ** Only the code points asked for *)

Ltac slotless := repeat constructor; intros ? Hslot; discriminate Hslot.

Ltac walk_whole ::=
  match goal with
  | |- traces _ (transfer_loop _ _ _ _ _ _) =>
      let env := fresh "env" in
      let inp := fresh "inp" in
      intros env inp; apply loop_names
  end.

Lemma transplant_names cps name author license output_path src out :
  traces (Forall (fun ev => forall x, slot_of ev = Some x -> x ∈ cps))
    (transplant handle cps name author license output_path src out).
Proof.
  pose proof (closed_Forall (fun ev => forall x, slot_of ev = Some x -> x ∈ cps)) as HP.
  unfold transplant, set_metadata, compute_scale, choose_alignment, transfer_and_save,
    save_and_close.
  repeat walk_step; slotless.
Qed.

Lemma after_prepare_names p :
  traces (Forall (fun ev => forall x, slot_of ev = Some x -> x ∈ plan_codepoints p))
    (perform handle (Copy2 (plan_dest p)
                      (output_path_of output_folder (plan_dest p) (plan_font_name p))) ≫= fun _ =>
     open_fonts handle (plan_source p)
       (output_path_of output_folder (plan_dest p) (plan_font_name p)) ≫= fun '(src, out) =>
     transplant handle (plan_codepoints p) (plan_font_name p) (plan_author p) (plan_license p)
       (output_path_of output_folder (plan_dest p) (plan_font_name p)) src out).
Proof.
  pose proof (closed_Forall
                (fun ev => forall x, slot_of ev = Some x -> x ∈ plan_codepoints p)) as HP.
  apply traces_bind; [exact HP|apply traces_perform; intros ?; slotless|intros _].
  apply traces_bind; [exact HP|unfold open_fonts; repeat walk_step; slotless|intros [src out]].
  apply transplant_names.
Qed.

Ltac walk_whole ::= fail.

Lemma before_copy_names :
  traces (Forall (fun ev => slot_of ev = None)) (import_guard handle) /\
  traces (Forall (fun ev => slot_of ev = None)) (prepare handle).
Proof.
  pose proof (closed_Forall (fun ev => slot_of ev = None)) as HP.
  split; walk; repeat constructor.
Qed.

Lemma prepare_in_range env inp p :
  outcome_of (prepare handle env inp) = Ok p ->
  Forall (fun cp => 0 <= cp <= 0x10FFFF) (plan_codepoints p).
Proof.
  unfold prepare. intros H.
  apply bind_ok in H. destruct H as ([] & _ & H).
  apply bind_ok in H. destruct H as ([] & _ & H).
  apply bind_ok in H. destruct H as (cps & Hc & H).
  apply bind_ok in H. destruct H as ([[name author] license] & _ & H).
  apply bind_ok in H. destruct H as ([sp dp] & _ & H).
  cbn in H. injection H as <-. apply (collect_codepoints_ok _ _ _ Hc).
Qed.

(** X19.  Only the code points asked for.  Every call of the work on
    the open fonts that names a code point names one of the list it
    was given; in a whole run, every code point named in a call lies
    in [0, 0x10FFFF], and no call names a code point before the fonts
    are open. *)
Theorem only_requested_code_points_are_named env inp :
  (forall cps name author license output_path src out env' inp',
     Forall (fun ev => forall x, slot_of ev = Some x -> x ∈ cps)
       (trace_of (transplant handle cps name author license output_path src out env' inp'))) /\
  Forall (fun ev => forall x, slot_of ev = Some x -> 0 <= x <= 0x10FFFF)
    (trace_of (script handle env inp)) /\
  Forall (fun ev => slot_of ev = None) (trace_of (prepare handle env inp)).
Proof.
  split; [intros; apply transplant_names|]. split; [|apply before_copy_names].
  destruct before_copy_names as [Hg Hp].
  assert (Hnone : forall tr, Forall (fun ev => slot_of ev = None) tr ->
            Forall (fun ev => forall x, slot_of ev = Some x -> 0 <= x <= 0x10FFFF) tr).
  { intros tr H. eapply Forall_impl; [exact H|]. intros ev Hev x Hx. congruence. }
  unfold script. rewrite trace_bind. apply Forall_app. split; [apply Hnone, Hg|].
  destruct (outcome_of (import_guard handle env inp)); [|constructor..].
  unfold main. rewrite trace_bind. apply Forall_app. split; [apply Hnone, Hp|].
  destruct (outcome_of (prepare handle _ _)) as [p|e|c] eqn:Ho; [|constructor..].
  pose proof (prepare_in_range _ _ _ Ho) as Hrange. rewrite Forall_forall in Hrange.
  eapply Forall_impl; [apply (after_prepare_names p)|].
  intros ev Hev x Hx. apply Hrange, Hev, Hx.
Qed.

(** ** What a run dies of *)

Lemma died_of_app e a b : died_of e b -> died_of e (a ++ b).
Proof.
  intros (pre & ev & -> & H). exists (a ++ pre), ev. split; [apply app_assoc|exact H].
Qed.

Lemma mourned_no_raise {A} (m : M A) : no_raise m -> mourned m.
Proof. intros H env inp e He. exfalso. eapply H, He. Qed.

Lemma mourned_bind {A B} (m : M A) (k : A -> M B) :
  mourned m -> (forall a, mourned (k a)) -> mourned (m ≫= k).
Proof.
  intros Hm Hk env inp e. rewrite bind_run.
  destruct (outcome_of (m env inp)) as [a|e0|c] eqn:Ho; cbn [after stop outcome_of trace_of].
  - intros H. apply died_of_app. eapply Hk, H.
  - intros H. injection H as ->. eapply Hm, Ho.
  - discriminate.
Qed.

Lemma mourned_perform {T} (c : call T) : outside_try c = true -> mourned (perform handle c).
Proof.
  intros Hc env inp e. rewrite perform_run. cbn [outcome_of trace_of].
  destruct (fst (handle T c env)) as [e0|v] eqn:Hr; [|discriminate].
  intros H. injection H as ->. exists [], (Called c (inl e)).
  split; [reflexivity|]. left. cbn [uncaught]. rewrite Hc. reflexivity.
Qed.

Lemma mourned_input p : mourned (input p : M string).
Proof.
  intros env [|line rest] e; cbn [input outcome_of trace_of]; [|discriminate].
  intros H. injection H as <-. exists [], (Asked p None). split; [reflexivity|]. left. reflexivity.
Qed.

Lemma mourned_ask p complaint : mourned (ask_until_given p complaint : M string).
Proof.
  intros env inp. induction inp as [|line rest IH]; intros e.
  - apply (mourned_input p env []).
  - cbn [ask_until_given]. destruct (truthy (strip line)); [discriminate|].
    cbn [after outcome_of trace_of]. intros H.
    change (Asked p (Some line) :: Printed complaint
              :: trace_of (ask_until_given p complaint env rest))
      with ([Asked p (Some line); Printed complaint]
              ++ trace_of (ask_until_given p complaint env rest)).
    apply died_of_app, IH, H.
Qed.

Lemma mourned_for_each {A S} (l : list A) (body : A -> S -> M S) :
  (forall x s, mourned (body x s)) -> forall s, mourned (for_each l body s).
Proof.
  intros Hb. induction l as [|x l IH]; intros s; cbn [for_each].
  - apply mourned_no_raise. intros env inp e. discriminate.
  - apply mourned_bind; [apply Hb|apply IH].
Qed.

Lemma import_guard_mourned : mourned (import_guard handle).
Proof.
  intros env inp e. unfold import_guard. rewrite try_run, perform_run.
  destruct (fst (handle unit ImportFontforge env)) as [e0|[]] eqn:Hr; cbn [outcome_of];
    [|discriminate].
  destruct e0; cbn; intros H; try discriminate H; inversion H; subst;
    (eexists [], _; split; [reflexivity|]; right; left; reflexivity).
Qed.

Lemma to_float_errors x e : to_float x = inl e -> e = OverflowError.
Proof.
  destruct x as [z|f]; cbn [to_float]; [|discriminate].
  unfold float_of_int. destruct (is_inf _); [|discriminate].
  intros H. injection H as <-. reflexivity.
Qed.

Lemma float_truediv_errors a b e :
  match to_float a, to_float b with
  | inr x, inr y =>
      if is_zero y then inl ZeroDivisionError else inr (PyFloat (SFdiv prec emax x y))
  | inl e, _ => inl e
  | _, inl e => inl e
  end = inl e ->
  e = ZeroDivisionError \/ e = OverflowError.
Proof.
  destruct (to_float a) as [ea|x] eqn:Ha.
  - intros H. injection H as <-. right. eapply to_float_errors, Ha.
  - destruct (to_float b) as [eb|y] eqn:Hb.
    + intros H. injection H as <-. right. eapply to_float_errors, Hb.
    + destruct (is_zero y); [|discriminate]. intros H. injection H as <-. auto.
Qed.

Lemma py_truediv_errors a b e :
  py_truediv a b = inl e -> e = ZeroDivisionError \/ e = OverflowError.
Proof.
  destruct a as [x|fa], b as [y|fb]; try apply float_truediv_errors.
  cbn [py_truediv]. destruct (y =? 0); [intros H; injection H as <-; auto|].
  destruct (is_inf _); [|discriminate]. intros H. injection H as <-. auto.
Qed.

Lemma compute_scale_mourned src out : mourned (compute_scale handle src out).
Proof.
  intros env inp e. unfold compute_scale. rewrite bind_run, perform_run.
  destruct (handle pynum (GetEm out) env) as [[e0|a] env1]; simpl.
  - intros H. injection H as ->. exists [], (Called (GetEm out) (inl e)).
    split; [reflexivity|]. left. reflexivity.
  - rewrite bind_run, perform_run.
    destruct (handle pynum (GetEm src) env1) as [[e0|b] env2]; simpl.
    + intros H. injection H as ->.
      exists [Called (GetEm out) (inr a)], (Called (GetEm src) (inl e)).
      split; [reflexivity|]. left. reflexivity.
    + rewrite bind_run.
      destruct (py_truediv a b) as [e0|scale] eqn:Hdiv; simpl; [|discriminate].
      intros H. injection H as ->.
      exists [Called (GetEm out) (inr a)], (Called (GetEm src) (inr b)).
      split; [reflexivity|]. right. right. exists src, b. split; [reflexivity|].
      eapply py_truediv_errors, Hdiv.
Qed.

Lemma open_fonts_no_raise source_path output_path :
  no_raise (open_fonts handle source_path output_path).
Proof.
  intros env inp e H.
  destruct (open_fonts_cases handle source_path output_path env inp)
    as [(src & out & Ho & _)|(Ho & _)]; rewrite Ho in H; discriminate H.
Qed.

Lemma transfer_loop_no_raise src out scale align cps :
  no_raise (transfer_loop handle src out scale align cps).
Proof.
  intros env inp e H.
  destruct (loop_counts handle src out scale align cps O O env inp) as (r & s & Ho & _).
  unfold transfer_loop in H. rewrite Ho in H. discriminate H.
Qed.

Ltac mourn_step :=
  match goal with
  | |- mourned (import_guard _) => apply import_guard_mourned
  | |- mourned (compute_scale _ _ _) => apply compute_scale_mourned
  | |- mourned (open_fonts _ _ _) => apply mourned_no_raise, open_fonts_no_raise
  | |- mourned (transfer_loop _ _ _ _ _ _) => apply mourned_no_raise, transfer_loop_no_raise
  | |- mourned (mret _) => apply mourned_no_raise; intros ? ? ?; discriminate
  | |- mourned (sys_exit _) => apply mourned_no_raise; intros ? ? ?; discriminate
  | |- mourned (print _) => apply mourned_no_raise; intros ? ? ?; discriminate
  | |- mourned (_ ≫= _) => apply mourned_bind; [|intros ?]
  | |- mourned (perform _ _) => apply mourned_perform; reflexivity
  | |- mourned (input _) => apply mourned_input
  | |- mourned (for_each _ _ _) => apply mourned_for_each; intros ? ?; cbv beta
  | |- mourned (ask_until_given _ _) => apply mourned_ask
  | |- mourned (match ?x with _ => _ end) => destruct x
  | |- mourned (let _ := _ in _) => cbv zeta
  end.

Lemma script_mourned : mourned (script handle).
Proof.
  unfold script, main, prepare, collect_codepoints, read_range, read_specific,
    add_specific, read_metadata, select_fonts, choose_file, find_font_files,
    transplant, set_metadata, choose_alignment, transfer_and_save, save_and_close.
  repeat mourn_step.
Qed.

(** X20.  What a run dies of.  A run ends in an exception only in
    these ways: on a failure that nothing catches (the end of the
    input at a question, or a failing call outside of the [try]
    blocks), which is then its last event; on the import of FontForge
    failing with that exception; or on the quotient of the units per
    em raising [ZeroDivisionError] or [OverflowError] right after the
    reading of the source font's units per em.  Whatever FontForge
    raises while the fonts are opened or a glyph is worked on never
    ends the run in an exception. *)
Theorem a_run_dies_only_of_these env inp e :
  outcome_of (script handle env inp) = Raise e ->
  exists pre ev,
    trace_of (script handle env inp) = pre ++ [ev] /\
    (uncaught ev = Some e \/
     ev = Called ImportFontforge (inl e) \/
     exists f em,
       ev = Called (GetEm f) (inr em) /\ (e = ZeroDivisionError \/ e = OverflowError)).
Proof. apply script_mourned. Qed.

End WholeRuns.

Lemma closing_lines_follow_the_save_demo :
  let tr := trace_of (Mock.run Mock.demo (Mock.answers "1")) in
  exists out path, Called (Generate out path) (inr tt) ∈ upto closes_run tr.
Proof.
  intros tr.
  destruct (closing_lines_follow_the_save Mock.handle Mock.demo (Mock.answers "1")
              (upto closes_run tr) (hit closes_run tr) (beyond closes_run tr))
    as (out & path & Hin & _).
  - vm_compute. reflexivity.
  - vm_compute. reflexivity.
  - exists out, path. exact Hin.
Defined.

Lemma uncaught_failures_end_the_run_demo :
  let tr := trace_of (Mock.run Mock.demo ["0041"]) in
  beyond (fun ev => negb (caught ev)) tr = [] /\
  outcome_of (Mock.run Mock.demo ["0041"]) = Raise EOFError.
Proof.
  intros tr.
  apply (uncaught_failures_end_the_run Mock.handle Mock.demo ["0041"]
           (upto (fun ev => negb (caught ev)) tr) (hit (fun ev => negb (caught ev)) tr)
           (beyond (fun ev => negb (caught ev)) tr) EOFError).
  - vm_compute. reflexivity.
  - vm_compute. reflexivity.
Defined.

Lemma exit_status_has_its_line_demo :
  let r := Mock.run (Mock.with_dest_files [] Mock.demo) (Mock.answers "1") in
  exists ev, ev ∈ trace_of r /\ fatal_line ev = true.
Proof.
  intros r.
  destruct (exit_status_has_its_line Mock.handle (Mock.with_dest_files [] Mock.demo)
              (Mock.answers "1") 1)
    as [[H0 _]|[_ H]]; [vm_compute; reflexivity|discriminate H0|exact H].
Defined.

Lemma normal_end_has_saved_demo :
  let g := import_guard Mock.handle Mock.demo (Mock.answers "1") in
  let rp := prepare Mock.handle (env_of g) (stdin_of g) in
  exists p src out counts work,
    outcome_of rp = Ok p /\
    font_of source_folder (plan_source p) (trace_of rp) /\
    font_of dest_folder (plan_dest p) (trace_of rp) /\
    answered PFontName (plan_font_name p) (trace_of rp) /\
    trace_of (Mock.run Mock.demo (Mock.answers "1"))
    = (trace_of g ++ trace_of rp) ++ copy_and_open p src out ++ work ++
      finale src out (plan_output p) counts.
Proof.
  apply (normal_end_has_saved Mock.handle Mock.demo (Mock.answers "1")).
  vm_compute. reflexivity.
Defined.

Lemma a_run_dies_only_of_these_demo :
  let w := Mock.World true ["src.ttf"] ["dest.otf"] [] 0 1000 [] (Mock.flat 0 0) [] [] None [] in
  exists pre ev,
    trace_of (Mock.run w (Mock.answers "1")) = pre ++ [ev] /\
    (uncaught ev = Some ZeroDivisionError \/
     ev = Called ImportFontforge (inl ZeroDivisionError) \/
     exists f em,
       ev = Called (GetEm f) (inr em) /\
       (ZeroDivisionError = ZeroDivisionError \/ ZeroDivisionError = OverflowError)).
Proof.
  intros w.
  apply (a_run_dies_only_of_these Mock.handle w (Mock.answers "1") ZeroDivisionError).
  vm_compute. reflexivity.
Defined.

(* ================================================================== *)
(** * Further properties of the search for fonts *)
(* ================================================================== *)

Section FontSearch.

Context {Env : Type} (handle : forall T, call T -> Env -> res T * Env).

#[local] Existing Instance M_ret.
#[local] Existing Instance M_bind.

Lemma endswith_suffix suf s : endswith suf s = true -> exists a, s = a +:+ suf.
Proof.
  induction s as [|c r IH].
  - cbn [endswith]. rewrite orb_false_r. intros H. apply String.eqb_eq in H.
    exists EmptyString. subst. reflexivity.
  - cbn [endswith]. intros H. apply orb_true_iff in H. destruct H as [H|H].
    + apply String.eqb_eq in H. exists EmptyString. subst. reflexivity.
    + destruct (IH H) as (a & ->). exists (String c a). reflexivity.
Qed.

Lemma lower_split a : forall f b,
  lower f = a +:+ b -> exists x y, f = x +:+ y /\ lower x = a /\ lower y = b.
Proof.
  induction a as [|c a IH]; intros f b H.
  - exists EmptyString, f. auto.
  - destruct f as [|d f]; [discriminate H|].
    change (String (lower_char d) (lower f) = String c (a +:+ b)) in H.
    injection H as Hc Hf. destruct (IH f b Hf) as (x & y & -> & Hx & Hy).
    exists (String d x), y. repeat split; [|exact Hy]. cbn [lower]. rewrite Hc, Hx. reflexivity.
Qed.

Lemma is_font_name_iff f :
  is_font_name f = true <->
  exists stem ext, f = stem +:+ ext /\ (lower ext = ".ttf" \/ lower ext = ".otf").
Proof.
  unfold is_font_name, endswith_any. cbn [existsb]. rewrite orb_false_r, orb_true_iff. split.
  - intros [H|H]; apply endswith_suffix in H; destruct H as (a & H);
      apply lower_split in H; destruct H as (x & y & -> & _ & Hy); eauto.
  - intros (stem & ext & -> & [H|H]); [left|right]; rewrite lower_app, H;
      apply endswith_app_l, endswith_refl.
Qed.

(** X21.  The search for fonts.  A file counts as a font exactly when
    its name ends in [.ttf] or [.otf] written in any case, whatever
    comes before (nothing at all included).  When the search returns,
    it read no input; either the folder is no directory, was not
    listed and gives no font, or it was listed once and the fonts are
    the names of the listing that count, in the order of the
    listing. *)
Theorem find_font_files_keeps_the_fonts folder env inp files :
  outcome_of (find_font_files handle folder env inp) = Ok files ->
  stdin_of (find_font_files handle folder env inp) = inp /\
  ((files = [] /\
    trace_of (find_font_files handle folder env inp) = [Called (IsDir folder) (inr false)]) \/
   exists names,
     files = List.filter is_font_name names /\
     trace_of (find_font_files handle folder env inp)
     = [Called (IsDir folder) (inr true); Called (ListDir folder) (inr names)]) /\
  (forall f,
     is_font_name f = true <->
     exists stem ext, f = stem +:+ ext /\ (lower ext = ".ttf" \/ lower ext = ".otf")).
Proof.
  intros H. destruct (find_font_files_ok handle folder env inp files H) as [Hin Hcases].
  split; [exact Hin|]. split; [exact Hcases|]. apply is_font_name_iff.
Qed.

End FontSearch.

Lemma find_font_files_keeps_the_fonts_demo :
  stdin_of (find_font_files Mock.handle "Source" Mock.demo ["x"]) = ["x"] /\
  (is_font_name "A.b.OtF" = true <->
   exists stem ext, "A.b.OtF" = stem +:+ ext /\ (lower ext = ".ttf" \/ lower ext = ".otf")).
Proof.
  destruct (find_font_files_keeps_the_fonts Mock.handle "Source" Mock.demo ["x"] ["src.ttf"])
    as (Hin & _ & Hiff); [reflexivity|].
  split; [exact Hin|apply Hiff].
Defined.

(* ================================================================== *)
(** * Further properties: the list, the check, the typed number *)
(* ================================================================== *)

Section Choices.

Context {Env : Type} (handle : forall T, call T -> Env -> res T * Env).

#[local] Existing Instance M_ret.
#[local] Existing Instance M_bind.

(** ** Order and repetition in the comma list *)

(** X22.  Order and repetition.  The sequence handed to the loop
    depends on the comma list only through the set of code points it
    gives: two lists that give the same code points, in any order and
    however often, give the same sequence, and a list whose code
    points all lie in the range changes nothing. *)
Theorem comma_list_counts_as_a_set start_s end_s s s' :
  (forall cp, cp ∈ listed s <-> cp ∈ listed s') ->
  final_codepoints start_s end_s s = final_codepoints start_s end_s s' /\
  ((forall cp, cp ∈ listed s -> cp ∈ range_codepoints start_s end_s) ->
   final_codepoints start_s end_s s = final_codepoints start_s end_s "").
Proof.
  intros H. unfold final_codepoints. rewrite !specific_codepoints_listed. split.
  - f_equal. apply set_eq. intros cp. rewrite !elem_of_union, !elem_of_list_to_set, H.
    reflexivity.
  - intros Hin. f_equal. apply set_eq. intros cp.
    rewrite !elem_of_union, !elem_of_list_to_set. cbn [listed truthy is_empty negb].
    rewrite elem_of_nil. specialize (Hin cp). tauto.
Qed.

(** ** A check that fails *)

(** X23.  A check that fails.  When the look-up of the source glyph
    itself raises, the turn catches it like any other failure: it
    prints the error and its trace, leaves both counters as they were
    and returns, having called nothing but the check. *)
Theorem failing_check_is_caught src out scale align cp r s env inp e :
  let chk := has_glyph handle src cp env inp in
  outcome_of chk = Raise e ->
  transfer_glyph handle src out scale align cp (r, s) env inp
  = Result (Ok (r, s)) (env_of chk) (stdin_of chk)
      (trace_of chk ++ [Printed (MError cp e); Printed (MTraceback e)]) /\
  Forall (fun ev => is_source_check src cp ev = true) (trace_of chk).
Proof.
  intros chk Hchk. split; [|apply has_glyph_checks].
  destruct (transfer_glyph_cases handle src out scale align cp r s env inp)
    as [(H & _)|[(H & _)|[(e' & H & Heq)|(e' & H & _)]]];
    fold chk in H; rewrite Hchk in H; try discriminate H.
  injection H as <-. exact Heq.
Qed.

(** ** The number typed for a font *)

Lemma dec_digit_value d :
  0 <= d < 10 ->
  is_digit 10 (dec_digit d) = true /\ digit_value (dec_digit d) = Some d.
Proof.
  intros Hd.
  assert (H : d = 0 \/ d = 1 \/ d = 2 \/ d = 3 \/ d = 4 \/ d = 5 \/ d = 6 \/ d = 7 \/
              d = 8 \/ d = 9) by lia.
  repeat (destruct H as [->|H]; [split; reflexivity|]). subst. split; reflexivity.
Qed.

Lemma horner_10_shift s : forall acc,
  horner 10 acc s = acc * 10 ^ Z.of_nat (String.length s) + horner 10 0 s.
Proof.
  induction s as [|c r IH]; intros acc.
  - simpl. lia.
  - cbn [horner String.length]. rewrite (IH (acc * 10 + _)), (IH (0 * 10 + _)).
    rewrite Nat2Z.inj_succ, Z.pow_succ_r by lia. ring.
Qed.

Lemma dec_digits_value fuel : forall n acc,
  0 <= n < 10 ^ Z.of_nat fuel ->
  every (is_digit 10) acc = true ->
  every (is_digit 10) (dec_digits fuel n acc) = true /\
  horner 10 0 (dec_digits fuel n acc)
  = n * 10 ^ Z.of_nat (String.length acc) + horner 10 0 acc.
Proof.
  induction fuel as [|k IH]; intros n acc Hn Hacc.
  - simpl in *. split; [exact Hacc|]. assert (n = 0) by lia. subst. lia.
  - cbn [dec_digits]. destruct (Z.eqb_spec n 0) as [->|Hne].
    + split; [exact Hacc|]. lia.
    + rewrite Nat2Z.inj_succ, Z.pow_succ_r in Hn by lia.
      pose proof (Z.div_mod n 10 ltac:(lia)) as Hdm.
      pose proof (Z.mod_pos_bound n 10 ltac:(lia)) as Hm.
      destruct (dec_digit_value (n mod 10) Hm) as [Hd Hv].
      destruct (IH (n / 10) (String (dec_digit (n mod 10)) acc)) as [IH1 IH2].
      * split; [apply Z.div_pos; lia|apply Z.div_lt_upper_bound; lia].
      * simpl. rewrite Hd. exact Hacc.
      * split; [exact IH1|]. rewrite IH2.
        cbn [horner String.length]. rewrite Hv. cbn [default]. unfold id.
        rewrite (horner_10_shift acc (0 * 10 + n mod 10)).
        rewrite Nat2Z.inj_succ, Z.pow_succ_r by lia.
        set (p := 10 ^ Z.of_nat (String.length acc)) in *.
        set (q := n / 10) in *. set (m := n mod 10) in *. rewrite Hdm. ring.
Qed.

Lemma dec_digits_truthy fuel : forall n acc,
  truthy acc = true -> truthy (dec_digits fuel n acc) = true.
Proof.
  induction fuel as [|k IH]; intros n acc Hacc; simpl; [exact Hacc|].
  destruct (n =? 0); [exact Hacc|]. apply IH. reflexivity.
Qed.

Lemma log2_fuel_10 n : 0 < n -> n < 10 ^ Z.of_nat (S (Z.to_nat (Z.log2 n))).
Proof.
  intros Hn. pose proof (Z.log2_nonneg n) as Hl.
  rewrite Nat2Z.inj_succ, Z2Nat.id by exact Hl.
  destruct (Z.log2_spec n Hn) as [_ Hlt].
  eapply Z.lt_le_trans; [exact Hlt|].
  apply Z.pow_le_mono_l. lia.
Qed.

Lemma to_decimal_value n :
  0 <= n ->
  every (is_digit 10) (to_decimal n) = true /\
  truthy (to_decimal n) = true /\
  horner 10 0 (to_decimal n) = n.
Proof.
  intros Hn. unfold to_decimal. destruct (Z.eqb_spec n 0) as [->|Hne].
  - repeat split; reflexivity.
  - destruct (dec_digits_value (S (Z.to_nat (Z.log2 n))) n EmptyString) as [H1 H2].
    + split; [exact Hn|apply log2_fuel_10; lia].
    + reflexivity.
    + split; [exact H1|]. split.
      * cbn [dec_digits]. destruct (Z.eqb_spec n 0); [contradiction|].
        apply dec_digits_truthy. reflexivity.
      * rewrite H2. simpl. lia.
Qed.

Lemma dec_digit_facts c :
  is_digit 10 c = true ->
  is_int_space c = false /\ Ascii.eqb c "_" = false /\
  c <> "+"%char /\ c <> "-"%char /\
  exists d, digit_value c = Some d /\ (d <? 10) = true.
Proof.
  destruct c as [[] [] [] [] [] [] [] []]; vm_compute; intros H;
    try discriminate H; repeat split; try congruence; eexists; split; reflexivity.
Qed.

Lemma scan_dec s : forall seen acc,
  every (is_digit 10) s = true ->
  scan_digits 10 false seen acc s = Some (horner 10 acc s, seen || truthy s, EmptyString).
Proof.
  induction s as [|c r IH]; intros seen acc; simpl.
  - intros _. rewrite orb_false_r. reflexivity.
  - rewrite andb_true_iff. intros [Hc Hr].
    destruct (dec_digit_facts c Hc) as (_ & -> & _ & _ & d & -> & ->).
    rewrite (IH true _ Hr). simpl. rewrite orb_true_r. reflexivity.
Qed.

Lemma py_int_dec s :
  every (is_digit 10) s = true -> truthy s = true -> py_int 10 s = Some (horner 10 0 s).
Proof.
  intros Hs Hne. destruct s as [|c r]; [discriminate|].
  pose proof Hs as Hs'. simpl in Hs'. rewrite andb_true_iff in Hs'. destruct Hs' as [Hc Hr].
  destruct (dec_digit_facts c Hc) as (Hsp & Hus & Hplus & Hminus & _).
  unfold py_int. simpl skip_int_space. rewrite Hsp.
  assert (Hsign : read_sign (String c r) = (false, String c r)).
  { unfold read_sign. destruct c as [[] [] [] [] [] [] [] []]; try reflexivity; congruence. }
  rewrite Hsign.
  assert (Hpre : skip_radix_prefix 10 (String c r) = String c r).
  { unfold skip_radix_prefix. destruct r as [|x r'];
      destruct c as [[] [] [] [] [] [] [] []]; reflexivity. }
  rewrite Hpre.
  assert (Hst : startswith "_" (String c r) = false).
  { simpl. rewrite Hus. reflexivity. }
  rewrite Hst, (scan_dec _ false 0 Hs). reflexivity.
Qed.

Lemma py_int_format_decimal i :
  truthy (format_decimal (Z.of_nat i)) = true /\
  py_int 10 (format_decimal (Z.of_nat i)) = Some (Z.of_nat i).
Proof.
  unfold format_decimal. destruct (Z.ltb_spec (Z.of_nat i) 0); [lia|].
  destruct (to_decimal_value (Z.of_nat i)) as (H1 & H2 & H3); [lia|].
  split; [exact H2|]. rewrite (py_int_dec _ H1 H2), H3. reflexivity.
Qed.

Lemma enumerate_lookup {A} (l : list A) : forall k i (x : A),
  (i, x) ∈ zip (seq k (length l)) l -> (k <= i)%nat /\ l !! (i - k)%nat = Some x.
Proof.
  induction l as [|y l IH]; intros k i x H; [inversion H|].
  cbn [length seq zip zip_with] in H. apply elem_of_cons in H. destruct H as [H|H].
  - injection H as -> ->. split; [lia|]. rewrite Nat.sub_diag. reflexivity.
  - apply IH in H. destruct H as [Hk Hl]. split; [lia|].
    replace (i - k)%nat with (S (i - S k)) by lia. exact Hl.
Qed.

Lemma pick_listed first others i f :
  (i, f) ∈ enumerate (first :: others) ->
  pick (first :: others) first (format_decimal (Z.of_nat i)) = f.
Proof.
  intros H. apply enumerate_lookup in H. destruct H as [_ H].
  rewrite Nat.sub_0_r in H.
  destruct (py_int_format_decimal i) as [Ht Hi].
  unfold pick. rewrite Ht, Hi. unfold py_index.
  destruct (Z.leb_spec 0 (Z.of_nat i)); [|lia].
  rewrite Nat2Z.id, H. reflexivity.
Qed.

(** X24.  The number typed for a font.  When several fonts are found
    they are listed with their indices; if the answer, stripped, is
    the decimal text of an index that was shown, the choice returns
    the path of the font shown with it. *)
Theorem typing_a_listed_number_chooses_that_font folder role env line rest i f :
  let r := choose_file handle folder role env (line :: rest) in
  Printed (MListed i f) ∈ trace_of r ->
  strip line = format_decimal (Z.of_nat i) ->
  outcome_of r = Ok (Some (path_join folder f)) /\ stdin_of r = rest.
Proof.
  intros r. subst r. unfold choose_file. rewrite bind_run.
  assert (Hnot : Printed (MListed i f)
                   ∈ trace_of (find_font_files handle folder env (line :: rest)) -> False).
  { intros Hin. unfold find_font_files in Hin. rewrite trace_bind, perform_run in Hin.
    cbn [trace_of outcome_of] in Hin. apply elem_of_app in Hin.
    destruct Hin as [Hin|Hin]; [apply elem_of_cons in Hin; destruct Hin as [Hin|Hin];
                                [discriminate Hin|inversion Hin]|].
    destruct (fst (handle bool (IsDir folder) env)) as [e|[]]; [inversion Hin| |inversion Hin].
    cbn [negb] in Hin. rewrite trace_bind, perform_run in Hin.
    cbn [trace_of outcome_of] in Hin. apply elem_of_app in Hin.
    destruct Hin as [Hin|Hin]; [apply elem_of_cons in Hin; destruct Hin as [Hin|Hin];
                                [discriminate Hin|inversion Hin]|].
    destruct (fst (handle (list string) (ListDir folder) _)); inversion Hin. }
  destruct (outcome_of (find_font_files handle folder env (line :: rest)))
    as [files|e|c] eqn:Hf; cbn [after stop trace_of outcome_of stdin_of];
    [|intros Hin; destruct (Hnot Hin)..].
  destruct (find_font_files_ok handle folder env (line :: rest) files Hf) as [Hin _].
  destruct files as [|first [|second more]].
  - intros H. exfalso. apply elem_of_app in H. destruct H as [H|H]; [exact (Hnot H)|].
    rewrite trace_bind in H. cbn in H. apply elem_of_cons in H.
    destruct H as [H|H]; [discriminate H|inversion H].
  - intros H. exfalso. apply elem_of_app in H. destruct H as [H|H]; [exact (Hnot H)|].
    rewrite trace_bind in H. cbn in H. apply elem_of_cons in H.
    destruct H as [H|H]; [discriminate H|inversion H].
  - rewrite bind_run. cbn [print outcome_of env_of stdin_of trace_of after].
    rewrite bind_run, listing_run. cbn [outcome_of env_of stdin_of trace_of after].
    rewrite bind_run, Hin. cbn [input outcome_of env_of stdin_of trace_of after mret M_ret].
    intros H Hline. split; [|reflexivity]. rewrite Hline. do 3 f_equal.
    apply pick_listed.
    apply elem_of_app in H. destruct H as [H|H]; [destruct (Hnot H)|].
    apply elem_of_cons in H. destruct H as [H|H]; [discriminate H|].
    apply elem_of_app in H. destruct H as [H|H].
    + apply list_elem_of_In, in_map_iff in H. destruct H as ([j g] & Hx & Hjg).
      cbn [fst snd] in Hx. injection Hx as -> ->. apply list_elem_of_In, Hjg.
    + cbn in H. apply elem_of_cons in H. destruct H as [H|H]; [discriminate H|inversion H].
Qed.

End Choices.

Lemma comma_list_counts_as_a_set_demo :
  final_codepoints "41" "43" "42,41" = final_codepoints "41" "43" "41, 42 ,41" /\
  final_codepoints "41" "43" "42,41" = final_codepoints "41" "43" "".
Proof.
  destruct (comma_list_counts_as_a_set "41" "43" "42,41" "41, 42 ,41") as [H1 H2].
  - intros cp. vm_compute listed. rewrite !elem_of_cons, !elem_of_nil. tauto.
  - split; [exact H1|]. apply H2. intros cp. vm_compute listed.
    rewrite !elem_of_cons, elem_of_nil. intros [->|[->|[]]]; vm_compute; reflexivity.
Defined.

Lemma failing_check_is_caught_demo :
  outcome_of (transfer_glyph failing_lookup 0%nat 1%nat (Mock.num 1) "1" 0x41 (2%nat, 3%nat)
                Mock.demo [])
  = Ok (2%nat, 3%nat).
Proof.
  destruct (failing_check_is_caught failing_lookup 0%nat 1%nat (Mock.num 1) "1" 0x41
              2%nat 3%nat Mock.demo [] (Error "lookup failed")) as [-> _]; reflexivity.
Defined.

Lemma typing_a_listed_number_chooses_that_font_demo :
  let w := Mock.World true ["a.ttf"; "notes.txt"; "b.OTF"; "c.ttf"] ["dest.otf"] [] 2000 1000 []
             (Mock.flat 0 0) [] [] None [] in
  outcome_of (choose_file Mock.handle "Source" "Source" w [" 1 "; "next"])
  = Ok (Some (path_join "Source" "b.OTF")).
Proof.
  intros w.
  apply (typing_a_listed_number_chooses_that_font Mock.handle "Source" "Source" w
           " 1 " ["next"] 1%nat "b.OTF").
  - vm_compute. repeat constructor.
  - reflexivity.
Defined.

(* ================================================================== *)
(** * Further properties of the turns of the loop *)
(* ================================================================== *)

Section Turns.

Context {Env : Type} (handle : forall T, call T -> Env -> res T * Env).

#[local] Existing Instance M_ret.
#[local] Existing Instance M_bind.

(** ** A glyph is looked up before it is asked for *)

Lemma looked_up_first_closed : closed looked_up_first.
Proof.
  split.
  - intros [|? ?] ev post f cp H; discriminate H.
  - intros a b Ha Hb pre ev post f cp Heq Hev.
    destruct (app_eq_app _ _ _ _ Heq) as (l & [(Hl & Hr)|(Hl & Hr)]).
    + destruct l as [|x l].
      * simpl in Hr. destruct (Hb [] ev post f cp (eq_sym Hr) Hev) as (src & Hin).
        inversion Hin.
      * simpl in Hr. inversion Hr; subst. eapply Ha; [|exact Hev]. reflexivity.
    + destruct (Hb l ev post f cp Hr Hev) as (src & Hin).
      exists src. subst pre. apply elem_of_app. auto.
Qed.

Lemma looked_up_first_none tr :
  Forall (fun ev => glyph_access ev = None) tr -> looked_up_first tr.
Proof.
  intros H pre ev post f cp -> Hev. rewrite Forall_forall in H.
  assert (ev ∈ pre ++ ev :: post) as Hin by (rewrite elem_of_app, elem_of_cons; auto).
  apply H in Hin. congruence.
Qed.

Lemma has_glyph_shape f cp env inp :
  let r := has_glyph handle f cp env inp in
  (outcome_of r <> Ok true /\ exists x, trace_of r = [Called (Contains f cp) x]) \/
  (exists x, trace_of r = [Called (Contains f cp) (inr true); Called (IsWorthOutputting f cp) x]).
Proof.
  unfold has_glyph. rewrite bind_run, perform_run.
  destruct (handle bool (Contains f cp) env) as [[e|[]] env1]; simpl.
  - left. split; [discriminate|]. eauto.
  - right. rewrite perform_run. simpl. eauto.
  - left. split; [discriminate|]. eauto.
Qed.

Lemma glyph_access_slot ev f cp : glyph_access ev = Some (f, cp) -> slot_of ev = Some cp.
Proof.
  destruct ev as [T c r| |]; [|discriminate..].
  destruct c; cbn; intros H; try discriminate H; injection H as _ <-; reflexivity.
Qed.

Lemma transfer_glyph_source_checked src out scale align cp counts env inp pre ev post f cp' :
  trace_of (transfer_glyph handle src out scale align cp counts env inp) = pre ++ ev :: post ->
  glyph_access ev = Some (f, cp') ->
  Called (Contains src cp') (inr true) ∈ pre.
Proof.
  intros Heq Hev. destruct counts as [r s].
  set (chk := has_glyph handle src cp env inp) in *.
  assert (Hshape := has_glyph_shape src cp env inp). cbv zeta in Hshape. fold chk in Hshape.
  assert (Hturn : exists rest,
             trace_of (transfer_glyph handle src out scale align cp (r, s) env inp)
             = trace_of chk ++ rest /\
             Forall (fun e => forall x, slot_of e = Some x -> x = cp) rest /\
             (outcome_of chk <> Ok true ->
              Forall (fun e => glyph_access e = None) rest)).
  { pose proof (replace_glyph_names handle src out scale align cp
                  (env_of chk) (stdin_of chk)) as Hnames.
    assert (Hbody : Forall (fun e => forall x, slot_of e = Some x -> x = cp)
                      (trace_of (replace_glyph handle src out scale align cp
                                   (env_of chk) (stdin_of chk)))).
    { eapply Forall_impl; [exact Hnames|]. intros e He x Hx.
      unfold names_only in He. rewrite Hx in He. apply Z.eqb_eq, He. }
    destruct (transfer_glyph_cases handle src out scale align cp r s env inp)
      as [(Ho & ->)|[(Ho & _ & ->)|[(e & Ho & ->)|(e & Ho & _ & ->)]]];
      fold chk in Ho |- *; cbn [trace_of]; eexists; (split; [reflexivity|]); split.
    - repeat constructor; intros x Hx; discriminate Hx.
    - intros _. repeat constructor.
    - apply Forall_app. split; [exact Hbody|]. repeat constructor; intros x Hx; discriminate Hx.
    - intros Hne. congruence.
    - repeat constructor; intros x Hx; discriminate Hx.
    - intros _. repeat constructor.
    - apply Forall_app. split; [exact Hbody|]. repeat constructor; intros x Hx; discriminate Hx.
    - intros Hne. congruence. }
  destruct Hturn as (rest & Htr & Hslots & Hquiet). rewrite Htr in Heq.
  destruct (app_eq_app _ _ _ _ Heq) as (l & [(Hl & Hr)|(Hl & Hr)]).
  - (* the event is of the check, or the first of the rest *)
    destruct Hshape as [(Hne & x & Hx)|(x & Hx)].
    + rewrite Hx in Hl. destruct l as [|y l].
      * cbn [app] in Hr. specialize (Hquiet Hne). rewrite <- Hr in Hquiet.
        apply Forall_cons in Hquiet. destruct Hquiet as [Hq _]. congruence.
      * cbn [app] in Hr. injection Hr as <- _.
        destruct pre as [|p pre]; cbn [app] in Hl.
        -- injection Hl as <- _. discriminate Hev.
        -- destruct pre; discriminate Hl.
    + rewrite Hx in Hl. destruct l as [|y l].
      * cbn [app] in Hr. rewrite app_nil_r in Hl. subst pre.
        rewrite <- Hr in Hslots. apply Forall_cons in Hslots. destruct Hslots as [Hs _].
        rewrite (Hs cp' (glyph_access_slot _ _ _ Hev)). rewrite !elem_of_cons. auto.
      * cbn [app] in Hr. injection Hr as <- _.
        destruct pre as [|p [|q pre]]; cbn [app] in Hl.
        -- injection Hl as <- _. discriminate Hev.
        -- injection Hl as <- <- _. cbn in Hev. injection Hev as _ <-.
           rewrite elem_of_cons. auto.
        -- destruct pre; discriminate Hl.
  - (* the event is of the rest *)
    subst pre. rewrite Hr in Hslots, Hquiet.
    apply Forall_app in Hslots. destruct Hslots as [_ Hslots].
    apply Forall_cons in Hslots. destruct Hslots as [Hs _].
    rewrite (Hs cp' (glyph_access_slot _ _ _ Hev)).
    destruct Hshape as [(Hne & x & Hx)|(x & Hx)].
    + specialize (Hquiet Hne). apply Forall_app in Hquiet. destruct Hquiet as [_ Hq].
      apply Forall_cons in Hq. destruct Hq as [Hq _]. congruence.
    + rewrite Hx. rewrite !elem_of_app, !elem_of_cons. auto.
Qed.

Lemma transfer_glyph_looked_up src out scale align cp counts :
  traces looked_up_first (transfer_glyph handle src out scale align cp counts).
Proof.
  intros env inp pre ev post f cp' Heq Hev. exists src.
  eapply transfer_glyph_source_checked; eassumption.
Qed.

Ltac unfold_outside_turn :=
  unfold script, import_guard, main, prepare, collect_codepoints, read_range, read_specific,
    add_specific, read_metadata, select_fonts, choose_file, find_font_files, open_fonts,
    transplant, set_metadata, compute_scale, choose_alignment, transfer_and_save,
    transfer_loop, save_and_close.

Ltac walk_whole ::=
  match goal with
  | |- traces looked_up_first (transfer_glyph _ _ _ _ _ _ _) =>
      apply transfer_glyph_looked_up
  end.

Lemma script_looked_up : traces looked_up_first (script handle).
Proof.
  pose proof looked_up_first_closed as HP.
  unfold_outside_turn. repeat walk_step;
    (apply looked_up_first_none; repeat constructor).
Qed.

Ltac walk_whole ::= fail.

(** X25.  Looked up first.  In every run, a glyph object [font[cp]]
    is asked for (its worth, its box, a transformation, a metric)
    only after a font answered that it contains [cp]; in a turn of
    the loop that font is the source font and [cp] is the turn's code
    point.  So a code point that the source font lacks never reaches
    [src_font[cp]]. *)
Theorem glyphs_are_looked_up_first env inp :
  (forall pre ev post f cp,
     trace_of (script handle env inp) = pre ++ ev :: post ->
     glyph_access ev = Some (f, cp) ->
     exists src, Called (Contains src cp) (inr true) ∈ pre) /\
  (forall src out scale align cp counts env' inp' pre ev post f cp',
     trace_of (transfer_glyph handle src out scale align cp counts env' inp')
     = pre ++ ev :: post ->
     glyph_access ev = Some (f, cp') ->
     cp' = cp /\ Called (Contains src cp) (inr true) ∈ pre).
Proof.
  split; [apply script_looked_up|].
  intros src out scale align cp counts env' inp' pre ev post f cp' Heq Hev.
  assert (Hcp : cp' = cp).
  { pose proof (transfer_glyph_names handle src out scale align cp counts env' inp') as Hn.
    rewrite Heq in Hn. apply Forall_app in Hn. destruct Hn as [_ Hn].
    apply Forall_cons in Hn. destruct Hn as [Hn _].
    unfold names_only in Hn. rewrite (glyph_access_slot _ _ _ Hev) in Hn.
    apply Z.eqb_eq, Hn. }
  split; [exact Hcp|]. subst cp'.
  eapply transfer_glyph_source_checked; eassumption.
Qed.

End Turns.

(* ================================================================== *)
(** * Further properties: the selection *)
(* ================================================================== *)

Section Selection.

Context {Env : Type} (handle : forall T, call T -> Env -> res T * Env).

#[local] Existing Instance M_ret.
#[local] Existing Instance M_bind.

Lemma selection_kept_closed : closed selection_kept.
Proof.
  split.
  - intros [|? ?] ev post H; discriminate H.
  - intros a b Ha Hb pre ev post Heq.
    destruct (app_eq_app _ _ _ _ Heq) as (l & [(Hl & Hr)|(Hl & Hr)]).
    + destruct l as [|x l].
      * simpl in Hr. destruct (Hb [] ev post (eq_sym Hr)) as [Hc Hp]. split.
        -- intros f Hf. destruct (Hc f Hf) as (cp & [|? ?] & H); discriminate H.
        -- intros f Hf. destruct (Hp f Hf) as (src & cp & [|? ?] & H); discriminate H.
      * simpl in Hr. inversion Hr; subst. eapply Ha. reflexivity.
    + destruct (Hb l ev post Hr) as [Hc Hp]. subst pre. split.
      * intros f Hf. destruct (Hc f Hf) as (cp & pre' & ->).
        exists cp, (a ++ pre'). apply app_assoc.
      * intros f Hf. destruct (Hp f Hf) as (src & cp & pre' & ->).
        exists src, cp, (a ++ pre'). apply app_assoc.
Qed.

Lemma selection_kept_other tr :
  Forall (fun ev => cleared ev = None /\ pasted ev = None) tr -> selection_kept tr.
Proof.
  intros H pre ev post ->. rewrite Forall_forall in H.
  assert (ev ∈ pre ++ ev :: post) as Hin by (rewrite elem_of_app, elem_of_cons; auto).
  apply H in Hin. destruct Hin as [Hc Hp]. split; intros f Hf; congruence.
Qed.

(** Where an event sits in a trace that is written out. *)
Ltac locate Heq :=
  match type of Heq with
  | [] = ?pre ++ _ :: _ => destruct pre; discriminate Heq
  | _ :: _ = ?pre ++ _ :: _ =>
      let x := fresh "x" in
      let pre' := fresh "pre" in
      let H := fresh "H" in
      destruct pre as [|x pre']; cbn [app] in Heq;
      [injection Heq as H _; subst
      |injection Heq as H Heq; subst; locate Heq]
  end.

Ltac settle :=
  split; intros ? Hf; cbn in Hf;
  first [discriminate Hf
        |injection Hf as <-;
         first [eexists _, []; reflexivity | eexists _, _, []; reflexivity]].

Lemma clear_and_paste_selection src out cp :
  traces selection_kept (clear_and_paste handle src out cp).
Proof.
  intros env inp. unfold clear_and_paste.
  repeat (rewrite bind_run, perform_run;
          match goal with
          | |- context [handle ?T ?c ?e] =>
              let env' := fresh "env" in
              destruct (handle T c e) as [[?|[]] env']
          end;
          cbn [fst snd outcome_of env_of stdin_of trace_of after stop]).
  all: try (rewrite perform_run;
            match goal with
            | |- context [handle ?T ?c ?e] =>
                let env' := fresh "env" in
                destruct (handle T c e) as [[?|[]] env']
            end;
            cbn [fst snd outcome_of env_of stdin_of trace_of after stop]).
  all: cbn [app]; intros pre ev post Heq; locate Heq; settle.
Qed.

Ltac unfold_outside_paste :=
  unfold script, import_guard, main, prepare, collect_codepoints, read_range, read_specific,
    add_specific, read_metadata, select_fonts, choose_file, find_font_files, open_fonts,
    transplant, set_metadata, compute_scale, choose_alignment, transfer_and_save,
    transfer_loop, transfer_glyph, save_and_close, replace_glyph, old_bounds, has_glyph,
    align_y, copy_bearings.

Ltac walk_whole ::=
  match goal with
  | |- traces selection_kept (clear_and_paste _ _ _ _) =>
      apply clear_and_paste_selection
  end.

Lemma script_selection_kept : traces selection_kept (script handle).
Proof.
  pose proof selection_kept_closed as HP.
  unfold_outside_paste. repeat walk_step;
    (apply selection_kept_other; repeat constructor).
Qed.

Ltac walk_whole ::= fail.

(** X26.  The selection.  In every run, [clear()] is called on a font
    only right after its selection was emptied and one code point
    selected in it, both without failure; and [paste()] is called on
    a font only right after the seven calls before it went through:
    the code point selected alone in that font and cleared, the same
    code point selected alone in the source font and copied, and the
    code point selected in that font again.  So the clear and the
    paste of a turn bear on the slot of the turn's code point and on
    nothing else. *)
Theorem clear_and_paste_bear_on_one_slot env inp :
  forall pre ev post,
    trace_of (script handle env inp) = pre ++ ev :: post ->
    (forall f, cleared ev = Some f ->
       exists cp pre', pre = pre' ++ selects_only f cp) /\
    (forall f, pasted ev = Some f ->
       exists src cp pre', pre = pre' ++ paste_steps src f cp).
Proof. apply script_selection_kept. Qed.

End Selection.

Lemma glyphs_are_looked_up_first_demo :
  let tr := trace_of (Mock.run Mock.demo (Mock.answers "1")) in
  let asks := fun ev => match glyph_access ev with Some _ => true | None => false end in
  exists src, Called (Contains src 0x41) (inr true) ∈ upto asks tr.
Proof.
  intros tr asks.
  apply (proj1 (glyphs_are_looked_up_first Mock.handle Mock.demo (Mock.answers "1"))
           (upto asks tr) (hit asks tr) (beyond asks tr) 0%nat 0x41).
  - vm_compute. reflexivity.
  - vm_compute. reflexivity.
Defined.

Lemma clear_and_paste_bear_on_one_slot_demo :
  let tr := trace_of (Mock.run Mock.demo (Mock.answers "1")) in
  let pastes := fun ev => match pasted ev with Some _ => true | None => false end in
  exists src cp pre', upto pastes tr = pre' ++ paste_steps src 1%nat cp.
Proof.
  intros tr pastes.
  apply (proj2 (clear_and_paste_bear_on_one_slot Mock.handle Mock.demo (Mock.answers "1")
                  (upto pastes tr) (hit pastes tr) (beyond pastes tr)
                  ltac:(vm_compute; reflexivity)) 1%nat).
  vm_compute. reflexivity.
Defined.

(* ================================================================== *)
(** * The literals [int] reads *)
(* ================================================================== *)

Section Literals.










(** ** The digit loop reads the digits of a literal *)









(** ** [int(_, 16)] reads the literals, and nothing else *)




End Literals.

(* ================================================================== *)
(** * The bearings of a replaced glyph *)
(* ================================================================== *)

Section Bearings.

Context {Env : Type} (handle : forall T, call T -> Env -> res T * Env).

#[local] Existing Instance M_ret.
#[local] Existing Instance M_bind.

Ltac none_replaced :=
  let HP := fresh "HP" in
  pose proof (closed_Forall (fun ev => reports_replaced ev = false)) as HP;
  walk; repeat constructor.

Lemma replaced_scaled_closed src out scale : closed (replaced_scaled src out scale).
Proof.
  split.
  - intros [|? ?] post cp H; discriminate H.
  - intros a b Ha Hb pre post cp Heq.
    destruct (app_eq_app _ _ _ _ Heq) as (l & [(Hl & Hr)|(Hl & Hr)]).
    + destruct l as [|x l].
      * simpl in Hr.
        destruct (Hb [] post cp (eq_sym Hr)) as (pre' & w & ? & ? & ? & ? & ? & H & _).
        destruct pre'; discriminate H.
      * simpl in Hr. inversion Hr; subst. eapply Ha. reflexivity.
    + destruct (Hb l post cp Hr) as (pre' & w & l0 & r & w' & l' & r' & -> & Hv).
      exists (a ++ pre'), w, l0, r, w', l', r'. subst pre. rewrite app_assoc. auto.
Qed.

Lemma replaced_scaled_other src out scale tr :
  Forall (fun ev => reports_replaced ev = false) tr -> replaced_scaled src out scale tr.
Proof.
  intros H pre post cp ->. rewrite Forall_forall in H.
  assert (Printed (MReplaced cp) ∈ pre ++ Printed (MReplaced cp) :: post) as Hin
    by (rewrite elem_of_app, elem_of_cons; auto).
  apply H in Hin. discriminate Hin.
Qed.

Lemma assign_scaled_ok (get : call pynum) (set : Z -> call unit) scale env inp :
  outcome_of (assign_scaled handle get set scale env inp) = Ok tt ->
  exists w v,
    scaled w scale = inr v /\
    trace_of (assign_scaled handle get set scale env inp)
    = [Called get (inr w); Called (set v) (inr tt)].
Proof.
  unfold assign_scaled. intros H.
  apply bind_ok_trace in H. destruct H as (w & Hw & H & ->).
  apply bind_ok_trace in H. destruct H as (v & Hv & H & ->).
  destruct (perform_ok handle _ _ _ _ Hw) as [_ ->].
  destruct (perform_ok handle _ _ _ _ H) as [_ ->].
  exists w, v.
  destruct (scaled w scale) as [e|v']; [discriminate Hv|].
  cbn in Hv. injection Hv as ->. split; reflexivity.
Qed.

Lemma copy_bearings_ok src out scale cp env inp :
  outcome_of (copy_bearings handle src out scale cp env inp) = Ok tt ->
  exists w l r w' l' r',
    trace_of (copy_bearings handle src out scale cp env inp)
    = bearing_steps src out cp w l r w' l' r' /\
    scaled w scale = inr w' /\ scaled l scale = inr l' /\ scaled r scale = inr r'.
Proof.
  unfold copy_bearings. intros H.
  apply bind_ok_trace in H. destruct H as ([] & H1 & H & ->).
  apply bind_ok_trace in H. destruct H as ([] & H2 & H3 & ->).
  destruct (assign_scaled_ok _ _ _ _ _ H1) as (w & w' & Hw & ->).
  destruct (assign_scaled_ok _ _ _ _ _ H2) as (l & l' & Hl & ->).
  destruct (assign_scaled_ok _ _ _ _ _ H3) as (r & r' & Hr & ->).
  exists w, l, r, w', l', r'. auto.
Qed.

Lemma replace_glyph_ok src out scale align cp env inp :
  outcome_of (replace_glyph handle src out scale align cp env inp) = Ok tt ->
  exists pre w l r w' l' r',
    trace_of (replace_glyph handle src out scale align cp env inp)
    = pre ++ bearing_steps src out cp w l r w' l' r' /\
    scaled w scale = inr w' /\ scaled l scale = inr l' /\ scaled r scale = inr r'.
Proof.
  unfold replace_glyph. intros H.
  apply bind_ok_trace in H. destruct H as ([top bot] & _ & H & ->).
  apply bind_ok_trace in H. destruct H as ([] & _ & H & ->).
  apply bind_ok_trace in H. destruct H as ([] & _ & H & ->).
  apply bind_ok_trace in H. destruct H as ([] & _ & H & ->).
  destruct (copy_bearings_ok _ _ _ _ _ _ H) as (w & l & r & w' & l' & r' & -> & Hv).
  eexists _, w, l, r, w', l', r'. split; [|exact Hv].
  rewrite !app_assoc. reflexivity.
Qed.

Lemma silent_not_replaced ev : silent ev = true -> reports_replaced ev = false.
Proof. destruct ev as [T c r|m|p l]; [reflexivity|discriminate|reflexivity]. Qed.

(** A turn of the loop prints [replaced] only after the three metrics
    were written. *)
Lemma transfer_glyph_replaced src out scale align cp counts :
  traces (replaced_scaled src out scale) (transfer_glyph handle src out scale align cp counts).
Proof.
  intros env inp. destruct counts as [r s].
  pose proof (has_glyph_silent handle src cp env inp) as Hchk.
  pose proof (replace_glyph_silent handle src out scale align cp
                (env_of (has_glyph handle src cp env inp))
                (stdin_of (has_glyph handle src cp env inp))) as Hbody.
  assert (Hq : forall tr, Forall (fun ev => silent ev = true) tr ->
                          Forall (fun ev => reports_replaced ev = false) tr).
  { intros tr Htr. eapply Forall_impl; [exact Htr|]. apply silent_not_replaced. }
  destruct (transfer_glyph_cases handle src out scale align cp r s env inp)
    as [(_ & ->)|[(_ & Hok & ->)|[(e & _ & ->)|(e & _ & _ & ->)]]]; cbn [trace_of].
  - apply replaced_scaled_other. apply Forall_app. split; [auto|repeat constructor].
  - destruct (replace_glyph_ok _ _ _ _ _ _ _ Hok)
      as (pre0 & w & l & r0 & w' & l' & r' & Hbt & Hv).
    intros pre post cp' Heq.
    destruct (split_skip (fun ev => reports_replaced ev = false) _ _ _ _ _ Heq (Hq _ Hchk))
      as (pre1 & -> & Heq1); [discriminate|].
    destruct (split_skip (fun ev => reports_replaced ev = false) _ _ _ _ _ Heq1 (Hq _ Hbody))
      as (pre2 & -> & Heq2); [discriminate|].
    destruct pre2 as [|x pre2]; [|destruct pre2; discriminate Heq2].
    injection Heq2 as <- _. rewrite app_nil_r, Hbt.
    exists (trace_of (has_glyph handle src cp env inp) ++ pre0), w, l, r0, w', l', r'.
    rewrite app_assoc. auto.
  - apply replaced_scaled_other. apply Forall_app. split; [auto|repeat constructor].
  - apply replaced_scaled_other. rewrite !Forall_app. repeat split; auto; repeat constructor.
Qed.

Lemma transfer_loop_replaced src out scale align cps :
  traces (replaced_scaled src out scale) (transfer_loop handle src out scale align cps).
Proof.
  unfold transfer_loop. apply traces_for_each; [apply replaced_scaled_closed|].
  intros cp counts. apply transfer_glyph_replaced.
Qed.

Lemma save_and_close_none_replaced src out output_path counts :
  traces (Forall (fun ev => reports_replaced ev = false))
    (save_and_close handle src out output_path counts).
Proof. none_replaced. Qed.

Lemma transfer_and_save_replaced src out scale align cps output_path :
  traces (replaced_scaled src out scale)
    (transfer_and_save handle src out scale align cps output_path).
Proof.
  unfold transfer_and_save.
  apply traces_bind; [apply replaced_scaled_closed|apply transfer_loop_replaced|].
  intros counts env inp. apply replaced_scaled_other, save_and_close_none_replaced.
Qed.

Lemma set_metadata_none_replaced out name author license :
  traces (Forall (fun ev => reports_replaced ev = false))
    (set_metadata handle out name author license).
Proof. none_replaced. Qed.

Lemma compute_scale_none_replaced src out :
  traces (Forall (fun ev => reports_replaced ev = false)) (compute_scale handle src out).
Proof. none_replaced. Qed.

Lemma choose_alignment_none_replaced :
  traces (Forall (fun ev => reports_replaced ev = false)) (@choose_alignment Env).
Proof. none_replaced. Qed.

(** In the work on the open fonts, every line [replaced] comes right
    after the three metrics of its slot were written, scaled by the
    quotient of the units per em read before. *)
Lemma transplant_replaced cps name author license output_path src out env inp :
  forall pre post cp,
    trace_of (transplant handle cps name author license output_path src out env inp)
      = pre ++ Printed (MReplaced cp) :: post ->
    exists pre' w l r w' l' r' a b scale,
      pre = pre' ++ bearing_steps src out cp w l r w' l' r' /\
      Called (GetEm out) (inr a) ∈ pre' /\
      Called (GetEm src) (inr b) ∈ pre' /\
      py_truediv a b = inr scale /\
      scaled w scale = inr w' /\ scaled l scale = inr l' /\ scaled r scale = inr r'.
Proof.
  intros pre post cp Heq. unfold transplant in Heq.
  assert (Hnot : ~ reports_replaced (Printed (MReplaced cp)) = false) by discriminate.
  destruct (bind_split _ _ _ _ (fun e => reports_replaced e = false) _ _ _ Heq
              (set_metadata_none_replaced _ _ _ _ _ _) Hnot) as (u & pre1 & _ & -> & Heq1).
  destruct (bind_split _ _ _ _ (fun e => reports_replaced e = false) _ _ _ Heq1
              (compute_scale_none_replaced _ _ _ _) Hnot) as (scale & pre2 & Hscale & -> & Heq2).
  destruct (bind_split _ _ _ _ (fun e => reports_replaced e = false) _ _ _ Heq2
              (choose_alignment_none_replaced _ _) Hnot) as (align & pre3 & _ & -> & Heq3).
  destruct (compute_scale_ok _ _ _ _ _ _ Hscale) as (a & b & Hdiv & Htr).
  destruct (transfer_and_save_replaced src out scale align cps output_path _ _
              pre3 post cp Heq3) as (pre' & w & l & r & w' & l' & r' & -> & Hv).
  rewrite Htr, !app_assoc.
  eexists _, w, l, r, w', l', r', a, b, scale.
  split; [reflexivity|]. repeat split; try apply Hv; auto.
  - rewrite !elem_of_app, !elem_of_cons. auto 10.
  - rewrite !elem_of_app, !elem_of_cons. auto 10.
Qed.

End Bearings.

(* ================================================================== *)
(** * Sums and differences without rounding *)
(* ================================================================== *)

Section Floats.

Lemma iter_pos_iter {A} (f : A -> A) p : forall x, SpecFloat.iter_pos f p x = Pos.iter f x p.
Proof.
  induction p as [p IH|p IH|]; intros x; cbn [SpecFloat.iter_pos Pos.iter].
  - rewrite !IH, !Pos.iter_swap. reflexivity.
  - rewrite !IH. reflexivity.
  - reflexivity.
Qed.

Lemma shifted_value m d : Z.pos (Pos.iter xO m d) = Z.pos m * 2 ^ Z.pos d.
Proof.
  induction d as [|d IH] using Pos.peano_ind.
  - cbn [Pos.iter]. lia.
  - rewrite Pos.iter_succ, Pos2Z.inj_xO, IH, Pos2Z.inj_succ, Z.pow_succ_r by lia. lia.
Qed.

Lemma shifted_digits m d : digits2_pos (Pos.iter xO m d) = (digits2_pos m + d)%positive.
Proof.
  induction d as [|d IH] using Pos.peano_ind.
  - cbn [Pos.iter digits2_pos]. lia.
  - rewrite Pos.iter_succ. cbn [digits2_pos]. rewrite IH. lia.
Qed.

Lemma shift_back m d :
  SpecFloat.iter_pos shr_1 d (Build_shr_record (Z.pos (Pos.iter xO m d)) false false)
  = Build_shr_record (Z.pos m) false false.
Proof.
  rewrite iter_pos_iter.
  induction d as [|d IH] using Pos.peano_ind.
  - reflexivity.
  - rewrite Pos.iter_succ_r, Pos.iter_succ. cbn [shr_1 orb]. exact IH.
Qed.

(** A mantissa that is canonical at its exponent is left as it is. *)
Lemma round_canonical s m e :
  bounded prec emax m e = true ->
  binary_round_aux prec emax s (Z.pos m) e loc_Exact = S754_finite s m e.
Proof.
  unfold bounded, canonical_mantissa. rewrite andb_true_iff, Z.eqb_eq, Z.leb_le.
  intros [Hc He]. unfold binary_round_aux, shr_fexp. cbn [Zdigits2 shr_record_of_loc].
  rewrite Hc, Z.sub_diag. cbn [shr shr_m loc_of_shr_record round_nearest_even Zdigits2
                                 shr_record_of_loc].
  rewrite Hc, Z.sub_diag. cbn [shr shr_m].
  destruct (Z.leb_spec e (emax - prec)); [reflexivity|lia].
Qed.

(** The float of a value that a canonical mantissa and exponent
    represent, given with a longer mantissa... *)
Lemma round_longer s m e d :
  bounded prec emax m e = true ->
  binary_round prec emax s (Pos.iter xO m d) (e - Z.pos d) = S754_finite s m e.
Proof.
  intros Hb. pose proof Hb as Hb'. unfold bounded, canonical_mantissa in Hb'.
  rewrite andb_true_iff, Z.eqb_eq, Z.leb_le in Hb'. destruct Hb' as [Hc He].
  unfold binary_round. rewrite shifted_digits.
  replace (Z.pos (digits2_pos m + d) + (e - Z.pos d)) with (Z.pos (digits2_pos m) + e) by lia.
  rewrite Hc. unfold shl_align.
  replace (e - (e - Z.pos d)) with (Z.pos d) by lia.
  unfold binary_round_aux, shr_fexp. cbn [Zdigits2 shr_record_of_loc].
  rewrite shifted_digits.
  replace (Z.pos (digits2_pos m + d) + (e - Z.pos d)) with (Z.pos (digits2_pos m) + e) by lia.
  rewrite Hc. replace (e - (e - Z.pos d)) with (Z.pos d) by lia.
  cbn [shr]. rewrite shift_back.
  cbn [shr_m loc_of_shr_record round_nearest_even Zdigits2 shr_record_of_loc].
  replace (e - Z.pos d + Z.pos d) with e by lia.
  rewrite Hc, Z.sub_diag. cbn [shr shr_m].
  destruct (Z.leb_spec e (emax - prec)); [reflexivity|lia].
Qed.

(** ... or with a shorter one. *)
Lemma round_shorter s m e d :
  bounded prec emax (Pos.iter xO m d) e = true ->
  binary_round prec emax s m (e + Z.pos d) = S754_finite s (Pos.iter xO m d) e.
Proof.
  intros Hb. pose proof Hb as Hb'. unfold bounded, canonical_mantissa in Hb'.
  rewrite andb_true_iff, Z.eqb_eq, Z.leb_le in Hb'. destruct Hb' as [Hc He].
  rewrite shifted_digits in Hc.
  unfold binary_round.
  replace (Z.pos (digits2_pos m) + (e + Z.pos d)) with (Z.pos (digits2_pos m + d) + e) by lia.
  rewrite Hc. unfold shl_align.
  replace (e - (e + Z.pos d)) with (Z.neg d) by lia.
  apply round_canonical, Hb.
Qed.

(** The float of [v * 2^E], when that is the value of the canonical
    [m] and [e] with the sign [s]. *)
Lemma normalize_value (s : bool) m e v E szero :
  bounded prec emax m e = true ->
  (E <= e /\ v = (if s then - Z.pos m else Z.pos m) * 2 ^ (e - E) \/
   e < E /\ v * 2 ^ (E - e) = (if s then - Z.pos m else Z.pos m)) ->
  binary_normalize prec emax v E szero = S754_finite s m e.
Proof.
  intros Hb [[HE Hv]|[HE Hv]].
  - assert (Hpos : exists p, Z.pos p = Z.pos m * 2 ^ (e - E) /\
                             binary_round prec emax s p E = S754_finite s m e).
    { destruct (Z.eq_dec E e) as [->|Hne].
      - exists m. rewrite Z.sub_diag. split; [lia|].
        unfold binary_round. pose proof Hb as Hb'. unfold bounded, canonical_mantissa in Hb'.
        rewrite andb_true_iff, Z.eqb_eq in Hb'. destruct Hb' as [Hc _]. rewrite Hc.
        unfold shl_align. rewrite Z.sub_diag. apply round_canonical, Hb.
      - destruct (e - E) as [|d|d] eqn:Hd; try lia.
        exists (Pos.iter xO m d). split; [apply shifted_value|].
        replace E with (e - Z.pos d) by lia. apply round_longer, Hb. }
    destruct Hpos as (p & Hp & Hr).
    destruct s; [replace v with (Z.neg p) by lia|replace v with (Z.pos p) by lia];
      cbn [binary_normalize]; exact Hr.
  - destruct (E - e) as [|d|d] eqn:Hd; try lia.
    assert (Hv' : exists p, Z.pos p = Z.abs v /\ m = Pos.iter xO p d /\
                            v = if s then Z.neg p else Z.pos p).
    { assert (0 < 2 ^ Z.pos d) by (apply Z.pow_pos_nonneg; lia).
      destruct v as [|p|p]; destruct s; try nia.
      - exists p. split; [reflexivity|]. split; [|reflexivity].
        pose proof (shifted_value p d). lia.
      - exists p. split; [reflexivity|]. split; [|reflexivity].
        pose proof (shifted_value p d). lia. }
    destruct Hv' as (p & _ & -> & ->).
    replace E with (e + Z.pos d) by lia.
    destruct s; cbn [binary_normalize]; apply round_shorter, Hb.
Qed.

Lemma aligned_value m e ez :
  ez <= e -> Z.pos (fst (shl_align m e ez)) = Z.pos m * 2 ^ (e - ez).
Proof.
  intros He. unfold shl_align.
  destruct (ez - e) as [|d|d] eqn:Hd; cbn [fst]; try lia.
  - replace (e - ez) with 0 by lia. lia.
  - rewrite shifted_value. f_equal. f_equal. lia.
Qed.

Lemma in_units_finite e0 (s : bool) m e :
  in_units e0 (PyFloat (S754_finite s m e)) = (if s then - Z.pos m else Z.pos m) * 2 ^ (e - e0).
Proof. reflexivity. Qed.

Lemma in_units_rescale e0 e1 s m e :
  e0 <= e1 -> e1 <= e ->
  in_units e0 (PyFloat (S754_finite s m e))
  = in_units e1 (PyFloat (S754_finite s m e)) * 2 ^ (e1 - e0).
Proof.
  intros H0 H1. rewrite !in_units_finite, <- Z.mul_assoc, <- Z.pow_add_r by lia.
  f_equal. f_equal. lia.
Qed.

(** Two canonical floats of the same value are the same float. *)
Lemma same_value_same_float sa ma ea sb mb eb :
  bounded prec emax ma ea = true -> bounded prec emax mb eb = true ->
  in_units (Z.min ea eb) (PyFloat (S754_finite sa ma ea))
  = in_units (Z.min ea eb) (PyFloat (S754_finite sb mb eb)) ->
  S754_finite sa ma ea = S754_finite sb mb eb.
Proof.
  intros Ha Hb Heq. rewrite !in_units_finite in Heq.
  assert (Hpa : 0 < 2 ^ (ea - Z.min ea eb)) by (apply Z.pow_pos_nonneg; lia).
  assert (Hpb : 0 < 2 ^ (eb - Z.min ea eb)) by (apply Z.pow_pos_nonneg; lia).
  assert (Hs : sa = sb) by (destruct sa, sb; try reflexivity; nia).
  subst sb.
  rewrite <- (normalize_value sa ma ea (if sa then Z.neg mb else Z.pos mb) eb false Ha).
  - apply (normalize_value sa mb eb _ eb false Hb). left. split; [lia|].
    rewrite Z.sub_diag. destruct sa; lia.
  - destruct (Z.le_gt_cases eb ea) as [Hle|Hgt]; [left|right]; (split; [lia|]).
    + rewrite Z.min_r in Heq by lia. rewrite Z.sub_diag in Heq. destruct sa; lia.
    + rewrite Z.min_l in Heq by lia. rewrite Z.sub_diag in Heq. destruct sa; lia.
Qed.

(** When the difference was not rounded, adding it back gives the
    float one started from. *)
Lemma add_back a b y :
  coordinate a = true -> coordinate b = true -> is_zero a = false ->
  SFsub prec emax a b = y ->
  exact_difference a b y ->
  SFadd prec emax b y = a.
Proof.
  intros Ha Hb Hnz Hsub [Hy Hex]. cbv zeta in Hex.
  destruct a as [sa| | |sa ma ea]; try discriminate. clear Hnz.
  destruct b as [sb| | |sb mb eb]; try discriminate.
  { (* nothing is taken away *) cbn in Hsub. subst y. reflexivity. }
  cbn [coordinate] in Ha, Hb. clear Hsub.
  destruct y as [sy| | |sy my ey]; try discriminate.
  - (* the difference is zero *)
    cbn [SFadd]. symmetry. apply same_value_same_float; [exact Ha|exact Hb|].
    cbn [exponent_of] in Hex.
    change (in_units _ (PyFloat (S754_zero sy))) with 0 in Hex.
    set (e0 := Z.min ea (Z.min eb 0)) in Hex.
    rewrite (in_units_rescale e0 (Z.min ea eb) sa ma ea) in Hex by (subst e0; lia).
    rewrite (in_units_rescale e0 (Z.min ea eb) sb mb eb) in Hex by (subst e0; lia).
    assert (0 < 2 ^ (Z.min ea eb - e0)) by (apply Z.pow_pos_nonneg; subst e0; lia).
    nia.
  - cbn [exponent_of] in Hex. cbn [SFadd].
    set (ez := Z.min eb ey). set (e0 := Z.min ea (Z.min eb ey)) in Hex.
    rewrite !aligned_value by (subst ez; lia).
    assert (Hsum : cond_Zopp sb (Z.pos mb * 2 ^ (eb - ez)) +
                   cond_Zopp sy (Z.pos my * 2 ^ (ey - ez))
                   = in_units ez (PyFloat (S754_finite sb mb eb)) +
                     in_units ez (PyFloat (S754_finite sy my ey))).
    { rewrite !in_units_finite. destruct sb, sy; cbn [cond_Zopp]; lia. }
    rewrite Hsum. clear Hsum.
    rewrite (in_units_rescale e0 ez sb mb eb) in Hex by (subst e0 ez; lia).
    rewrite (in_units_rescale e0 ez sy my ey) in Hex by (subst e0 ez; lia).
    set (v := in_units ez (PyFloat (S754_finite sb mb eb)) +
              in_units ez (PyFloat (S754_finite sy my ey))) in *.
    assert (Hv : v * 2 ^ (ez - e0) = in_units e0 (PyFloat (S754_finite sa ma ea))) by lia.
    clear Hex. rewrite in_units_finite in Hv.
    apply normalize_value; [exact Ha|].
    destruct (Z.le_gt_cases ez ea) as [Hle|Hgt]; [left|right]; (split; [lia|]).
    + assert (He0 : e0 = ez) by (subst e0 ez; lia). rewrite He0, Z.sub_diag in Hv. lia.
    + assert (He0 : e0 = ea) by (subst e0 ez; lia). rewrite He0, Z.sub_diag in Hv. lia.
Qed.

End Floats.

(** A top that is moved by a difference that was not rounded is the
    top that the difference was taken from. *)
Lemma shift_back_to_top a b y :
  py_sub a b = inr y -> unrounded a b y -> Mock.py_add b y = a.
Proof.
  intros Hsub Hun. destruct a as [x|fa], b as [x'|fb]; try (destruct y; contradiction).
  - cbn in Hsub. inversion Hsub. cbn. f_equal. lia.
  - destruct y as [z|fy]; [contradiction|].
    destruct Hun as (Ha & Hb & Hnz & Hex).
    cbn in Hsub. injection Hsub as Hy. cbn [Mock.py_add float_op to_float]. f_equal.
    apply add_back; assumption.
Qed.

(* ================================================================== *)
(** * The glyph that is moved *)
(* ================================================================== *)

Section Alignment.

Context {Env : Type} (handle : forall T, call T -> Env -> res T * Env).

#[local] Existing Instance M_ret.
#[local] Existing Instance M_bind.

Lemma clear_and_paste_ok src out cp env inp :
  outcome_of (clear_and_paste handle src out cp env inp) = Ok tt ->
  trace_of (clear_and_paste handle src out cp env inp)
  = paste_steps src out cp ++ [Called (Paste out) (inr tt)].
Proof.
  unfold clear_and_paste. intros H.
  repeat (apply bind_ok_trace in H;
          let H1 := fresh "H" in
          destruct H as ([] & H1 & H & ->);
          rewrite (perform_unit_ok handle _ _ _ H1)).
  rewrite (perform_unit_ok handle _ _ _ H). reflexivity.
Qed.

(** In one replacement, the only translation comes right after the
    glyph was pasted, scaled and measured, and its vertical part is
    [shift_y]. *)
Lemma replace_glyph_shift src out scale align cp env inp :
  forall pre ev post f c x y,
    trace_of (replace_glyph handle src out scale align cp env inp) = pre ++ ev :: post ->
    translation_of ev = Some (f, c, x, y) ->
    f = out /\ c = cp /\ x = PyInt 0 /\
    exists top bot new_box,
      outcome_of (old_bounds handle out cp env inp) = Ok (top, bot) /\
      pre = trace_of (old_bounds handle out cp env inp) ++ paste_steps src out cp ++
            [Called (Paste out) (inr tt);
             Called (Transform out cp (Scale scale)) (inr tt);
             Called (BoundingBox out cp) (inr new_box)] /\
      vertical_shift align top bot (ymax new_box) (ymin new_box) = inr y.
Proof.
  intros pre ev post f c x y Heq Ht. unfold replace_glyph in Heq.
  pose proof (moved_not_put _ _ Ht) as Hnot.
  destruct (bind_split _ _ _ _ (fun e => stays_put e = true) _ _ _ Heq
              (old_bounds_stays_put _ _ _ _ _) Hnot) as ([top bot] & pre1 & Hold & -> & Heq1).
  destruct (bind_split _ _ _ _ (fun e => stays_put e = true) _ _ _ Heq1
              (clear_and_paste_stays_put _ _ _ _ _ _) Hnot) as ([] & pre2 & Hpaste & -> & Heq2).
  destruct (bind_split _ _ _ _ (fun e => stays_put e = true) _ _ _ Heq2) as
    ([] & pre3 & Hscale & -> & Heq3); [rewrite perform_run; repeat constructor|exact Hnot|].
  destruct (bind_find _ _ _ _ (fun e => stays_put e = true) _ _ _ Heq3) as (post' & Hal);
    [intros _; apply copy_bearings_stays_put|exact Hnot|].
  destruct (align_y_translation _ out align top bot cp _ _ _ _ _ _ _ _ _ Hal Ht)
    as (-> & -> & -> & _ & nb & -> & Hs).
  repeat split; auto. exists top, bot, nb.
  split; [exact Hold|]. split; [|exact Hs].
  rewrite (clear_and_paste_ok _ _ _ _ _ Hpaste), (perform_unit_ok handle _ _ _ Hscale).
  rewrite <- !app_assoc. reflexivity.
Qed.

(** Lines 196-204 under mode 2, in a world that moves boxes: the
    glyph is measured, translated by the old top less the new top,
    and measures as the box so moved. *)
Lemma align_y_moves out old_top old_bot cp env inp :
  moves_boxes handle ->
  outcome_of (align_y handle out "2" (Some old_top) old_bot cp env inp) = Ok tt ->
  exists new_box y,
    py_sub old_top (ymax new_box) = inr y /\
    trace_of (align_y handle out "2" (Some old_top) old_bot cp env inp)
    = [Called (BoundingBox out cp) (inr new_box);
       Called (Transform out cp (Translate (PyInt 0) y)) (inr tt)] /\
    fst (handle box (BoundingBox out cp)
           (env_of (align_y handle out "2" (Some old_top) old_bot cp env inp)))
    = inr (translated (PyInt 0) y new_box).
Proof.
  intros Hmoves. unfold align_y. rewrite bind_run, perform_run.
  destruct (handle box (BoundingBox out cp) env) as [[e|nb] env1] eqn:Hbox;
    cbn [fst snd outcome_of env_of stdin_of trace_of after stop]; [discriminate|].
  rewrite bind_run. cbn [vertical_shift String.eqb Ascii.eqb Bool.eqb].
  destruct (py_sub old_top (ymax nb)) as [e|y] eqn:Hsub;
    cbn [lift raise mret M_ret outcome_of env_of stdin_of trace_of after stop]; [discriminate|].
  rewrite perform_run.
  destruct (handle unit (Transform out cp (Translate (PyInt 0) y)) env1) as [[e|[]] env2] eqn:Ht;
    cbn [fst snd outcome_of env_of stdin_of trace_of after stop app]; [discriminate|].
  intros _. exists nb, y. split; [exact Hsub|]. split; [reflexivity|].
  pose proof (Hmoves env out cp nb (PyInt 0) y) as H. cbv zeta in H.
  rewrite Hbox in H. cbn [fst snd] in H. specialize (H eq_refl).
  rewrite Ht in H. cbn [fst snd] in H. apply H. reflexivity.
Qed.

End Alignment.

Lemma mock_moves_boxes : moves_boxes Mock.handle.
Proof.
  intros w f cp b x y. cbn [Mock.handle fst snd].
  destruct f as [|f]; [discriminate|].
  destruct (Mock.lookup cp (Mock.out_boxes w)) as [b0|] eqn:Hl; [|discriminate].
  intros Hb. injection Hb as ->. intros _.
  unfold Mock.set_boxes. cbn [Mock.out_boxes Mock.lookup List.find fst snd].
  unfold Mock.lookup. cbn [List.find]. rewrite Z.eqb_refl. reflexivity.
Qed.

(* ================================================================== *)
(** * The files of a run *)
(* ================================================================== *)

Section Files.

Context {Env : Type} (handle : forall T, call T -> Env -> res T * Env).

#[local] Existing Instance M_ret.
#[local] Existing Instance M_bind.

(** ** A font that does not open *)

Lemma import_guard_opens : traces (Forall (fun ev => reports_open_error ev = false))
                             (import_guard handle).
Proof.
  pose proof (closed_Forall (fun ev => reports_open_error ev = false)) as HP.
  walk; repeat constructor.
Qed.

Lemma prepare_opens : traces (Forall (fun ev => reports_open_error ev = false))
                        (prepare handle).
Proof.
  pose proof (closed_Forall (fun ev => reports_open_error ev = false)) as HP.
  walk; repeat constructor.
Qed.

Lemma open_fonts_failure p env inp :
  outcome_of (open_fonts handle (plan_source p) (plan_output p) env inp) = Exit 1 ->
  open_failure p (trace_of (open_fonts handle (plan_source p) (plan_output p) env inp)).
Proof.
  unfold open_fonts. rewrite try_run, bind_run, perform_run.
  destruct (handle font (FFOpen (plan_source p)) env) as [[e|src] env1];
    cbn [fst snd outcome_of env_of stdin_of trace_of after stop].
  - intros _. exists e. left. reflexivity.
  - rewrite bind_run, perform_run.
    destruct (handle font (FFOpen (plan_output p)) env1) as [[e|out] env2];
      cbn [fst snd outcome_of env_of stdin_of trace_of after stop].
    + intros _. exists e. right. exists src. reflexivity.
    + discriminate.
Qed.

(** When a font cannot be opened, the run is: the questions, the copy
    of the destination font to the output path, the failure. *)
Lemma script_open_failure env inp ev :
  reports_open_error ev = true ->
  ev ∈ trace_of (script handle env inp) ->
  let g := import_guard handle env inp in
  let rp := prepare handle (env_of g) (stdin_of g) in
  exists p rest,
    outcome_of rp = Ok p /\
    trace_of (script handle env inp)
    = (trace_of g ++ trace_of rp) ++
      Called (Copy2 (plan_dest p) (plan_output p)) (inr tt) :: rest /\
    open_failure p rest.
Proof.
  intros Hev Hin g rp.
  destruct (script_open_error handle env inp ev Hev Hin) as [Hexit _].
  revert Hexit Hin. unfold script. rewrite outcome_bind, trace_bind. fold g.
  destruct (outcome_of g) as [[]|e|c] eqn:Hg; [|discriminate|].
  2:{ intros _ Hin. exfalso. rewrite app_nil_r in Hin.
      pose proof (import_guard_opens env inp) as Hq. fold g in Hq.
      rewrite Forall_forall in Hq. apply Hq in Hin. congruence. }
  unfold main. rewrite outcome_bind, trace_bind. fold rp.
  destruct (outcome_of rp) as [p|e|c] eqn:Hp; [|discriminate|].
  2:{ intros _ Hin. exfalso. rewrite app_nil_r in Hin.
      pose proof (import_guard_opens env inp) as Hq1. fold g in Hq1.
      pose proof (prepare_opens (env_of g) (stdin_of g)) as Hq2. fold rp in Hq2.
      rewrite Forall_forall in Hq1, Hq2. apply elem_of_app in Hin.
      destruct Hin as [Hin|Hin]; [apply Hq1 in Hin|apply Hq2 in Hin]; congruence. }
  cbv zeta. fold (plan_output p).
  rewrite outcome_bind, trace_bind, perform_run.
  cbn [fst snd outcome_of env_of stdin_of trace_of].
  destruct (fst (handle unit (Copy2 (plan_dest p) (plan_output p)) (env_of rp)))
    as [e|[]]; [discriminate|].
  rewrite outcome_bind, trace_bind.
  set (env1 := snd (handle unit (Copy2 (plan_dest p) (plan_output p)) (env_of rp))).
  destruct (outcome_of (open_fonts handle (plan_source p) (plan_output p) env1 (stdin_of rp)))
    as [[src out]|e|c] eqn:Ho.
  - intros Hexit _. exfalso. eapply transplant_no_exit, Hexit.
  - discriminate.
  - intros Hexit _. injection Hexit as ->.
    exists p. eexists. split; [reflexivity|].
    rewrite app_nil_r, <- app_assoc. split; [reflexivity|].
    apply open_fonts_failure, Ho.
Qed.

(** ** An event that changes a font *)

(** Whatever changes a font or saves one comes after the questions,
    the copy of the destination font to the output path and the
    opening of the two fonts, in this order, and after nothing else
    but work on the output font. *)
Lemma script_change env inp pre ev post :
  trace_of (script handle env inp) = pre ++ ev :: post ->
  harmless ev = false ->
  let g := import_guard handle env inp in
  let rp := prepare handle (env_of g) (stdin_of g) in
  exists p src out body,
    outcome_of rp = Ok p /\
    fst (handle unit (Copy2 (plan_dest p) (plan_output p)) (env_of rp)) = inr tt /\
    pre = (trace_of g ++ trace_of rp) ++ copy_and_open p src out ++ body /\
    Forall (fun e => quiet e = true) (trace_of g ++ trace_of rp) /\
    Forall (fun e => confined out (plan_output p) e = true) body /\
    confined out (plan_output p) ev = true.
Proof.
  intros Heq Hev g rp.
  assert (Hnq : ~ idle ev = true).
  { intros H. apply idle_harmless in H. congruence. }
  destruct (script_anatomy handle env inp) as [Hall|(p & Hp & rest & Htr & Hq & Hrest)].
  - exfalso. rewrite Heq in Hall. apply Forall_app in Hall. destruct Hall as [_ Hall].
    apply Forall_cons in Hall. destruct Hall as [Hall _]. apply Hnq, quiet_idle, Hall.
  - cbv zeta in *. fold g rp in Hp, Htr, Hq, Hrest. fold (plan_output p) in Htr, Hrest.
    exists p.
    destruct (fst (handle unit (Copy2 (plan_dest p) (plan_output p)) (env_of rp)))
      as [e|[]] eqn:Hc.
    { exfalso. destruct Hrest as [Hidle|(Hcr & _)]; [|discriminate Hcr].
      rewrite Htr in Heq.
      assert (Hall : Forall (fun e => idle e = true)
                       ((trace_of g ++ trace_of rp) ++
                        Called (Copy2 (plan_dest p) (plan_output p)) (inl e) :: rest)).
      { apply Forall_app. split; [eapply Forall_impl; [exact Hq|apply quiet_idle]|].
        constructor; [reflexivity|exact Hidle]. }
      rewrite Heq in Hall. apply Forall_app in Hall. destruct Hall as [_ Hall].
      apply Forall_cons in Hall. destruct Hall as [Hall _]. contradiction. }
    rewrite Htr in Heq.
    destruct (split_skip (fun e => idle e = true) _ _ _ _ _ Heq) as (pre1 & -> & Heq1);
      [eapply Forall_impl; [exact Hq|apply quiet_idle]|exact Hnq|].
    destruct pre1 as [|c0 pre1]; cbn [app] in Heq1; injection Heq1 as He Hr.
    { exfalso. subst ev. discriminate Hev. }
    subst c0.
    destruct Hrest as [Hidle|(_ & src & out & body & Hb & Hbody)].
    + exfalso. rewrite Hr in Hidle. apply Forall_app in Hidle. destruct Hidle as [_ Hidle].
      apply Forall_cons in Hidle. destruct Hidle as [Hidle _]. contradiction.
    + rewrite Hb in Hr.
      destruct pre1 as [|c1 [|c2 pre1]]; cbn [app] in Hr.
      { exfalso. injection Hr as H1 H2. subst ev. discriminate Hev. }
      { exfalso. injection Hr as H1 H2 H3. subst ev. discriminate Hev. }
      injection Hr as H1 H2 H3. subst c1 c2 body.
      apply Forall_app in Hbody. destruct Hbody as [Hbody Hev'].
      apply Forall_cons in Hev'. destruct Hev' as [Hev' _].
      exists src, out, pre1. repeat split; auto.
Qed.

(** ** The files a run writes *)

(** A run copies nothing but the destination font to the output path,
    and writes no file but the output path. *)
Lemma script_files env inp :
  let g := import_guard handle env inp in
  let rp := prepare handle (env_of g) (stdin_of g) in
  (forall c d o,
     c ∈ trace_of (script handle env inp) -> copied c = Some (d, o) ->
     exists p,
       outcome_of rp = Ok p /\ d = plan_dest p /\ o = plan_output p /\
       fst (handle unit (Copy2 (plan_dest p) (plan_output p)) (env_of rp)) = inr tt) /\
  (forall ev path,
     ev ∈ trace_of (script handle env inp) -> file_written ev = Some path ->
     exists p, outcome_of rp = Ok p /\ path = plan_output p).
Proof.
  intros g rp.
  destruct (script_anatomy handle env inp) as [Hall|(p & Hp & rest & Htr & Hq & Hrest)].
  - rewrite Forall_forall in Hall. split.
    + intros c d o Hin Hc. apply Hall, quiet_idle in Hin.
      rewrite (idle_no_copy _ Hin) in Hc. discriminate.
    + intros ev path Hin Hw. apply Hall, quiet_idle in Hin.
      rewrite (idle_no_write _ Hin) in Hw. discriminate.
  - cbv zeta in *. fold g rp in Hp, Htr, Hq, Hrest. fold (plan_output p) in Htr, Hrest.
    rewrite Htr. rewrite Forall_forall in Hq.
    assert (Hrest' : forall e, e ∈ rest ->
              copied e = None /\
              forall path, file_written e = Some path -> path = plan_output p).
    { destruct Hrest as [Hidle|(_ & src & out & body & -> & Hbody)].
      - rewrite Forall_forall in Hidle. intros e He. apply Hidle in He.
        split; [apply idle_no_copy, He|]. intros path H.
        rewrite (idle_no_write _ He) in H. discriminate.
      - rewrite Forall_forall in Hbody. intros e He.
        rewrite elem_of_app, !elem_of_cons, elem_of_nil in He.
        destruct He as [[->|[->|[]]]|He]; try (split; [reflexivity|intros ?; discriminate]).
        apply Hbody in He. split; [eapply confined_no_copy, He|].
        intros path. eapply confined_write, He. }
    split.
    + intros c d o Hin H.
      rewrite elem_of_app, elem_of_cons in Hin. destruct Hin as [Hin|[->|Hin]].
      * apply Hq, quiet_idle, idle_no_copy in Hin. congruence.
      * cbn [copied] in H.
        destruct (fst (handle unit (Copy2 (plan_dest p) (plan_output p)) (env_of rp)))
          as [err|[]] eqn:Hc; [discriminate|].
        injection H as <- <-. exists p. auto.
      * apply Hrest' in Hin. destruct Hin as [Hin _]. congruence.
    + intros ev path Hin H. exists p. split; [exact Hp|].
      rewrite elem_of_app, elem_of_cons in Hin. destruct Hin as [Hin|[->|Hin]].
      * apply Hq, quiet_idle, idle_no_write in Hin. congruence.
      * unfold file_written in H. cbn [copied] in H.
        destruct (fst (handle unit (Copy2 (plan_dest p) (plan_output p)) (env_of rp)))
          as [err|[]]; [discriminate|].
        injection H as <-. reflexivity.
      * apply Hrest' in Hin. destruct Hin as [_ Hin]. apply Hin, H.
Qed.

End Files.

(* ================================================================== *)
(** * The claims *)
(* ================================================================== *)

Section Claims.

Context {Env : Type} (handle : forall T, call T -> Env -> res T * Env).

(** C1.  In the work on the two open fonts, the units per em are read
    at most twice (once for each font), and every advance width, left
    side bearing and right side bearing written goes to the output
    font and is [int(round(w * scale))]: [w] is the same metric of the
    same slot of the source font, read by the call just before, and
    [scale] is the quotient of the two units per em read earlier in
    the run, output font over source font.  Where the product is a
    float, the written integer is one nearest to it.  And every glyph
    reported as replaced has had the three of them written: the line
    [replaced] comes right after the width, the left and the right
    side bearing of the source glyph were read and written to the
    output glyph, in this order and each scaled by that quotient. *)
Theorem scale_factor_and_metrics
    cps name author license output_path src out env inp :
  let tr := trace_of (transplant handle cps name author license output_path src out env inp) in
  (length (List.filter reads_em tr) <= 2)%nat /\
  (forall pre ev post m f cp v,
     tr = pre ++ ev :: post ->
     bearing_write ev = Some (m, f, cp, v) ->
     f = out /\
     exists pre' rd w a b scale,
       pre = pre' ++ [rd] /\
       bearing_read rd = Some (m, src, cp, w) /\
       Called (GetEm out) (inr a) ∈ pre /\
       Called (GetEm src) (inr b) ∈ pre /\
       py_truediv a b = inr scale /\
       scaled w scale = inr v /\
       forall x, py_mul w scale = inr (PyFloat x) -> nearest_integer x v) /\
  (forall pre post cp,
     tr = pre ++ Printed (MReplaced cp) :: post ->
     exists pre' w l r w' l' r' a b scale,
       pre = pre' ++ bearing_steps src out cp w l r w' l' r' /\
       Called (GetEm out) (inr a) ∈ pre' /\
       Called (GetEm src) (inr b) ∈ pre' /\
       py_truediv a b = inr scale /\
       scaled w scale = inr w' /\ scaled l scale = inr l' /\ scaled r scale = inr r').
Proof.
  intros tr. split; [apply transplant_reads|]. split; [|apply transplant_replaced].
  intros pre ev post m f cp v Heq Hw.
  destruct (transplant_bearings handle _ _ _ _ _ _ _ _ _ _ _ _ _ _ _ _ Heq Hw)
    as (Hf & pre' & rd & w & a & b & scale & Hpre & Hrd & Ha & Hb & Hdiv & Hv).
  split; [exact Hf|]. exists pre', rd, w, a, b, scale.
  repeat split; auto. intros x Hx. eapply scaled_nearest; eauto.
Qed.

(** C2 (amended).  Alignment mode 2.  In the replacement of one glyph,
    the only translation goes to the output glyph, has no horizontal
    part, and comes right after the glyph was pasted, scaled and
    measured, in this order.  If the output font had an outputtable
    glyph at the code point, the vertical part is the top of the box
    measured before the paste minus the top of the box measured after
    the scaling, as Python subtracts the two numbers; if it had none,
    the vertical part is 0.  In a world where a translated glyph
    measures as the box moved by the vector, the glyph then measures
    with its top at the new top plus that difference, in float
    arithmetic: this is the old top when the two tops are [int]s, and
    when they are floats whose difference Python did not have to
    round.  In the demonstration world the glyph that was there before, with its
    top at 700, is moved by 50 from 650 and ends with its old top,
    and a new one stays at 650. *)
Theorem mode_2_matches_destination_top src out scale cp env inp :
  (forall pre ev post f c x y,
     trace_of (replace_glyph handle src out scale "2" cp env inp) = pre ++ ev :: post ->
     translation_of ev = Some (f, c, x, y) ->
     f = out /\ c = cp /\ x = PyInt 0 /\
     exists new_box,
       pre = trace_of (old_bounds handle out cp env inp) ++ paste_steps src out cp ++
             [Called (Paste out) (inr tt);
              Called (Transform out cp (Scale scale)) (inr tt);
              Called (BoundingBox out cp) (inr new_box)] /\
       ((outcome_of (has_glyph handle out cp env inp) = Ok true /\
         exists old_box,
           trace_of (old_bounds handle out cp env inp)
             = trace_of (has_glyph handle out cp env inp) ++
               [Called (BoundingBox out cp) (inr old_box)] /\
           py_sub (ymax old_box) (ymax new_box) = inr y) \/
        (outcome_of (has_glyph handle out cp env inp) = Ok false /\ y = PyInt 0))) /\
  (forall old_top old_bot,
     moves_boxes handle ->
     outcome_of (align_y handle out "2" (Some old_top) old_bot cp env inp) = Ok tt ->
     exists new_box y,
       py_sub old_top (ymax new_box) = inr y /\
       trace_of (align_y handle out "2" (Some old_top) old_bot cp env inp)
       = [Called (BoundingBox out cp) (inr new_box);
          Called (Transform out cp (Translate (PyInt 0) y)) (inr tt)] /\
       fst (handle box (BoundingBox out cp)
              (env_of (align_y handle out "2" (Some old_top) old_bot cp env inp)))
       = inr (translated (PyInt 0) y new_box) /\
       ymax (translated (PyInt 0) y new_box) = Mock.py_add (ymax new_box) y /\
       (unrounded old_top (ymax new_box) y ->
        ymax (translated (PyInt 0) y new_box) = old_top)) /\
  (let r := Mock.run Mock.demo (Mock.answers "2") in
   Mock.top_of 0x41 Mock.demo = Some (Mock.num 700) /\
   translation_of (hit translates (trace_of r)) = Some (1%nat, 0x41, PyInt 0, Mock.num 50) /\
   Mock.top_of 0x41 (env_of r) = Some (Mock.num 700) /\
   Mock.top_of 0x42 Mock.demo = None /\
   Mock.top_of 0x42 (env_of r) = Some (Mock.num 650)).
Proof.
  split; [|split; [|vm_compute; repeat split; reflexivity]].
  - intros pre ev post f c x y Heq Ht.
    destruct (replace_glyph_shift handle _ _ _ _ _ _ _ _ _ _ _ _ _ _ Heq Ht)
      as (Hf & Hc & Hx & top & bot & new_box & Hold & Hpre & Hs).
    repeat split; auto. exists new_box. split; [exact Hpre|].
    destruct (old_bounds_cases handle _ _ _ _ _ _ Hold)
      as [(Hchk & b & -> & -> & Htr)|(Hchk & -> & -> & Htr)].
    + left. split; [exact Hchk|]. exists b. split; [exact Htr|]. exact Hs.
    + right. split; [exact Hchk|]. simpl in Hs. inversion Hs. reflexivity.
  - intros old_top old_bot Hmoves Hok.
    destruct (align_y_moves handle out old_top old_bot cp env inp Hmoves Hok)
      as (new_box & y & Hsub & Htr & Hbox).
    exists new_box, y. split; [exact Hsub|]. split; [exact Htr|].
    split; [exact Hbox|]. split; [reflexivity|].
    intros Hun. exact (shift_back_to_top _ _ _ Hsub Hun).
Qed.


(** C4 (amended).  The three fatal ends of the setup.  When the import
    of FontForge fails, the process prints two lines and exits with
    status 1, and has made no other call.  When a folder holds no
    font, the process ends with status 1 and has copied nothing,
    opened no font, and changed or saved none.  When a font cannot be
    opened, the process exits with status 1 and its run is: the
    questions, during which nothing was copied and no font opened,
    changed or saved; the copy, gone through, of the destination
    font -- a font file that the listing of [Destination] showed --
    to the output path made of the font name that was typed; and the
    failure to open the source font or, after it, the output font,
    with its line.  No font has been changed or saved. *)
Theorem fatal_setup_errors env inp :
  (fst (handle unit ImportFontforge env) = inl ImportError ->
   outcome_of (script handle env inp) = Exit 1 /\
   trace_of (script handle env inp)
     = [Called ImportFontforge (inl ImportError);
        Printed MNoFontForge; Printed MRunWithFontForge]) /\
  (forall ev,
     reports_no_fonts ev = true -> ev ∈ trace_of (script handle env inp) ->
     exit_code (outcome_of (script handle env inp)) = 1 /\
     Forall (fun e => quiet e = true) (trace_of (script handle env inp))) /\
  (forall ev,
     reports_open_error ev = true -> ev ∈ trace_of (script handle env inp) ->
     outcome_of (script handle env inp) = Exit 1 /\
     let g := import_guard handle env inp in
     let rp := prepare handle (env_of g) (stdin_of g) in
     exists p rest,
       outcome_of rp = Ok p /\
       font_of dest_folder (plan_dest p) (trace_of rp) /\
       answered PFontName (plan_font_name p) (trace_of rp) /\
       plan_output p = output_path_of output_folder (plan_dest p) (plan_font_name p) /\
       trace_of (script handle env inp)
       = (trace_of g ++ trace_of rp) ++
         Called (Copy2 (plan_dest p) (plan_output p)) (inr tt) :: rest /\
       open_failure p rest /\
       Forall (fun e => quiet e = true) (trace_of g ++ trace_of rp) /\
       Forall (fun e => harmless e = true) rest).
Proof.
  split; [|split].
  - intros H. unfold script, import_guard.
    rewrite bind_run, try_run, perform_run, H. split; reflexivity.
  - intros ev. apply script_no_fonts.
  - intros ev Hev Hin.
    split; [apply (script_open_error handle env inp ev Hev Hin)|]. intros g rp.
    destruct (script_open_failure handle env inp ev Hev Hin) as (p & rest & Hp & Htr & Hfail).
    fold g rp in Hp, Htr.
    destruct (prepare_plan handle _ _ _ Hp) as (_ & Hdest & Hname).
    exists p, rest. repeat split; auto.
    + apply Forall_app. split; [apply import_guard_quiet|apply prepare_quiet].
    + destruct Hfail as (e & [-> | (src & ->)]); repeat constructor.
Qed.


(** C6.  With two lines to read, the first step returns the set of the
    range; a code point belongs to it exactly when both answers are
    given, both parse, and it lies between the two values, ends
    included.  (Nothing lies between them when the end is below the
    start.) *)
Theorem range_contributes_interval (env : Env) l1 l2 rest :
  (exists tr,
     read_range env (l1 :: l2 :: rest)
     = Result (Ok (range_codepoints (strip l1) (strip l2))) env rest tr) /\
  forall start_s end_s cp,
    cp ∈ range_codepoints start_s end_s <->
    truthy start_s = true /\ truthy end_s = true /\
    exists start_cp end_cp,
      parse_hex_int start_s = Some start_cp /\ parse_hex_int end_s = Some end_cp /\
      start_cp <= cp <= end_cp.
Proof. split; [apply read_range_run|apply elem_of_range_codepoints]. Qed.

(** C7.  Whatever the three answers, the sequence the collection hands
    on is strictly ascending and without repetition: with three lines
    to read it is the sorted set of the range and the list (or the
    process leaves with status 0 when that set is empty), and it
    holds exactly the members of that set. *)
Theorem final_codepoints_strictly_ascending (env : Env) :
  (forall inp cps,
     outcome_of (collect_codepoints env inp) = Ok cps ->
     StronglySorted Z.lt cps /\ NoDup cps) /\
  (forall l1 l2 l3 rest,
     let X := specific_codepoints (strip l3) (range_codepoints (strip l1) (strip l2)) in
     outcome_of (collect_codepoints env (l1 :: l2 :: l3 :: rest))
       = (if bool_decide (X = ∅) then Exit 0 else Ok (final_codepoints (strip l1) (strip l2) (strip l3))) /\
     forall cp, cp ∈ final_codepoints (strip l1) (strip l2) (strip l3) <-> cp ∈ X) /\
  final_codepoints "0041" "0043" "0x24" = [0x24; 0x41; 0x42; 0x43].
Proof.
  split; [|split; [|vm_compute; reflexivity]].
  - intros inp cps H.
    destruct inp as [|l1 [|l2 [|l3 rest]]];
      try (rewrite collect_codepoints_short in H by (simpl; lia); discriminate).
    destruct (collect_codepoints_run env l1 l2 l3 rest) as [Ho _]. rewrite Ho in H.
    destruct (bool_decide _); [discriminate|]. inversion H; subst.
    split; [apply sorted_ascending|apply NoDup_sorted].
  - intros l1 l2 l3 rest X. split.
    + apply collect_codepoints_run.
    + intros cp. apply elem_of_sorted.
Qed.

(** C8 (amended).  The output path is [os.path.join] of [Output] and
    the new font name followed by the extension: [Output/<name><ext>]
    unless the name begins with a slash, in which case it is
    [<name><ext>].  The extension is the extension of the destination
    path in lower case when that is [.ttf] or [.otf], and [.ttf]
    otherwise, so it is always one of the two.  With a lower-case
    extension and a name that does not begin with a slash this is the
    path of the specification; [dest.otf] and [MyFont] give
    [Output/MyFont.otf]. *)
Theorem output_path_is_joined dest name :
  output_path_of output_folder dest name
    = (if startswith "/" name then name +:+ output_ext dest
       else "Output/" +:+ name +:+ output_ext dest) /\
  output_ext dest
    = (let ext := lower (snd (splitext dest)) in
       if existsb (String.eqb ext) [".ttf"; ".otf"] then ext else ".ttf") /\
  (output_ext dest = ".ttf" \/ output_ext dest = ".otf") /\
  (lower (snd (splitext dest)) = snd (splitext dest) ->
   startswith "/" name = false ->
   output_path_of output_folder dest name = spec_output_path dest name) /\
  output_path_of output_folder "Destination/dest.otf" "MyFont" = "Output/MyFont.otf".
Proof.
  split; [apply output_path_of_cases|]. split; [reflexivity|].
  split; [apply output_ext_cases|]. split; [|reflexivity].
  intros Hlow Hname. rewrite output_path_of_cases, Hname.
  unfold spec_output_path, output_ext. cbv zeta. rewrite Hlow. reflexivity.
Qed.

(** C9.  Files are told apart by [same_file], and [shutil.copy2]
    refuses to copy a file onto itself.  Then, in every run, an event
    that changes a font or saves one has before it, in this order:
    the questions, during which nothing was copied and no font
    opened, changed or saved; the copy, gone through, of the
    destination font -- a font file that the listing of
    [Destination] showed -- to the output path made of the font name
    that was typed; the opening of the source font; the opening of
    the output font from the output path; and nothing else but work
    that changes no font but the output font, saves it to the output
    path only, and neither copies nor opens.  The event itself stays
    with the output font and the output path, and the output path is
    not the file of the destination font.  The run copies nothing but
    the destination font to the output path, and every file it writes
    is the output path. *)
Theorem copy_then_work_on_the_copy (same_file : string -> string -> bool) :
  (forall env d o,
     same_file d o = true -> exists e, fst (handle unit (Copy2 d o) env) = inl e) ->
  forall env inp,
    let g := import_guard handle env inp in
    let rp := prepare handle (env_of g) (stdin_of g) in
    let tr := trace_of (script handle env inp) in
    (forall pre ev post,
       tr = pre ++ ev :: post ->
       harmless ev = false ->
       exists p src out body,
         outcome_of rp = Ok p /\
         font_of dest_folder (plan_dest p) (trace_of rp) /\
         answered PFontName (plan_font_name p) (trace_of rp) /\
         plan_output p = output_path_of output_folder (plan_dest p) (plan_font_name p) /\
         pre = (trace_of g ++ trace_of rp) ++ copy_and_open p src out ++ body /\
         Forall (fun e => quiet e = true) (trace_of g ++ trace_of rp) /\
         Forall (fun e => confined out (plan_output p) e = true) body /\
         confined out (plan_output p) ev = true /\
         same_file (plan_dest p) (plan_output p) = false) /\
    (forall c d o,
       c ∈ tr -> copied c = Some (d, o) ->
       exists p,
         outcome_of rp = Ok p /\ d = plan_dest p /\ o = plan_output p /\
         same_file d o = false) /\
    (forall ev path,
       ev ∈ tr -> file_written ev = Some path ->
       exists p, outcome_of rp = Ok p /\ path = plan_output p).
Proof.
  intros Hsame env inp g rp tr.
  assert (Hdiff : forall d o env', fst (handle unit (Copy2 d o) env') = inr tt ->
                                   same_file d o = false).
  { intros d o env' H. destruct (same_file d o) eqn:Hs; [|reflexivity].
    destruct (Hsame env' d o Hs) as (e & He). congruence. }
  split; [|split].
  - intros pre ev post Heq Hev.
    destruct (script_change handle env inp pre ev post Heq Hev)
      as (p & src & out & body & Hp & Hok & Hpre & Hq & Hbody & Hconf).
    fold g rp in Hp, Hok, Hpre, Hq.
    destruct (prepare_plan handle _ _ _ Hp) as (_ & Hdest & Hname).
    exists p, src, out, body. repeat split; auto. eapply Hdiff, Hok.
  - intros c d o Hin Hc.
    destruct (proj1 (script_files handle env inp) c d o Hin Hc) as (p & Hp & -> & -> & Hok).
    exists p. repeat split; auto. eapply Hdiff, Hok.
  - apply (proj2 (script_files handle env inp)).
Qed.

(** C10.  A turn of the loop in which the check of the source glyph
    passes and the replacement raises adds to neither counter: it
    returns both unchanged after printing the error and its trace.
    Over the loop, the two counters and the number of error lines add
    up to the number of code points; in the demonstration world with
    a paste that fails at U+0042, the loop over two code points ends
    with one replaced and none skipped. *)
Theorem error_counts_nowhere src out scale align :
  (forall cp r s env inp e,
     let chk := has_glyph handle src cp env inp in
     let body := replace_glyph handle src out scale align cp (env_of chk) (stdin_of chk) in
     outcome_of chk = Ok true ->
     outcome_of body = Raise e ->
     transfer_glyph handle src out scale align cp (r, s) env inp
       = Result (Ok (r, s)) (env_of body) (stdin_of body)
           (trace_of chk ++ trace_of body ++
            [Printed (MError cp e); Printed (MTraceback e)])) /\
  (forall cps env inp,
     let loop := transfer_loop handle src out scale align cps env inp in
     exists r s,
       outcome_of loop = Ok (r, s) /\
       (r + s + count is_error (trace_of loop) = length cps)%nat) /\
  outcome_of (transfer_loop Mock.handle 0%nat 1%nat (Mock.num 1) "1" [0x41; 0x42]
                (Mock.with_broken [0x42] Mock.demo) [])
    = Ok (1%nat, 0%nat).
Proof.
  split; [|split; [|vm_compute; reflexivity]].
  - intros cp r s env inp e chk body Hchk Hbody.
    destruct (transfer_glyph_cases handle src out scale align cp r s env inp)
      as [(H & _)|[(_ & H & _)|[(e' & H & _)|(e' & _ & H & Heq)]]].
    + fold chk in H. rewrite Hchk in H. discriminate.
    + fold chk body in H. rewrite Hbody in H. discriminate.
    + fold chk in H. rewrite Hchk in H. discriminate.
    + fold chk body in H, Heq. rewrite Hbody in H. inversion H; subst. exact Heq.
  - intros cps env inp loop.
    destruct (loop_counts handle src out scale align cps O O env inp)
      as (r & s & Ho & _ & _ & Hsum).
    exists r, s. split; [exact Ho|exact Hsum].
Qed.

End Claims.

(* ================================================================== *)
(** * The claims on concrete runs *)
(* ================================================================== *)

(** The glyph replaced in the demonstration world: width 1200, left
    side bearing 100 and right side bearing 90 of the source glyph,
    under the quotient 1000/2000, are written as 600, 50 and 45. *)
Lemma scale_factor_and_metrics_demo :
  let tr := trace_of (transplant Mock.handle [0x41] "MyFont" "Ann" "-" "Output/MyFont.otf"
                        0%nat 1%nat Mock.demo ["1"]) in
  exists pre w l r a b scale,
    upto reports_replaced tr = pre ++ bearing_steps 0%nat 1%nat 0x41 w l r 600 50 45 /\
    py_truediv a b = inr scale /\
    scaled w scale = inr 600 /\ scaled l scale = inr 50 /\ scaled r scale = inr 45.
Proof.
  intros tr.
  destruct (proj2 (proj2 (scale_factor_and_metrics Mock.handle [0x41] "MyFont" "Ann" "-"
                            "Output/MyFont.otf" 0%nat 1%nat Mock.demo ["1"]))
              (upto reports_replaced tr) (beyond reports_replaced tr) 0x41)
    as (pre & w & l & r & w' & l' & r' & a & b & scale & Hpre & _ & _ & Hdiv & Hw & Hl & Hr).
  - vm_compute. reflexivity.
  - pose proof (f_equal (fun t => map bearing_write (firstn 6 (rev t))) Hpre) as Hlast.
    cbv beta in Hlast. rewrite rev_app_distr in Hlast.
    vm_compute in Hlast. injection Hlast as H3 H2 H1. subst w' l' r'.
    exists pre, w, l, r, a, b, scale. repeat split; assumption.
Defined.

(** The translation of U+0041 under mode 2 in the demonstration world
    (scale 1): the old top 700 minus the new top 1300; and a glyph
    measured at 700 that is moved to an old top of 650, a difference
    that is not rounded. *)
Lemma mode_2_matches_destination_top_demo :
  (let tr := trace_of (replace_glyph Mock.handle 0%nat 1%nat (Mock.num 1) "2" 0x41 Mock.demo []) in
   exists old_box new_box,
     ymax old_box = Mock.num 700 /\
     upto translates tr
     = trace_of (old_bounds Mock.handle 1%nat 0x41 Mock.demo []) ++ paste_steps 0%nat 1%nat 0x41 ++
       [Called (Paste 1%nat) (inr tt);
        Called (Transform 1%nat 0x41 (Scale (Mock.num 1))) (inr tt);
        Called (BoundingBox 1%nat 0x41) (inr new_box)] /\
     py_sub (ymax old_box) (ymax new_box) = inr (Mock.num (-600))) /\
  (exists new_box y,
     py_sub (Mock.num 650) (ymax new_box) = inr y /\
     fst (Mock.handle box (BoundingBox 1%nat 0x41)
            (env_of (align_y Mock.handle 1%nat "2" (Some (Mock.num 650)) None 0x41
                       Mock.demo [])))
     = inr (translated (PyInt 0) y new_box) /\
     ymax (translated (PyInt 0) y new_box) = Mock.py_add (ymax new_box) y /\
     unrounded (Mock.num 650) (ymax new_box) y /\
     ymax (translated (PyInt 0) y new_box) = Mock.num 650).
Proof.
  split.
  - intros tr.
    destruct (proj1 (mode_2_matches_destination_top Mock.handle 0%nat 1%nat (Mock.num 1) 0x41
                       Mock.demo [])
                (upto translates tr) (hit translates tr) (beyond translates tr)
                1%nat 0x41 (PyInt 0) (Mock.num (-600)))
      as (_ & _ & _ & new_box & Hpre & [(_ & old_box & Hold & Hsub)|(Hnone & _)]).
    + vm_compute. reflexivity.
    + vm_compute. reflexivity.
    + exists old_box, new_box. split; [|split; [exact Hpre|exact Hsub]].
      clear Hsub Hpre. apply (f_equal (fun l => match l with
                                 | [_; _; Called c r] =>
                                     match c in call T return res T -> option pynum with
                                     | BoundingBox _ _ => fun r =>
                                         match r with inr b => Some (ymax b) | inl _ => None end
                                     | _ => fun _ => None
                                     end r
                                 | _ => None
                                 end)) in Hold.
      destruct old_box as [x0 y0 x1 y1]. vm_compute in Hold |- *.
      injection Hold as Hold. symmetry. exact Hold.
    + vm_compute in Hnone. discriminate Hnone.
  - destruct (proj1 (proj2 (mode_2_matches_destination_top Mock.handle 0%nat 1%nat (Mock.num 1)
                              0x41 Mock.demo []))
                (Mock.num 650) None mock_moves_boxes)
      as (new_box & y & Hsub & Htr & Hbox & Htop & Hback).
    + vm_compute. reflexivity.
    + assert (Hun : unrounded (Mock.num 650) (ymax new_box) y).
      { clear Hsub Hbox Htop Hback.
        apply (f_equal (fun l => match l with
                                 | [Called c r; ev] =>
                                     (match c in call T return res T -> option pynum with
                                      | BoundingBox _ _ => fun r =>
                                          match r with inr b => Some (ymax b) | inl _ => None end
                                      | _ => fun _ => None
                                      end r, translation_of ev)
                                 | _ => (None, None)
                                 end)) in Htr.
        destruct new_box as [x0 y0 x1 y1]. vm_compute in Htr.
        injection Htr as Htop Hy. subst y1 y.
        vm_compute. repeat split; reflexivity. }
      exists new_box, y.
      split; [exact Hsub|]. split; [exact Hbox|]. split; [exact Htop|].
      split; [exact Hun|]. exact (Hback Hun).
Defined.

(** Tops that are no whole numbers: the old top is 12.3 and the
    pasted glyph has its top at 650.1, the two fonts have the same
    units per em.  The difference that Python computes is not the
    difference of the two numbers: it is rounded.  In the world that
    moves a translated box by the vector, the run under mode 2 ends
    with the top of U+0041 at 12.299999999999955, not at 12.3. *)
Lemma rounded_shift_misses_the_old_top :
  float_of_ratio 123 10 = Some f_12_3 /\
  float_of_ratio 6501 10 = Some f_650_1 /\
  vertical_shift "2" (Some (PyFloat f_12_3)) None (PyFloat f_650_1) (Mock.num 0)
  = inr (PyFloat (S754_finite true 5610148129564263 (-43))) /\
  in_units (-49) (PyFloat (S754_finite true 5610148129564263 (-43)))
  <> in_units (-49) (PyFloat f_12_3) - in_units (-49) (PyFloat f_650_1) /\
  Mock.py_add (PyFloat f_650_1) (PyFloat (S754_finite true 5610148129564263 (-43)))
  = PyFloat (S754_finite false 6924284427082112 (-49)) /\
  (let r := Mock.run fractional (Mock.answers "2") in
   outcome_of r = Ok tt /\
   translation_of (hit translates (trace_of r))
   = Some (1%nat, 0x41, PyInt 0, PyFloat (S754_finite true 5610148129564263 (-43))) /\
   Mock.top_of 0x41 fractional = Some (PyFloat f_12_3) /\
   Mock.top_of 0x41 (env_of r) = Some (PyFloat (S754_finite false 6924284427082112 (-49))) /\
   Mock.top_of 0x41 (env_of r) <> Mock.top_of 0x41 fractional).
Proof. vm_compute. repeat split; try reflexivity; discriminate. Qed.


(** The three fatal ends in the demonstration world: FontForge not
    importable, an empty destination folder, a source font that does
    not open. *)
Lemma fatal_setup_errors_demo :
  outcome_of (Mock.run (Mock.not_importable Mock.demo) (Mock.answers "1")) = Exit 1 /\
  Forall (fun e => quiet e = true)
    (trace_of (Mock.run (Mock.with_dest_files [] Mock.demo) (Mock.answers "1"))) /\
  (let w := Mock.with_unopenable ["Source/src.ttf"] Mock.demo in
   let g := import_guard Mock.handle w (Mock.answers "1") in
   let rp := prepare Mock.handle (env_of g) (stdin_of g) in
   outcome_of (Mock.run w (Mock.answers "1")) = Exit 1 /\
   exists p rest,
     outcome_of rp = Ok p /\
     font_of dest_folder (plan_dest p) (trace_of rp) /\
     trace_of (Mock.run w (Mock.answers "1"))
     = (trace_of g ++ trace_of rp) ++
       Called (Copy2 (plan_dest p) (plan_output p)) (inr tt) :: rest /\
     open_failure p rest).
Proof.
  split; [|split].
  - apply (proj1 (fatal_setup_errors Mock.handle (Mock.not_importable Mock.demo)
                    (Mock.answers "1"))).
    vm_compute. reflexivity.
  - apply (proj1 (proj2 (fatal_setup_errors Mock.handle (Mock.with_dest_files [] Mock.demo)
                           (Mock.answers "1")))
             (Printed (MNoFonts "Destination"))).
    + reflexivity.
    + vm_compute. repeat constructor.
  - intros w g rp.
    destruct (proj2 (proj2 (fatal_setup_errors Mock.handle w (Mock.answers "1")))
                (Printed (MErrorOpening (Error "OSError"))))
      as (Hexit & p & rest & Hp & Hdest & _ & _ & Htr & Hfail & _).
    + reflexivity.
    + vm_compute. repeat constructor.
    + split; [exact Hexit|]. exists p, rest. repeat split; assumption.
Defined.

(** When the source font does not open, the process exits with status
    1 after the destination font was copied: the output file exists. *)
Lemma open_failure_leaves_the_copy :
  let r := Mock.run (Mock.with_unopenable ["Source/src.ttf"] Mock.demo) (Mock.answers "1") in
  outcome_of r = Exit 1 /\
  nth 20 (trace_of r) (Printed MDone)
    = Called (FFOpen "Source/src.ttf") (inl (Error "OSError")) /\
  nth 21 (trace_of r) (Printed MDone) = Printed (MErrorOpening (Error "OSError")) /\
  nth 19 (trace_of r) (Printed MDone)
    = Called (Copy2 "Destination/dest.otf" "Output/MyFont.otf") (inr tt) /\
  file_written (nth 19 (trace_of r) (Printed MDone)) = Some "Output/MyFont.otf" /\
  ~ Forall (fun e => quiet e = true) (trace_of r).
Proof.
  intros r. repeat split; try (vm_compute; reflexivity).
  intros H. rewrite Forall_forall in H.
  specialize (H (Called (Copy2 "Destination/dest.otf" "Output/MyFont.otf") (inr tt))).
  assert (Hin : Called (Copy2 "Destination/dest.otf" "Output/MyFont.otf") (inr tt)
                  ∈ trace_of r) by (vm_compute; repeat constructor).
  specialize (H Hin). vm_compute in H. discriminate H.
Qed.



(** U+0042 lies in the range 0041-0043. *)
Lemma range_contributes_interval_demo :
  0x42 ∈ range_codepoints "0041" "0043" /\
  ~ 0x42 ∈ range_codepoints "0043" "0041".
Proof.
  destruct (range_contributes_interval tt "0041" "0043" []) as [_ H]. split.
  - apply H. split; [reflexivity|]. split; [reflexivity|].
    exists 0x41, 0x43. split; [vm_compute; reflexivity|].
    split; [vm_compute; reflexivity|lia].
  - intros Hin. apply H in Hin.
    destruct Hin as (_ & _ & a & b & Ha & Hb & Hab).
    vm_compute in Ha, Hb. injection Ha as <-. injection Hb as <-. lia.
Defined.

(** The range 0041-0043 with the list 0x24, 42. *)
Lemma final_codepoints_strictly_ascending_demo :
  StronglySorted Z.lt [0x24; 0x41; 0x42; 0x43] /\ NoDup [0x24; 0x41; 0x42; 0x43].
Proof.
  apply (proj1 (final_codepoints_strictly_ascending tt) ["0041"; "0043"; "0x24, 42"]).
  vm_compute. reflexivity.
Defined.

(** A lower-case extension and a plain name. *)
Lemma output_path_is_joined_demo :
  output_path_of output_folder "Destination/dest.ttf" "My Font"
    = spec_output_path "Destination/dest.ttf" "My Font".
Proof.
  apply (output_path_is_joined "Destination/dest.ttf" "My Font"); reflexivity.
Defined.

(** An upper-case extension is accepted by the search for fonts and
    comes out in lower case: the output path carries neither the
    extension of the destination file nor the default.  A name that
    begins with a slash leaves the output folder. *)
Lemma output_path_lowers_extension :
  is_font_name "DEST.OTF" = true /\
  snd (splitext "Destination/DEST.OTF") = ".OTF" /\
  output_path_of output_folder "Destination/DEST.OTF" "MyFont" = "Output/MyFont.otf" /\
  spec_output_path "Destination/DEST.OTF" "MyFont" = "Output/MyFont.ttf" /\
  output_path_of output_folder "Destination/DEST.OTF" "MyFont"
    <> spec_output_path "Destination/DEST.OTF" "MyFont" /\
  output_path_of output_folder "Destination/DEST.OTF" "MyFont" <> "Output/MyFont.OTF" /\
  output_path_of output_folder "Destination/dest.otf" "/tmp/MyFont" = "/tmp/MyFont.otf".
Proof. vm_compute. repeat split; try reflexivity; discriminate. Qed.

(** The first change of a font in the full demonstration run (the
    font name is set): right before it the destination font was
    copied and the two fonts were opened, the output font from the
    copy. *)
Lemma copy_then_work_on_the_copy_demo :
  let g := import_guard Mock.handle Mock.demo (Mock.answers "1") in
  let rp := prepare Mock.handle (env_of g) (stdin_of g) in
  let tr := trace_of (Mock.run Mock.demo (Mock.answers "1")) in
  exists p src out body,
    outcome_of rp = Ok p /\
    font_of dest_folder (plan_dest p) (trace_of rp) /\
    upto changes_font tr = (trace_of g ++ trace_of rp) ++ copy_and_open p src out ++ body /\
    confined out (plan_output p) (hit changes_font tr) = true /\
    Mock.same_file (plan_dest p) (plan_output p) = false.
Proof.
  intros g rp tr.
  assert (Hsame : forall env d o,
             Mock.same_file d o = true ->
             exists e, fst (Mock.handle unit (Copy2 d o) env) = inl e).
  { intros env d o H. unfold Mock.same_file in H. cbn. rewrite H. eexists. reflexivity. }
  destruct (proj1 (copy_then_work_on_the_copy Mock.handle Mock.same_file Hsame
                     Mock.demo (Mock.answers "1"))
              (upto changes_font tr) (hit changes_font tr) (beyond changes_font tr))
    as (p & src & out & body & Hp & Hdest & _ & _ & Hpre & _ & _ & Hconf & Hdiff).
  - vm_compute. reflexivity.
  - vm_compute. reflexivity.
  - exists p, src, out, body. repeat split; assumption.
Defined.

(** The paste fails at U+0042: the turn leaves both counters as they
    were. *)
Lemma error_counts_nowhere_demo :
  outcome_of (transfer_glyph Mock.handle 0%nat 1%nat (Mock.num 1) "1" 0x42 (3%nat, 4%nat)
                (Mock.with_broken [0x42] Mock.demo) [])
    = Ok (3%nat, 4%nat).
Proof.
  rewrite (proj1 (error_counts_nowhere Mock.handle 0%nat 1%nat (Mock.num 1) "1")
             0x42 3%nat 4%nat (Mock.with_broken [0x42] Mock.demo) [] (Error "paste failed")).
  - reflexivity.
  - vm_compute. reflexivity.
  - vm_compute. reflexivity.
Defined.
